(** * translate.py: cleaning, cached translation and record processing

    A shallow embedding of [translate.py] (the batch translation utility of
    the logit-exploration repository) and the properties of its functions.

    Python values are modelled as follows.
    - A [str] is the list of its Unicode code points ([N]); nothing restricts
      the code points to scalar values, exactly as in Python, where a [str]
      may hold lone surrogates.
    - A [dict] is a finite map ([gmap]); insertion order is not modelled.
    - Exceptions, the cache, the translation providers, the text files and
      the console are the components of an explicit state that every
      effectful function threads (section "Effects"). *)

From Stdlib Require Import ZArith NArith Ascii String Lia.
From stdpp Require Import gmap list pretty.

#[local] Open Scope N_scope.
#[local] Set Warnings "-register-all".

(* ===================================================================== *)
(** * Strings *)
(* ===================================================================== *)

(** A code point. *)
Abbreviation char := N.

Abbreviation pystr := (list N).

(** The code points of an ASCII literal. *)
Definition str (s : string) : pystr :=
  map N_of_ascii (list_ascii_of_string s).

(** A character of an ASCII literal. *)
Definition ch (a : ascii) : char := N_of_ascii a.

(** [not s] for a [str]: only the empty string is falsy. *)
Definition falsy (s : pystr) : bool :=
  match s with [] => true | _ => false end.

(** [str.isspace] on one code point: the code points CPython's
    [_PyUnicode_IsWhitespace] accepts. *)
Definition isspace (c : char) : bool :=
  ((9 <=? c) && (c <=? 13)) || ((28 <=? c) && (c <=? 32))
  || (c =? 133) || (c =? 160) || (c =? 5760)
  || ((8192 <=? c) && (c <=? 8202))
  || (c =? 8232) || (c =? 8233) || (c =? 8239) || (c =? 8287) || (c =? 12288).

(** [s.lstrip()], [s.rstrip()] and [s.strip()] with no argument. *)
Fixpoint lstrip (s : pystr) : pystr :=
  match s with
  | c :: s' => if isspace c then lstrip s' else s
  | [] => []
  end.

Definition rstrip (s : pystr) : pystr := rev (lstrip (rev s)).

Definition strip (s : pystr) : pystr := rstrip (lstrip s).

(** [s.startswith(sub)] *)
Fixpoint startswith (s sub : pystr) {struct sub} : bool :=
  match sub with
  | [] => true
  | c :: sub' =>
      match s with
      | x :: s' => (x =? c) && startswith s' sub'
      | [] => false
      end
  end.

(** [sub in s] for strings: [sub] occurs in [s] as a substring. *)
Fixpoint contains (sub s : pystr) : bool :=
  startswith s sub ||
  match s with
  | [] => false
  | _ :: s' => contains sub s'
  end.

(** [s.split(sep)] for a separator of length one (the source only splits on
    a comma). The result is never empty: [s.split(sep)[0]] always exists. *)
Fixpoint split (sep : char) (s : pystr) : list pystr :=
  match s with
  | [] => [[]]
  | c :: s' =>
      if c =? sep then [] :: split sep s'
      else match split sep s' with
           | seg :: segs => (c :: seg) :: segs
           | [] => [[c]]
           end
  end.

(** [l[0]] on a list of strings known to be non-empty. *)
Definition item0 (l : list pystr) : pystr := hd [] l.

Definition comma : char := ch ",".

(* ===================================================================== *)
(** * Text cleaners: [clean_generated_answer] *)
(* ===================================================================== *)

(** [clean_generated_answer(generated)] (translate.py, lines 35-42). *)
Definition clean_generated_answer (generated : pystr) : pystr :=
  if falsy generated then []
  else if contains [comma] generated
       then strip (item0 (split comma generated))
       else strip generated.

(** What "trimmed of surrounding whitespace" means, stated without
    [strip]: [t] is [s] with a run of whitespace removed at each end, and
    [t] neither starts nor ends with whitespace. *)
Definition no_space_at_ends (t : pystr) : Prop :=
  (forall c, head t = Some c -> isspace c = false) /\
  (forall c, last t = Some c -> isspace c = false).

Definition trimmed_of (s t : pystr) : Prop :=
  exists l r, s = l ++ t ++ r
    /\ forallb isspace l = true /\ forallb isspace r = true
    /\ no_space_at_ends t.

(* ===================================================================== *)
(** * Regular expressions, as [re.sub] and [re.split] run them *)
(* ===================================================================== *)

(** The fragment of Python's [re] syntax that the source's patterns use.
    [Group n r] is the capturing group number [n]. *)
Inductive regex : Type :=
| Eps                              (* the empty pattern *)
| Lit (c : char)                   (* a literal character *)
| CharSet (l : list char)          (* [...] *)
| AnyChar                          (* .  (no DOTALL: not a newline) *)
| Space                            (* \s *)
| Seq (a b : regex)                (* ab *)
| Alt (a b : regex)                (* a|b, the left branch first *)
| Star (a : regex)                 (* a*, greedy *)
| Group (n : nat) (a : regex)      (* (a) *)
| Bol                              (* ^  (no MULTILINE) *)
| Eol.                             (* $  (no MULTILINE) *)

(** [a+] *)
Definition Plus (a : regex) : regex := Seq a (Star a).

(** A literal word, and an alternation of literal words. *)
Definition lits (s : string) : regex :=
  fold_right (fun c r => Seq (Lit c) r) Eps (str s).

Fixpoint alts (l : list string) : regex :=
  match l with
  | [] => Eps
  | [w] => lits w
  | w :: l' => Alt (lits w) (alts l')
  end.

Definition ascii_lower (c : char) : char :=
  if (65 <=? c) && (c <=? 90) then c + 32 else c.

(** A pattern literal [c] (an ASCII character) against the subject
    character [x]. Under [re.IGNORECASE] on a [str] pattern, [x] matches
    when its simple lower-case mapping is that of [c] or a character the
    [re] compiler treats as equivalent to it: besides the two ASCII cases,
    that adds U+0130 and U+0131 for [i], U+017F for [s], U+212A for [k]. *)
Definition lit_matches (ignorecase : bool) (c x : char) : bool :=
  if ignorecase then
    (ascii_lower x =? ascii_lower c)
    || ((ascii_lower c =? 105) && ((x =? 304) || (x =? 305)))
    || ((ascii_lower c =? 115) && (x =? 383))
    || ((ascii_lower c =? 107) && (x =? 8490))
  else x =? c.

(** Spans of the capturing groups that took part in a match, the most
    recent first. *)
Definition captures : Type := list (nat * (nat * nat)).

(** What remains to be matched: called with the position reached, the
    subject from there on and the groups so far. *)
Definition cont (R : Type) : Type := nat -> pystr -> captures -> option R.

(** The iterations of a greedy star whose body is matched by [step]: one
    more iteration is tried before the continuation is, at most [fuel]
    times; an iteration that consumes nothing is not taken. *)
Fixpoint star_loop {R : Type}
    (step : nat -> pystr -> captures -> cont R -> option R) (k : cont R)
    (fuel : nat) (pos : nat) (s : pystr) (cs : captures) : option R :=
  match fuel with
  | O => k pos s cs
  | S fuel' =>
      match step pos s cs
              (fun p' s' cs' =>
                 if (pos <? p')%nat then star_loop step k fuel' p' s' cs'
                 else None) with
      | Some m => Some m
      | None => k pos s cs
      end
  end.

(** One character of the subject, if [ok] accepts it. *)
Definition one_char {R : Type} (ok : char -> bool) (pos : nat) (s : pystr)
    (cs : captures) (k : cont R) : option R :=
  match s with
  | x :: s' => if ok x then k (S pos) s' cs else None
  | [] => None
  end.

(** The backtracking matcher. [s] is the subject from position [pos] on.
    Alternatives are tried left to right and a star takes as many
    iterations as it can before it gives one back, which is the order in
    which [re] explores matches. A star never needs more iterations than
    the subject has characters left. *)
Fixpoint rmatch {R : Type} (ic : bool) (r : regex) (pos : nat) (s : pystr)
    (cs : captures) (k : cont R) {struct r} : option R :=
  match r with
  | Eps => k pos s cs
  | Lit c => one_char (lit_matches ic c) pos s cs k
  | CharSet l =>
      one_char (fun x => existsb (fun c => lit_matches ic c x) l) pos s cs k
  | AnyChar => one_char (fun x => negb (x =? 10)) pos s cs k
  | Space => one_char isspace pos s cs k
  | Seq a b => rmatch ic a pos s cs (fun p' s' cs' => rmatch ic b p' s' cs' k)
  | Alt a b =>
      match rmatch ic a pos s cs k with
      | Some m => Some m
      | None => rmatch ic b pos s cs k
      end
  | Star a => star_loop (rmatch ic a) k (length s) pos s cs
  | Group n a =>
      rmatch ic a pos s cs (fun p' s' cs' => k p' s' ((n, (pos, p')) :: cs'))
  | Bol => if (pos =? 0)%nat then k pos s cs else None
  | Eol =>
      match s with
      | [] => k pos s cs
      | [x] => if x =? 10 then k pos s cs else None
      | _ => None
      end
  end.

(** The match of [r] that starts at [pos], if any: its end and its groups. *)
Definition match_at (ic : bool) (r : regex) (pos : nat) (s : pystr)
  : option (nat * captures) :=
  rmatch ic r pos s [] (fun p _ cs => Some (p, cs)).

(** [re.sub(pattern, '', text)]: the non-overlapping matches, found left to
    right, are deleted. (With the empty replacement a match of length zero
    changes nothing: the scan moves on by one character.) [skip] counts the
    characters of the current match still to be dropped. *)
Fixpoint re_sub_delete_from (ic : bool) (r : regex) (pos : nat) (s : pystr)
    (skip : nat) : pystr :=
  match s with
  | [] => []
  | c :: s' =>
      match skip with
      | S n => re_sub_delete_from ic r (S pos) s' n
      | O =>
          match match_at ic r pos s with
          | Some (e, _) =>
              if (pos <? e)%nat
              then re_sub_delete_from ic r (S pos) s' (e - pos - 1)
              else c :: re_sub_delete_from ic r (S pos) s' 0
          | None => c :: re_sub_delete_from ic r (S pos) s' 0
          end
      end
  end.

Definition re_sub_delete (ic : bool) (r : regex) (text : pystr) : pystr :=
  re_sub_delete_from ic r 0 text 0.

(** [text[a:b]], and the text of group [n] in a match ([None] when the
    group took no part in it). *)
Definition slice (text : pystr) (a b : nat) : pystr :=
  take (b - a) (drop a text).

Definition group_text (text : pystr) (cs : captures) (n : nat)
  : option pystr :=
  match List.find (fun g => (fst g =? n)%nat) cs with
  | Some (_, (a, b)) => Some (slice text a b)
  | None => None
  end.

Fixpoint ngroups (r : regex) : nat :=
  match r with
  | Seq a b | Alt a b => Nat.max (ngroups a) (ngroups b)
  | Star a => ngroups a
  | Group n a => Nat.max n (ngroups a)
  | _ => 0%nat
  end.

(** Prepend a character to the piece a split is in the course of building. *)
Definition push_char (c : char) (pieces : list (option pystr))
  : list (option pystr) :=
  match pieces with
  | Some seg :: rest => Some (c :: seg) :: rest
  | _ => pieces
  end.

(** [re.split(pattern, text)] for a pattern whose matches are not empty
    (each alternative of the source's pattern consumes a character). The
    result lists the pieces of [text] between the matches and, after each
    piece but the last, the text of every capturing group of the match that
    ended it ([None] for a group that took no part). *)
Fixpoint re_split_from (ic : bool) (r : regex) (text : pystr) (pos : nat)
    (s : pystr) (skip : nat) : list (option pystr) :=
  match s with
  | [] => [Some []]
  | c :: s' =>
      match skip with
      | S n => re_split_from ic r text (S pos) s' n
      | O =>
          match match_at ic r pos s with
          | Some (e, cs) =>
              if (pos <? e)%nat
              then Some [] :: map (group_text text cs) (seq 1 (ngroups r))
                     ++ re_split_from ic r text (S pos) s' (e - pos - 1)
              else push_char c (re_split_from ic r text (S pos) s' 0)
          | None => push_char c (re_split_from ic r text (S pos) s' 0)
          end
      end
  end.

Definition re_split (ic : bool) (r : regex) (text : pystr)
  : list (option pystr) :=
  re_split_from ic r text 0 text 0.

(** [pieces[0]] of a split: always a string. *)
Definition piece0 (pieces : list (option pystr)) : pystr :=
  match pieces with
  | Some seg :: _ => seg
  | _ => []
  end.

(* ===================================================================== *)
(** * Text cleaners: [clean_translated_text] *)
(* ===================================================================== *)

(** The filler patterns of [clean_translated_text], in the source's order
    (translate.py, lines 52-58), and the pattern it splits on (line 64). *)
Definition pattern_article : regex :=      (* ^(a|an|the)\s+ *)
  Seq Bol (Seq (Group 1 (alts ["a"; "an"; "the"]%string)) (Plus Space)).

Definition pattern_copula : regex :=       (* \s+(is|are|was|were)\s+.*$ *)
  Seq (Plus Space)
    (Seq (Group 1 (alts ["is"; "are"; "was"; "were"]%string))
       (Seq (Plus Space) (Seq (Star AnyChar) Eol))).

Definition pattern_leading (w : string) : regex :=  (* ^w\s+(is|was)\s+ *)
  Seq Bol (Seq (lits w) (Seq (Plus Space)
    (Seq (Group 1 (alts ["is"; "was"]%string)) (Plus Space)))).

Definition patterns : list regex :=
  [ pattern_article; pattern_copula;
    pattern_leading "it"; pattern_leading "this"; pattern_leading "that" ].

Definition pattern_split : regex :=        (* [,;.]|\s+(is|are|and|or)\s+ *)
  Alt (CharSet [44; 59; 46])
      (Seq (Plus Space)
         (Seq (Group 1 (alts ["is"; "are"; "and"; "or"]%string)) (Plus Space))).

(** The split of [clean_translated_text] in the words of the
    specification: the text is cut at the first punctuation mark (comma,
    semicolon, period) or coordinating token ("is", "are", "and", "or",
    with whitespace on both sides), and the part before it is kept. *)
Definition is_punct (c : char) : bool :=
  (c =? ch ",") || (c =? ch ";") || (c =? ch ".").

Definition coordinating : list string := ["is"; "are"; "and"; "or"]%string.

Definition space_next (s : pystr) : bool :=
  match s with d :: _ => isspace d | [] => false end.

(** [s] starts at a split point. *)
Definition split_point (s : pystr) : bool :=
  match s with
  | [] => false
  | c :: s' =>
      is_punct c
      || (isspace c
          && let w := lstrip s' in
             existsb (fun tok => startswith w (str tok)
                                 && space_next (drop (String.length tok) w))
                     coordinating)
  end.

Fixpoint segment_before_split (s : pystr) : pystr :=
  match s with
  | [] => []
  | c :: s' => if split_point s then [] else c :: segment_before_split s'
  end.

Section Cleaners.

(** [str.lower] on a string with a character outside ASCII follows the
    Unicode character database, which is not part of the program: it is a
    parameter. On an ASCII string [str.lower] maps [A-Z] to [a-z]. *)
Variable unicode_lower : pystr -> pystr.

Definition isascii (s : pystr) : bool := forallb (fun c => c <? 128) s.

Definition lower (s : pystr) : pystr :=
  if isascii s then map ascii_lower s else unicode_lower s.

(** [clean_translated_text(text)] (translate.py, lines 44-66). The
    substitutions run with [re.IGNORECASE], the split without. *)
Definition clean_translated_text (text : pystr) : pystr :=
  if falsy text then []
  else
    let text := strip (lower text) in
    let text := fold_left (fun t p => re_sub_delete true p t) patterns text in
    strip (piece0 (re_split false pattern_split text)).

End Cleaners.

(* ===================================================================== *)
(** * JSON values, [json.dump] and [json.load] *)
(* ===================================================================== *)

(** What [json.loads] returns: [None], [bool], [int], [float], [str],
    [list] and [dict]. A [float] is carried as the literal it was read
    from: floating-point arithmetic is not modelled, and the program never
    computes with a number. *)
Inductive json : Type :=
| JNull
| JBool (b : bool)
| JInt (z : Z)
| JFloat (literal : pystr)
| JStr (s : pystr)
| JArr (items : list json)
| JObj (members : gmap pystr json).

Definition quote : char := 34.
Definition backslash : char := 92.

Module Json.

(** ** Encoding ([json.encoder], [ensure_ascii=False]) *)

Definition hex_digit (n : N) : char :=
  if n <? 10 then 48 + n else 87 + n.

(** One character of a string, as [py_encode_basestring] writes it: the
    quote, the backslash and the control characters are escaped, every
    other character stands for itself, ASCII or not. *)
Definition escape_char (c : char) : pystr :=
  if c =? quote then [backslash; quote]
  else if c =? backslash then [backslash; backslash]
  else if c =? 8 then [backslash; ch "b"]
  else if c =? 12 then [backslash; ch "f"]
  else if c =? 10 then [backslash; ch "n"]
  else if c =? 13 then [backslash; ch "r"]
  else if c =? 9 then [backslash; ch "t"]
  else if c <? 32 then
    [backslash; ch "u"; ch "0"; ch "0"; hex_digit (c / 16); hex_digit (c mod 16)]
  else [c].

Definition encode_basestring (s : pystr) : pystr :=
  quote :: flat_map escape_char s ++ [quote].

(** The chunks [JSONEncoder(ensure_ascii=False, indent=2).iterencode]
    yields for a [dict] of strings, which [json.dump] writes one by one. The
    members come in the order of [map_to_list]. *)
Definition newline_indent : pystr := [10; 32; 32].
Definition item_separator : pystr := ch "," :: newline_indent.
Definition key_separator : pystr := [ch ":"; 32].

Fixpoint member_chunks (first : bool) (items : list (pystr * pystr))
  : list pystr :=
  match items with
  | [] => []
  | (key, value) :: items' =>
      (if first then [] else [item_separator])
      ++ [encode_basestring key; key_separator; encode_basestring value]
      ++ member_chunks false items'
  end.

Definition iterencode (dct : gmap pystr pystr) : list pystr :=
  match map_to_list dct with
  | [] => [str "{}"]
  | items =>
      [[ch "{"]; newline_indent] ++ member_chunks true items ++ [[10]; [ch "}"]]
  end.

(** ** Decoding ([json.decoder], [json.scanner]) *)

Definition whitespace (c : char) : bool :=
  (c =? 32) || (c =? 9) || (c =? 10) || (c =? 13).

Fixpoint skip_ws (s : pystr) : pystr :=
  match s with
  | c :: s' => if whitespace c then skip_ws s' else s
  | [] => []
  end.

Definition hex_value (c : char) : option N :=
  if (48 <=? c) && (c <=? 57) then Some (c - 48)
  else if (97 <=? c) && (c <=? 102) then Some (c - 87)
  else if (65 <=? c) && (c <=? 70) then Some (c - 55)
  else None.

Definition decode_uXXXX (a b c d : char) : option N :=
  match hex_value a, hex_value b, hex_value c, hex_value d with
  | Some a, Some b, Some c, Some d => Some (((a * 16 + b) * 16 + c) * 16 + d)
  | _, _, _, _ => None
  end.

(** The character a one-letter escape stands for ([BACKSLASH]). *)
Definition unescape (e : char) : option char :=
  if e =? quote then Some quote
  else if e =? backslash then Some backslash
  else if e =? ch "/" then Some (ch "/")
  else if e =? ch "b" then Some 8
  else if e =? ch "f" then Some 12
  else if e =? ch "n" then Some 10
  else if e =? ch "r" then Some 13
  else if e =? ch "t" then Some 9
  else None.

Definition cons_char (c : char) (r : option (pystr * pystr))
  : option (pystr * pystr) :=
  match r with
  | Some (content, rest) => Some (c :: content, rest)
  | None => None
  end.

(** [scanstring] in strict mode, from the character after the opening
    quote: the string and what follows its closing quote. An escaped high
    surrogate followed by an escaped low surrogate is one character. *)
Fixpoint scanstring (s : pystr) : option (pystr * pystr) :=
  match s with
  | [] => None
  | c :: s1 =>
      if c =? quote then Some ([], s1)
      else if c <? 32 then None
      else if negb (c =? backslash) then cons_char c (scanstring s1)
      else
        match s1 with
        | [] => None
        | e :: s2 =>
            if negb (e =? ch "u") then
              match unescape e with
              | Some c' => cons_char c' (scanstring s2)
              | None => None
              end
            else
              match s2 with
              | a :: b :: c' :: d :: s3 =>
                  match decode_uXXXX a b c' d with
                  | None => None
                  | Some uni =>
                      let single := cons_char uni (scanstring s3) in
                      if (55296 <=? uni) && (uni <=? 56319) then
                        match s3 with
                        | b1 :: u1 :: a2 :: b2 :: c2 :: d2 :: s4 =>
                            if (b1 =? backslash) && (u1 =? ch "u") then
                              match decode_uXXXX a2 b2 c2 d2 with
                              | None => None
                              | Some uni2 =>
                                  if (56320 <=? uni2) && (uni2 <=? 57343)
                                  then cons_char
                                         (65536 + (uni - 55296) * 1024
                                          + (uni2 - 56320))
                                         (scanstring s4)
                                  else single
                              end
                            else single
                        | _ => single
                        end
                      else single
                  end
              | _ => None
              end
        end
  end.

(** Numbers ([NUMBER_RE]): an integer part, then a fraction and an exponent
    that are taken only when complete. With neither the number is an [int],
    otherwise a [float]. *)
Definition is_digit (c : char) : bool := (48 <=? c) && (c <=? 57).

Fixpoint span_digits (s : pystr) : pystr * pystr :=
  match s with
  | c :: s' =>
      if is_digit c then let '(ds, rest) := span_digits s' in (c :: ds, rest)
      else ([], s)
  | [] => ([], [])
  end.

Definition digits_value (ds : pystr) : Z :=
  fold_left (fun acc d => (acc * 10 + Z.of_N (d - 48))%Z) ds 0%Z.

Definition scan_fraction (s : pystr) : pystr * pystr :=
  match s with
  | p :: d :: s' =>
      if (p =? ch ".") && is_digit d
      then let '(ds, rest) := span_digits s' in (p :: d :: ds, rest)
      else ([], s)
  | _ => ([], s)
  end.

Definition scan_exponent (s : pystr) : pystr * pystr :=
  match s with
  | e :: s1 =>
      if (e =? ch "e") || (e =? ch "E") then
        match s1 with
        | sg :: s2 =>
            if is_digit sg
            then let '(ds, rest) := span_digits s2 in (e :: sg :: ds, rest)
            else if (sg =? ch "+") || (sg =? ch "-") then
              match s2 with
              | d :: s3 =>
                  if is_digit d
                  then let '(ds, rest) := span_digits s3 in
                       (e :: sg :: d :: ds, rest)
                  else ([], s)
              | [] => ([], s)
              end
            else ([], s)
        | [] => ([], s)
        end
      else ([], s)
  | [] => ([], s)
  end.

Definition scan_number (s : pystr) : option (json * pystr) :=
  let '(sign, s1) :=
    match s with
    | c :: s' => if c =? ch "-" then ([c], s') else ([], s)
    | [] => ([], s)
    end in
  match s1 with
  | d :: s2 =>
      if is_digit d then
        let '(int_part, s3) :=
          if d =? ch "0" then ([d], s2)
          else let '(ds, rest) := span_digits s2 in (d :: ds, rest) in
        let '(frac, s4) := scan_fraction s3 in
        let '(exp, s5) := scan_exponent s4 in
        match frac, exp with
        | [], [] =>
            let v := digits_value int_part in
            Some (JInt (match sign with [] => v | _ => - v end)%Z, s5)
        | _, _ => Some (JFloat (sign ++ int_part ++ frac ++ exp), s5)
        end
      else None
  | [] => None
  end.

Definition scan_literal (s : pystr) : option (json * pystr) :=
  let word (w : string) (v : json) :=
    if startswith s (str w) then Some (v, drop (String.length w) s)
    else None in
  match word "null"%string JNull, word "true"%string (JBool true),
        word "false"%string (JBool false) with
  | Some r, _, _ | None, Some r, _ | None, None, Some r => Some r
  | None, None, None =>
      match scan_number s with
      | Some r => Some r
      | None =>
          match word "NaN"%string (JFloat (str "NaN")),
                word "Infinity"%string (JFloat (str "Infinity")),
                word "-Infinity"%string (JFloat (str "-Infinity")) with
          | Some r, _, _ | None, Some r, _ | None, None, Some r => Some r
          | None, None, None => None
          end
      end
  end.

(** [scan_once]: the value that starts at the head of [s] and what follows
    it. [members] reads the members of an object from the character after
    the opening quote of a key ([dict(pairs)]: of two equal keys the later
    stays); [elements] reads the elements of an array. Each call the
    decoder makes costs one unit of [fuel]. *)
Fixpoint scan_once (fuel : nat) (s : pystr) : option (json * pystr) :=
  match fuel, s with
  | O, _ | _, [] => None
  | S fuel', c :: s' =>
      if c =? quote then
        match scanstring s' with
        | Some (content, rest) => Some (JStr content, rest)
        | None => None
        end
      else if c =? ch "{" then
        match skip_ws s' with
        | c1 :: s1 =>
            if c1 =? ch "}" then Some (JObj ∅, s1)
            else if c1 =? quote then members fuel' s1 ∅
            else None
        | [] => None
        end
      else if c =? ch "[" then
        match skip_ws s' with
        | c1 :: s1 =>
            if c1 =? ch "]" then Some (JArr [], s1)
            else elements fuel' (c1 :: s1) []
        | [] => None
        end
      else scan_literal s
  end
with members (fuel : nat) (s : pystr) (acc : gmap pystr json)
  : option (json * pystr) :=
  match fuel, scanstring s with
  | O, _ | _, None => None
  | S fuel', Some (key, s1) =>
      match skip_ws s1 with
      | c :: s2 =>
          if c =? ch ":" then
            match scan_once fuel' (skip_ws s2) with
            | None => None
            | Some (value, s3) =>
                let acc' := <[key := value]> acc in
                match skip_ws s3 with
                | c3 :: s4 =>
                    if c3 =? ch "}" then Some (JObj acc', s4)
                    else if c3 =? ch "," then
                      match skip_ws s4 with
                      | q :: s5 =>
                          if q =? quote then members fuel' s5 acc' else None
                      | [] => None
                      end
                    else None
                | [] => None
                end
            end
          else None
      | [] => None
      end
  end
with elements (fuel : nat) (s : pystr) (acc : list json)
  : option (json * pystr) :=
  match fuel with
  | O => None
  | S fuel' =>
      match scan_once fuel' s with
      | None => None
      | Some (value, s1) =>
          match skip_ws s1 with
          | c :: s2 =>
              if c =? ch "]" then Some (JArr (acc ++ [value]), s2)
              else if c =? ch "," then elements fuel' (skip_ws s2) (acc ++ [value])
              else None
          | [] => None
          end
      end
  end.

(** [JSONDecoder.decode]: one value between optional whitespace, and
    nothing after it; [None] stands for [JSONDecodeError]. *)
Definition decode (s : pystr) : option json :=
  match scan_once (2 * length s + 2) (skip_ws s) with
  | Some (v, rest) =>
      match skip_ws rest with
      | [] => Some v
      | _ => None
      end
  | None => None
  end.

End Json.

(* ===================================================================== *)
(** * Effects: exceptions, the cache, files, providers, the console *)
(* ===================================================================== *)

(** The exceptions of the model; all of them derive from [Exception].
    [ProviderError] stands for whatever [deep_translator] or the network
    stack below it raises, with [str(e)] as its message. [TypeMismatch]
    marks a value of another type than the source's annotations and input
    format expect (a record that is no object, a [Generated] that is no
    string, an [Answer] that is no list of strings): the model covers the
    input format of the program and stops there. *)
Inductive exn : Type :=
| ProviderError (message : pystr)
| UnicodeEncodeError
| JSONDecodeError
| FileNotFoundError
| TypeMismatch.

Definition exn_str (e : exn) : pystr :=
  match e with
  | ProviderError message => message
  | UnicodeEncodeError => str "surrogates not allowed"
  | JSONDecodeError => str "Expecting value"
  | FileNotFoundError => str "No such file or directory"
  | TypeMismatch => str "unexpected type"
  end.

(** How a call ends. *)
Inductive outcome (A : Type) : Type :=
| Returned (a : A)
| Raised (e : exn).
Arguments Returned {A} a.
Arguments Raised {A} e.

(** The two translation providers: [GoogleTranslator] (primary) and
    [MyMemoryTranslator] (fallback). *)
Inductive provider : Type := Google | MyMemory.

(** What the program does to the outside, in the order it does it. *)
Inductive event : Type :=
| EvCall (p : provider) (source text : pystr)   (* translator.translate(text) *)
| EvSleep                                       (* time.sleep(0.1) *)
| EvPrint (line : pystr)                        (* print(line) *)
| EvWrite (path : pystr) (data : gmap pystr json).
                      (* outfile.write(json.dumps(data, ...) + '\n') *)

(** Text in a file opened with [encoding='utf-8'] must be encodable: the
    strict UTF-8 codec refuses surrogate code points. *)
Definition is_surrogate (c : char) : bool := (55296 <=? c) && (c <=? 57343).

Definition utf8_encodable (s : pystr) : bool :=
  forallb (fun c => negb (is_surrogate c)) s.

(** Reading in text mode translates the line ends [\r\n] and [\r] to [\n]. *)
Fixpoint universal_newlines (s : pystr) : pystr :=
  match s with
  | [] => []
  | c :: s' =>
      if c =? 13 then
        10 :: match s' with
              | d :: s'' =>
                  if d =? 10 then universal_newlines s''
                  else universal_newlines s'
              | [] => []
              end
      else c :: universal_newlines s'
  end.

(** The lines a text file iterates over, each with its line end. *)
Fixpoint readlines (s : pystr) : list pystr :=
  match s with
  | [] => []
  | c :: s' =>
      if c =? 10 then [c] :: readlines s'
      else match readlines s' with
           | line :: lines => (c :: line) :: lines
           | [] => [[c]]
           end
  end.

(** Every string inside a JSON value, keys included. *)
Fixpoint json_strings (v : json) : list pystr :=
  match v with
  | JStr s => [s]
  | JArr items => concat (map json_strings items)
  | JObj members =>
      map_fold (fun key value acc => key :: json_strings value ++ acc) [] members
  | _ => []
  end.

(** Configuration (translate.py, lines 11-13). *)
Definition ROOT_DIR : pystr := str "data".
Definition LANGUAGES : list pystr := [str "assamese"].
Definition TRANSLATION_CACHE_FILE : pystr := str "translation_cache.json".

(** [get_language_code(language)] (translate.py, lines 26-33). *)
Definition lang_map : gmap pystr pystr :=
  list_to_map [ (str "assamese", str "as"); (str "bengali", str "bn");
                (str "spanish", str "es") ].

Definition get_language_code (language : pystr) : pystr :=
  default (str "auto") (lang_map !! language).

(** [os.path.join(a, b)] for two components, as [posixpath] computes it: an
    absolute [b] replaces [a], and the separator is added unless [a] is
    empty or ends with it. *)
Definition path_sep : char := ch "/".

Definition endswith_sep (s : pystr) : bool :=
  match last s with Some c => c =? path_sep | None => false end.

Definition path_join (a b : pystr) : pystr :=
  if startswith b [path_sep] then b
  else if falsy a || endswith_sep a then a ++ b
  else a ++ path_sep :: b.

Section Program.

(** ** Parameters: the Unicode tables and the translation providers *)

Variable unicode_lower : pystr -> pystr.

(** The providers are black boxes. [world] is whatever their answers depend
    on (the network, quotas, the time); [construct p source] is
    [GoogleTranslator(source=source, target='en')] or its [MyMemory]
    counterpart, which may raise without touching the network, and
    [translate p source text] is the network call [translator.translate]. *)
Variable world : Type.
Variable construct : provider -> pystr -> option exn.
Variable translate : provider -> pystr -> pystr -> world -> outcome pystr * world.

(** ** State and monad *)

Record state : Type := State {
  st_cache : gmap pystr pystr;   (* the dict every function shares *)
  st_files : gmap pystr pystr;   (* text files: path -> content *)
  st_world : world;
  st_trace : list event          (* oldest first *)
}.

Definition M (A : Type) : Type := state -> outcome A * state.

#[global] Instance M_ret : MRet M := fun A a st => (Returned a, st).

#[global] Instance M_bind : MBind M := fun A B f m st =>
  match m st with
  | (Returned a, st') => f a st'
  | (Raised e, st') => (Raised e, st')
  end.

Definition raise {A : Type} (e : exn) : M A := fun st => (Raised e, st).

(** [try: body / except: handler]: the handler runs in the state the body
    left behind. *)
Definition try_except {A : Type} (body : M A) (handler : exn -> M A) : M A :=
  fun st =>
    match body st with
    | (Returned a, st') => (Returned a, st')
    | (Raised e, st') => handler e st'
    end.

Definition emit (ev : event) : M unit := fun st =>
  (Returned tt, State (st_cache st) (st_files st) (st_world st) (st_trace st ++ [ev])).

Definition print (line : pystr) : M unit := emit (EvPrint line).
Definition sleep : M unit := emit EvSleep.

Fixpoint for_each {A : Type} (f : A -> M unit) (l : list A) : M unit :=
  match l with
  | [] => mret tt
  | x :: l' => f x;; for_each f l'
  end.

Definition get_cache : M (gmap pystr pystr) := fun st =>
  (Returned (st_cache st), st).

(** [cache[key] = value] *)
Definition cache_set (key value : pystr) : M unit := fun st =>
  (Returned tt,
   State (<[key := value]> (st_cache st)) (st_files st) (st_world st) (st_trace st)).

(** ** Text files *)

(** [os.path.exists(path)] *)
Definition path_exists (path : pystr) : M bool := fun st =>
  (Returned (bool_decide (is_Some (st_files st !! path))), st).

(** [open(path, 'r', encoding='utf-8')] and reading the file to its end. *)
Definition read_text (path : pystr) : M pystr := fun st =>
  match st_files st !! path with
  | Some content => (Returned (universal_newlines content), st)
  | None => (Raised FileNotFoundError, st)
  end.

Definition set_file (path content : pystr) : M unit := fun st =>
  (Returned tt,
   State (st_cache st) (<[path := content]> (st_files st)) (st_world st) (st_trace st)).

(** [open(path, 'w', encoding='utf-8')]: the file is created or emptied. *)
Definition open_w (path : pystr) : M unit := set_file path [].

(** [f.write(chunk)] on a file opened for writing: the chunk is appended,
    unless it cannot be encoded. *)
Definition file_write (path chunk : pystr) : M unit := fun st =>
  if utf8_encodable chunk
  then set_file path (default [] (st_files st !! path) ++ chunk) st
  else (Raised UnicodeEncodeError, st).

(** ** Cache store (translate.py, lines 16-24) *)

(** [load_cache()] *)
Definition load_cache : M json :=
  found ← path_exists TRANSLATION_CACHE_FILE;
  if (found : bool) then
    text ← read_text TRANSLATION_CACHE_FILE;
    match Json.decode text with
    | Some v => mret v
    | None => raise JSONDecodeError
    end
  else mret (JObj ∅).

(** [save_cache(cache)]: [json.dump] writes the chunks of the encoder one
    after the other. *)
Definition save_cache (cache : gmap pystr pystr) : M unit :=
  open_w TRANSLATION_CACHE_FILE;;
  for_each (file_write TRANSLATION_CACHE_FILE) (Json.iterencode cache).

(** ** Translator (translate.py, lines 68-101) *)

(** [Translator(source=source, target='en').translate(text)] *)
Definition provider_translate (p : provider) (source text : pystr) : M pystr :=
  fun st =>
    match construct p source with
    | Some e => (Raised e, st)
    | None =>
        let '(result, w) := translate p source text (st_world st) in
        (result,
         State (st_cache st) (st_files st) w
               (st_trace st ++ [EvCall p source text]))
    end.

Definition cache_key (source_lang text : pystr) : pystr :=
  source_lang ++ str ":" ++ text.

(** The line the degraded path prints:
    [f"Translation error for '{text}': {e}"]. *)
Definition error_line (text : pystr) (e : exn) : pystr :=
  str "Translation error for '" ++ text ++ str "': " ++ exn_str e.

(** [translate_text(text, source_lang, cache)]; [cache] is the shared dict
    of the state. In the inner [try], [translated] is bound anew only when
    the fallback call returns, and [clean_translated_text] cannot raise on a
    string: the bare [except] is reached with [translated] still holding the
    output of the primary provider. *)
Definition translate_text (text source_lang : pystr) : M pystr :=
  if falsy text then mret []
  else
    let cache_key := cache_key source_lang text in
    cache ← get_cache;
    match cache !! cache_key with
    | Some cached => mret cached
    | None =>
        try_except
          (translated ← provider_translate Google source_lang text;
           let cleaned := clean_translated_text unicode_lower translated in
           cleaned ←
             (if falsy cleaned then
                try_except
                  (translated ← provider_translate MyMemory source_lang text;
                   mret (clean_translated_text unicode_lower translated))
                  (fun _ => mret translated)
              else mret cleaned);
           cache_set cache_key cleaned;;
           sleep;;
           mret cleaned)
          (fun e => print (error_line text e);; mret text)
    end.

(** ** File processor (translate.py, lines 103-147) *)

Definition as_str (v : json) : M pystr :=
  match v with JStr s => mret s | _ => raise TypeMismatch end.

Definition as_list (v : json) : M (list json) :=
  match v with JArr items => mret items | _ => raise TypeMismatch end.

Definition as_dict (v : json) : M (gmap pystr json) :=
  match v with JObj members => mret members | _ => raise TypeMismatch end.

Definition truthy (s : pystr) : bool := negb (falsy s).

(** [data.get(key, default)] *)
Definition dict_get (data : gmap pystr json) (key : pystr) (d : json) : json :=
  default d (data !! key).

(** The line printed for each answer:
    [f"Original: {answer} | Translated: {translated}"]. *)
Definition answer_line (answer translated : pystr) : pystr :=
  str "Original: " ++ answer ++ str " | Translated: " ++ translated.

(** The loop over [data.get("Answer", [])] (lines 131-135):
    [translated_answers] grows by one translation per answer. *)
Fixpoint translate_answers (lang_code : pystr) (answers : list json)
    (translated_answers : list pystr) : M (list pystr) :=
  match answers with
  | [] => mret translated_answers
  | v :: answers' =>
      answer ← as_str v;
      translated ← translate_text answer lang_code;
      print (answer_line answer translated);;
      translate_answers lang_code answers' (translated_answers ++ [translated])
  end.

(** What the body of the loop of [process_file] does to one parsed record
    (lines 119-137): the dict that is then written out. *)
Definition process_record (lang_code : pystr) (data : gmap pystr json)
  : M (gmap pystr json) :=
  generated ← as_str (dict_get data (str "Generated") (JStr []));
  let cleaned_generated := clean_generated_answer generated in
  let data := <[str "CleanedAnswer" := JStr cleaned_generated]> data in
  data ←
    (if truthy cleaned_generated then
       translated_generated ← translate_text cleaned_generated lang_code;
       mret (<[str "TranslatedAnswer" := JStr translated_generated]> data)
     else mret (<[str "TranslatedAnswer" := JStr []]> data));
  answers ← as_list (dict_get data (str "Answer") (JArr []));
  translated_answers ← translate_answers lang_code answers [];
  mret (<[str "TranslatedAnswerList" := JArr (JStr <$> translated_answers)]> data).

(** [outfile.write(json.dumps(data, ensure_ascii=False) + '\n')]: the line
    is recorded as the record it serialises; it must be encodable. *)
Definition write_record (path : pystr) (data : gmap pystr json) : M unit :=
  if forallb utf8_encodable (json_strings (JObj data))
  then emit (EvWrite path data)
  else raise UnicodeEncodeError.

Definition decimal (n : nat) : pystr := str (pretty n).

(** [json.loads(line)], which the loop then uses as a dict (line 117). *)
Definition parse_record (line : pystr) : M (gmap pystr json) :=
  match Json.decode line with
  | Some v => as_dict v
  | None => raise JSONDecodeError
  end.

(** The periodic flush of the cache (lines 142-144). *)
Definition checkpoint (language : pystr) (processed_count : nat) : M unit :=
  if (processed_count mod 10 =? 0)%nat then
    print (str "Processed " ++ decimal processed_count
           ++ str " entries for " ++ language);;
    cache ← get_cache;
    save_cache cache
  else mret tt.

(** The loop over the lines of the input file (lines 116-144). *)
Fixpoint process_lines (output_path language lang_code : pystr)
    (lines : list pystr) (processed_count : nat) : M nat :=
  match lines with
  | [] => mret processed_count
  | line :: lines' =>
      data ← parse_record line;
      data ← process_record lang_code data;
      write_record output_path data;;
      let processed_count := S processed_count in
      checkpoint language processed_count;;
      process_lines output_path language lang_code lines' processed_count
  end.

(** [process_file(input_path, output_path, language, cache)]. The input
    file is opened first (which fails when it is missing), then the output
    file; the lines are read after that. The progress bar of [tqdm] is not
    modelled. *)
Definition process_file (input_path output_path language : pystr) : M unit :=
  let lang_code := get_language_code language in
  _ ← read_text input_path;
  open_w output_path;;
  text ← read_text input_path;
  processed_count ← process_lines output_path language lang_code (readlines text) 0;
  cache ← get_cache;
  save_cache cache;;
  print (str "Completed " ++ language ++ str ": " ++ decimal processed_count
         ++ str " entries").

(** ** Entry point (translate.py, lines 149-169) *)

(** The dict that [main] binds to [cache] is what [load_cache] returned.
    The cache is a dict from strings to strings (what [translate_text]
    stores and [save_cache] writes): a cache file that holds anything else
    is outside the model. *)
Definition json_str (v : json) : option pystr :=
  match v with JStr s => Some s | _ => None end.

Definition as_cache (v : json) : M (gmap pystr pystr) :=
  members ← as_dict v;
  let cache := omap json_str members in
  if bool_decide (dom cache = dom members) then mret cache
  else raise TypeMismatch.

(** [cache = ...]: the shared dict is bound. *)
Definition set_cache (cache : gmap pystr pystr) : M unit := fun st =>
  (Returned tt, State cache (st_files st) (st_world st) (st_trace st)).

(** The inner loop of [main] runs over [["generated"]]. *)
Definition file_types : list pystr := [str "generated"].

(** The body of the loops of [main] (lines 155-166). *)
Definition process_file_type (language file_type : pystr) : M unit :=
  let input_filename :=
    str "predictions-" ++ language ++ str "-" ++ file_type ++ str ".jsonl" in
  let output_filename :=
    str "predictions-" ++ language ++ str "-" ++ file_type
    ++ str "-translated.jsonl" in
  let input_path := path_join ROOT_DIR input_filename in
  let output_path := path_join ROOT_DIR output_filename in
  found ← path_exists input_path;
  if negb found then print (str "File not found: " ++ input_path)
  else
    print (10 :: str "Processing " ++ input_filename ++ str "...");;
    process_file input_path output_path language.

(** [main()] *)
Definition main : M unit :=
  loaded ← load_cache;
  cache ← as_cache loaded;
  set_cache cache;;
  for_each (fun language => for_each (process_file_type language) file_types)
    LANGUAGES;;
  print (10 :: str "Translation complete. Cache saved to "
         ++ TRANSLATION_CACHE_FILE);;
  cache ← get_cache;
  print (str "Total cached translations: " ++ decimal (size cache)).

End Program.

Arguments State {world} _ _ _ _.
Arguments st_cache {world} _.
Arguments st_files {world} _.
Arguments st_world {world} _.
Arguments st_trace {world} _.

(* ===================================================================== *)
(** * Notions used in the statements *)
(* ===================================================================== *)

(** Network calls in a list of events. *)
Definition is_call (ev : event) : bool :=
  match ev with EvCall _ _ _ => true | _ => false end.

Definition is_call_to (p : provider) (ev : event) : bool :=
  match ev, p with
  | EvCall Google _ _, Google | EvCall MyMemory _ _, MyMemory => true
  | _, _ => false
  end.

Definition network_calls (evs : list event) : nat :=
  length (List.filter is_call evs).

Definition calls_to (p : provider) (evs : list event) : nat :=
  length (List.filter (is_call_to p) evs).


(** The records written to the output file, in order. *)
Definition written (evs : list event) : list (gmap pystr json) :=
  omap (fun ev => match ev with EvWrite _ data => Some data | _ => None end) evs.

(** The events that happened between two states of one run. *)
Definition events_between {world : Type} (st st' : state world) : list event :=
  drop (length (st_trace st)) (st_trace st').

(** A mapping that [save_cache] can write: no key and no value holds a
    surrogate code point. *)
Definition encodable_cache (cache : gmap pystr pystr) : Prop :=
  forall key value, cache !! key = Some value ->
    utf8_encodable key = true /\ utf8_encodable value = true.


(** A character the cache file holds as it is: UTF-8 can encode it, and
    reading the file back does not translate it. *)
Definition plain (c : char) : bool := negb (is_surrogate c) && negb (c =? 13).

(** The text [json.dump] writes for the members of an object, from the
    character after the opening quote of the first key to the closing
    brace. *)
Fixpoint members_text (items : list (pystr * pystr)) : pystr :=
  match items with
  | [] => []
  | (key, value) :: items' =>
      flat_map Json.escape_char key
      ++ quote :: ch ":" :: 32 :: quote
      :: flat_map Json.escape_char value
      ++ quote
      :: match items' with
         | [] => [10; ch "}"]
         | _ => ch "," :: 10 :: 32 :: 32 :: quote :: members_text items'
         end
  end.

Definition insert_str (acc : gmap pystr json) (item : pystr * pystr)
  : gmap pystr json :=
  <[item.1 := JStr item.2]> acc.

(** A continuation of the matcher that ends a match no earlier than where
    it is called. *)
Definition ends_after (k : cont (nat * captures)) : Prop :=
  forall p s cs e cs', k p s cs = Some (e, cs') -> (p <= e)%nat.

(** What [pattern_split] still has to match after its first run of
    whitespace: a coordinating token and whitespace again. *)
Definition after_spaces : cont (nat * captures) := fun p s cs =>
  rmatch false (Group 1 (alts coordinating)) p s cs
    (fun p' s' cs' => rmatch false (Plus Space) p' s' cs'
                        (fun p'' _ cs'' => Some (p'', cs''))).

(** The chunks [json.dump] gets to write: those before the first one that
    cannot be encoded. *)
Fixpoint encodable_prefix (chunks : list pystr) : list pystr :=
  match chunks with
  | chunk :: chunks' =>
      if utf8_encodable chunk then chunk :: encodable_prefix chunks' else []
  | [] => []
  end.

Definition item_encodable (item : pystr * pystr) : bool :=
  utf8_encodable item.1 && utf8_encodable item.2.

(** What the decoder does once it has read a member of an object: the
    closing brace ends the object, a comma announces the next member. *)
Definition after_member (fuel : nat) (s : pystr) (acc : gmap pystr json)
  : option (json * pystr) :=
  match Json.skip_ws s with
  | c3 :: s4 =>
      if c3 =? ch "}" then Some (JObj acc, s4)
      else if c3 =? ch "," then
        match Json.skip_ws s4 with
        | q :: s5 => if q =? quote then Json.members fuel s5 acc else None
        | [] => None
        end
      else None
  | [] => None
  end.

(** The file [main] looks for and the file it writes. *)
Definition assamese_input : pystr :=
  str "data/predictions-assamese-generated.jsonl".
Definition assamese_output : pystr :=
  str "data/predictions-assamese-generated-translated.jsonl".

(** A relation between the state before and the state after that a
    computation keeps, whether it returns or raises. *)
Definition keeps {world A : Type} (R : relation (state world)) (m : M world A)
  : Prop :=
  forall st, R st (m st).2.

(** An event of a run that translates from [lang] and writes its records to
    [output_path]: a network call has [lang] as its source language and a
    text that is not empty, a record goes to [output_path]. *)
Definition event_ok (lang output_path : pystr) (ev : event) : Prop :=
  match ev with
  | EvCall _ source text => source = lang /\ text <> []
  | EvWrite path _ => path = output_path
  | _ => True
  end.

(** From [st] to [st'] no file changed but the output file and the cache
    file, and every event was one of such a run. *)
Definition files_and_events {world : Type} (lang output_path : pystr)
    (st st' : state world) : Prop :=
  (forall path, path <> output_path -> path <> TRANSLATION_CACHE_FILE ->
     st_files st' !! path = st_files st !! path)
  /\ exists evs, st_trace st' = st_trace st ++ evs
                 /\ Forall (event_ok lang output_path) evs.

(** Besides, every entry of the cache was kept. *)
Definition run_step {world : Type} (lang output_path : pystr)
    (st st' : state world) : Prop :=
  st_cache st ⊆ st_cache st' /\ files_and_events lang output_path st st'.

(** The texts [process_file] translates for a record: the cleaned
    [Generated] and the entries of [Answer]. *)
Definition record_texts (data : gmap pystr json) : list pystr :=
  match dict_get data (str "Generated") (JStr []) with
  | JStr generated => [clean_generated_answer generated]
  | _ => []
  end
  ++ match dict_get data (str "Answer") (JArr []) with
     | JArr items => omap json_str items
     | _ => []
     end.

(** [translate_text] needs no provider for [text]: it is empty or its key
    is in the cache. *)
Definition cached (cache : gmap pystr pystr) (lang text : pystr) : Prop :=
  text = [] \/ is_Some (cache !! cache_key lang text).

(** The cache holds every text of every record on [lines]. *)
Definition warm_cache (cache : gmap pystr pystr) (lang : pystr)
    (lines : list pystr) : Prop :=
  forall line data text,
    line ∈ lines -> Json.decode line = Some (JObj data) ->
    text ∈ record_texts data -> cached cache lang text.

(** An event that involves no provider: neither a network call nor the
    pause that follows one. *)
Definition offline (ev : event) : Prop :=
  match ev with EvCall _ _ _ | EvSleep => False | _ => True end.

(** Starting with the cache [cache], the step left the cache and the world
    of the providers as they were, and all its events were offline. *)
Definition served_from {world : Type} (cache : gmap pystr pystr)
    (st st' : state world) : Prop :=
  st_cache st = cache ->
  st_cache st' = cache /\ st_world st' = st_world st
  /\ exists evs, st_trace st' = st_trace st ++ evs /\ Forall offline evs.

(** A snapshot of the cache, taken since it was [c0], is on disk: the cache
    file holds what [save_cache] wrote of it. *)
Definition snapshot_on_disk {world : Type} (c0 : gmap pystr pystr)
    (st : state world) : Prop :=
  exists c, c0 ⊆ c /\ c ⊆ st_cache st
    /\ st_files st !! TRANSLATION_CACHE_FILE
       = Some (concat (encodable_prefix (Json.iterencode c))).

(** A step that touched no file and wrote no record, and kept every entry
    of the cache. *)
Definition in_memory {world : Type} (st st' : state world) : Prop :=
  st_cache st ⊆ st_cache st' /\ st_files st' = st_files st
  /\ exists evs, st_trace st' = st_trace st ++ evs /\ written evs = [].

Section Statements.

Context (unicode_lower : pystr -> pystr) (world : Type)
  (construct : provider -> pystr -> option exn)
  (translate : provider -> pystr -> pystr -> world -> outcome pystr * world).

#[local] Abbreviation translate_text' :=
  (translate_text unicode_lower world construct translate).
#[local] Abbreviation process_record' :=
  (process_record unicode_lower world construct translate).

(** The state after a translation was stored under [key]: the cache holds
    it, the world is [w], and [evs] happened. *)
Definition stored (st : state world) (key v : pystr) (w : world)
    (evs : list event) : state world :=
  State (<[key := v]> (st_cache st)) (st_files st) w (st_trace st ++ evs).

(** The state after a line was printed. *)
Definition logged (st : state world) (line : pystr) : state world :=
  State (st_cache st) (st_files st) (st_world st) (st_trace st ++ [EvPrint line]).

(** The state after the cache file was given the content [text]. *)
Definition with_cache_file (st : state world) (text : pystr) : state world :=
  State (st_cache st) (<[TRANSLATION_CACHE_FILE := text]> (st_files st))
        (st_world st) (st_trace st).

(** Idempotence as the specification words it, for two successive calls
    from [st]: at most one network call in all, the key cached after the
    first call, no network call in the second, and the same result. *)
Definition idempotent_at (text lang : pystr) (st : state world) : Prop :=
  let first := translate_text' text lang st in
  let second := translate_text' text lang first.2 in
  (network_calls (events_between st second.2) <= 1)%nat
  /\ is_Some (st_cache first.2 !! cache_key lang text)
  /\ network_calls (events_between first.2 second.2) = 0%nat
  /\ second.1 = first.1.

(** "The result used is the raw output of the fallback provider": the
    fallback call made after the primary one returned that output. *)
Definition fallback_raw_output_used (text lang : pystr) (st : state world)
  : Prop :=
  exists raw1 w1 raw2 w2,
    translate Google lang text (st_world st) = (Returned raw1, w1)
    /\ translate MyMemory lang text w1 = (Returned raw2, w2)
    /\ (translate_text' text lang st).1 = Returned raw2.

(** [translateds] are the translations of [answers], entry by entry: each
    is what [translate_text] returns for its answer in the state the
    previous answers left. *)
Inductive translations (lang : pystr)
  : state world -> list pystr -> list pystr -> state world -> Prop :=
| translations_nil st : translations lang st [] [] st
| translations_cons st answer translated st1 answers translateds st2 :
    translate_text' answer lang st = (Returned translated, st1) ->
    translations lang (logged st1 (answer_line answer translated))
                 answers translateds st2 ->
    translations lang st (answer :: answers) (translated :: translateds) st2.

(** [out] carries the translations of the answers of [data]. *)
Definition answers_translated (lang : pystr) (data out : gmap pystr json)
  : Prop :=
  exists answers translateds st1 st2,
    dict_get data (str "Answer") (JArr []) = JArr (JStr <$> answers)
    /\ out !! str "TranslatedAnswerList" = Some (JArr (JStr <$> translateds))
    /\ length translateds = length answers
    /\ translations lang st1 answers translateds st2.


(** [out] is what [process_record] returned for the record on [line]. *)
Definition record_processed (lang_code : pystr) (line : pystr)
    (out : gmap pystr json) : Prop :=
  exists data st1 st2,
    Json.decode line = Some (JObj data)
    /\ process_record' lang_code data st1 = (Returned out, st2).

(** The records written are those of the first lines of the input, in
    order. *)
Definition records_processed (lang_code : pystr) (lines : list pystr)
    (outs : list (gmap pystr json)) : Prop :=
  Forall2 (record_processed lang_code) (take (length outs) lines) outs.

(** The lines [process_file] iterates over: those of the input file once
    the output file has been opened. *)
Definition input_lines (input_path output_path : pystr) (st : state world)
  : list pystr :=
  match <[output_path := []]> (st_files st) !! input_path with
  | Some content => readlines (universal_newlines content)
  | None => []
  end.

(** A computation that extends the trace and writes no record. *)
Definition quiet {A : Type} (m : M world A) : Prop :=
  forall st, exists evs,
    st_trace (m st).2 = st_trace st ++ evs /\ written evs = [].

(** The paths through [translate_text]: what a call returned and the state
    it left, by the branch it took. *)
Inductive translate_text_path (text lang : pystr) (st : state world)
  : outcome pystr * state world -> Prop :=
| path_empty :
    text = [] -> translate_text_path text lang st (Returned [], st)
| path_hit v :
    text <> [] -> st_cache st !! cache_key lang text = Some v ->
    translate_text_path text lang st (Returned v, st)
| path_no_provider e :
    text <> [] -> st_cache st !! cache_key lang text = None ->
    construct Google lang = Some e ->
    translate_text_path text lang st
      (Returned text, logged st (error_line text e))
| path_degraded e w1 :
    text <> [] -> st_cache st !! cache_key lang text = None ->
    construct Google lang = None ->
    translate Google lang text (st_world st) = (Raised e, w1) ->
    translate_text_path text lang st
      (Returned text,
       State (st_cache st) (st_files st) w1
         (st_trace st ++ [EvCall Google lang text; EvPrint (error_line text e)]))
| path_primary raw1 w1 :
    text <> [] -> st_cache st !! cache_key lang text = None ->
    construct Google lang = None ->
    translate Google lang text (st_world st) = (Returned raw1, w1) ->
    clean_translated_text unicode_lower raw1 <> [] ->
    translate_text_path text lang st
      (Returned (clean_translated_text unicode_lower raw1),
       stored st (cache_key lang text) (clean_translated_text unicode_lower raw1)
         w1 [EvCall Google lang text; EvSleep])
| path_no_fallback raw1 w1 e :
    text <> [] -> st_cache st !! cache_key lang text = None ->
    construct Google lang = None ->
    translate Google lang text (st_world st) = (Returned raw1, w1) ->
    clean_translated_text unicode_lower raw1 = [] ->
    construct MyMemory lang = Some e ->
    translate_text_path text lang st
      (Returned raw1,
       stored st (cache_key lang text) raw1 w1
         [EvCall Google lang text; EvSleep])
| path_fallback raw1 w1 v w2 :
    text <> [] -> st_cache st !! cache_key lang text = None ->
    construct Google lang = None ->
    translate Google lang text (st_world st) = (Returned raw1, w1) ->
    clean_translated_text unicode_lower raw1 = [] ->
    construct MyMemory lang = None ->
    (exists raw2, translate MyMemory lang text w1 = (Returned raw2, w2)
                  /\ v = clean_translated_text unicode_lower raw2)
    \/ (exists e, translate MyMemory lang text w1 = (Raised e, w2) /\ v = raw1) ->
    translate_text_path text lang st
      (Returned v,
       stored st (cache_key lang text) v w2
         [EvCall Google lang text; EvCall MyMemory lang text; EvSleep]).

End Statements.

(** ** Scripted providers, for concrete runs *)

(** The world is the list of the outcomes still to come: each network call
    takes the next one, whichever provider it goes to. Construction never
    fails. *)
Definition script : Type := list (outcome pystr).

Definition scripted (p : provider) (source text : pystr) (w : script)
  : outcome pystr * script :=
  match w with
  | r :: w' => (r, w')
  | [] => (Raised (ProviderError (str "connection refused")), [])
  end.

Definition constructs (p : provider) (source : pystr) : option exn := None.

(** [str.lower] restricted to the ASCII letters, for concrete runs. *)
Definition lower_ascii_only (s : pystr) : pystr := map ascii_lower s.

Definition run_translate_text (text source_lang : pystr) (st : state script)
  : outcome pystr * state script :=
  translate_text lower_ascii_only script constructs scripted text source_lang st.

(** A run that starts with an empty cache, no file and nothing printed. *)
Definition fresh (answers : script) : state script := State ∅ ∅ answers [].

(** A JSON string literal with its quotes, for concrete input lines. *)
Definition quoted (s : string) : pystr := quote :: str s ++ [quote].

(** A translator stub that returns the text it is given. *)
Definition identity_stub (p : provider) (source text : pystr) (w : unit)
  : outcome pystr * unit :=
  (Returned text, w).

(** The record and the input line of the end-to-end example of the
    specification: [{"Generated": "cat, feline", "Answer": ["cat"]}]. *)
Definition sample_record : gmap pystr json :=
  <[str "Generated" := JStr (str "cat, feline")]>
    (<[str "Answer" := JArr [JStr (str "cat")]]> ∅).

Definition sample_line : pystr :=
  str "{" ++ quoted "Generated" ++ str ": " ++ quoted "cat, feline" ++ str ", "
  ++ quoted "Answer" ++ str ": [" ++ quoted "cat" ++ str "]}" ++ [10].

Definition sample_files : gmap pystr pystr :=
  {[ str "data/predictions-assamese-generated.jsonl" := sample_line ]}.


(** A cache with a lone surrogate in a key. *)
Definition surrogate_cache : gmap pystr pystr := {[ [55296] := str "x" ]}.

(** A cache with Assamese text. *)
Definition assamese_cache : gmap pystr pystr :=
  {[ str "as:" ++ [2453; 2494; 2478] := str "work" ]}.

(** What [process_file] writes for [sample_record]. *)
Definition sample_output : gmap pystr json :=
  <[str "TranslatedAnswerList" := JArr [JStr (str "cat")]]>
    (<[str "TranslatedAnswer" := JStr (str "cat")]>
       (<[str "CleanedAnswer" := JStr (str "cat")]> sample_record)).

(** A run on the sample file with an empty cache. *)
Definition sample_state : state unit := State ∅ sample_files tt [].

(** The sample file with a blank line after its record. *)
Definition blank_line_state : state unit :=
  State ∅ {[ assamese_input := sample_line ++ [10] ]} tt [].

(** The sample file with its one text in the cache, and providers that are
    out of reach. *)
Definition warm_state : state script :=
  State {[ str "as:cat" := str "feline" ]} sample_files [] [].

(** Ten records and a blank line after them. *)
Definition ten_records_state : state unit :=
  State ∅ {[ assamese_input := concat (replicate 10 sample_line) ++ [10] ]} tt [].

(* ===================================================================== *)
(** * Properties of the text cleaners *)
(* ===================================================================== *)

Lemma lstrip_spec (s : pystr) :
  exists l, s = l ++ lstrip s /\ forallb isspace l = true
    /\ (forall c, head (lstrip s) = Some c -> isspace c = false).
Proof.
  induction s as [|c s IH]; simpl.
  - exists []. split; [reflexivity|]. split; [reflexivity|]. discriminate.
  - destruct (isspace c) eqn:Hc.
    + destruct IH as (l & Hs & Hl & Hh).
      exists (c :: l). simpl. rewrite Hc, Hl. split; [congruence | auto].
    + exists []. simpl. split; [reflexivity|]. split; [reflexivity|].
      intros c' [= <-]. exact Hc.
Qed.

Lemma lstrip_length (s : pystr) : (length (lstrip s) <= length s)%nat.
Proof.
  induction s as [|x s IHs]; simpl; [lia|].
  destruct (isspace x); simpl; lia.
Qed.

Lemma forallb_rev {A} (f : A -> bool) (l : list A) :
  forallb f (rev l) = forallb f l.
Proof.
  induction l as [|x l IH]; simpl; [reflexivity|].
  rewrite forallb_app, IH. simpl. rewrite andb_true_r. apply andb_comm.
Qed.

Lemma head_rev {A} (l : list A) : head (rev l) = last l.
Proof.
  induction l as [|x l _] using rev_ind; [reflexivity|].
  by rewrite rev_unit, last_snoc.
Qed.

(** [strip] removes a run of whitespace at each end, and all of it. *)
Lemma strip_trimmed (s : pystr) : trimmed_of s (strip s).
Proof.
  unfold strip, rstrip.
  destruct (lstrip_spec s) as (l & Hs & Hl & Hh).
  destruct (lstrip_spec (rev (lstrip s))) as (r & Hr & Hrs & Hrh).
  exists l, (rev r). split; [|split; [exact Hl|split; [by rewrite forallb_rev|]]].
  - rewrite Hs at 1. f_equal.
    rewrite <- (rev_involutive (lstrip s)) at 1. rewrite Hr at 1.
    by rewrite rev_app_distr.
  - split.
    + intros c Hc. apply Hh.
      rewrite <- (rev_involutive (lstrip s)). rewrite Hr, rev_app_distr.
      destruct (rev (lstrip (rev (lstrip s)))); [discriminate|exact Hc].
    + intros c Hc. apply Hrh.
      by rewrite <- head_rev in Hc; rewrite rev_involutive in Hc.
Qed.

Lemma contains_comma (s : pystr) :
  contains [comma] s = bool_decide (comma ∈ s).
Proof.
  induction s as [|c s IH]; simpl; [reflexivity|].
  rewrite IH, andb_true_r.
  destruct (N.eqb_spec c comma) as [->|Hne]; simpl; [reflexivity|].
  apply bool_decide_ext. rewrite elem_of_cons.
  split; [by right | by intros [?|?]].
Qed.

Lemma split_no_sep (sep : char) (s : pystr) : sep ∉ s -> split sep s = [s].
Proof.
  induction s as [|c s IH]; simpl; [reflexivity|].
  intros Hn. apply not_elem_of_cons in Hn as [Hc Hs].
  destruct (N.eqb_spec c sep) as [->|_]; [done|]. by rewrite IH.
Qed.

Lemma split_first (sep : char) (p rest : pystr) :
  sep ∉ p -> split sep (p ++ sep :: rest) = p :: split sep rest.
Proof.
  induction p as [|c p IH]; simpl; intros Hn.
  - by rewrite N.eqb_refl.
  - apply not_elem_of_cons in Hn as [Hc Hp].
    destruct (N.eqb_spec c sep) as [->|_]; [done|]. by rewrite IH.
Qed.

(** C7. For every string [s], [clean_generated_answer s] is the part of
    [s] before its first comma with the surrounding whitespace trimmed;
    when [s] has no comma it is [s] trimmed; and the empty string is cleaned
    to the empty string. *)
Theorem clean_generated_answer_spec :
  clean_generated_answer [] = []
  /\ (forall p rest : pystr, comma ∉ p ->
        clean_generated_answer (p ++ comma :: rest) = strip p
        /\ trimmed_of p (clean_generated_answer (p ++ comma :: rest)))
  /\ (forall s : pystr, comma ∉ s ->
        clean_generated_answer s = strip s
        /\ trimmed_of s (clean_generated_answer s)).
Proof.
  split; [reflexivity|]. split.
  - intros p rest Hp.
    assert (clean_generated_answer (p ++ comma :: rest) = strip p) as ->.
    { unfold clean_generated_answer. rewrite contains_comma.
      rewrite bool_decide_true by (apply elem_of_app; right; left).
      rewrite split_first by done. simpl. by destruct p. }
    split; [reflexivity | apply strip_trimmed].
  - intros s Hs.
    assert (clean_generated_answer s = strip s) as ->.
    { unfold clean_generated_answer. rewrite contains_comma.
      rewrite bool_decide_false by done. by destruct s. }
    split; [reflexivity | apply strip_trimmed].
Qed.

(** The examples of the specification: [" cat , animal"] (with blanks
    around the word) and ["dog"]. *)
Lemma clean_generated_answer_witness :
  ((comma ∉ str " cat ")
   /\ clean_generated_answer (str " cat " ++ comma :: str " animal") = str "cat")
  /\ ((comma ∉ str "dog") /\ clean_generated_answer (str "dog") = str "dog").
Proof.
  assert (comma ∉ str " cat ") as Hcat
    by (apply (bool_decide_unpack _); vm_compute; exact I).
  assert (comma ∉ str "dog") as Hdog
    by (apply (bool_decide_unpack _); vm_compute; exact I).
  split; (split; [assumption|]).
  - rewrite (proj1 (proj1 (proj2 clean_generated_answer_spec) _ _ Hcat)).
    vm_compute. reflexivity.
  - rewrite (proj1 (proj2 (proj2 clean_generated_answer_spec) _ Hdog)).
    vm_compute. reflexivity.
Defined.

(** ** The matcher on the split pattern *)

Lemma one_char_ends_after ok k :
  ends_after k ->
  forall p s cs e cs', one_char ok p s cs k = Some (e, cs') -> (p < e)%nat.
Proof.
  intros Hk p [|x s] cs e cs'; simpl; [discriminate|].
  destruct (ok x); [|discriminate]. intros H%Hk. lia.
Qed.

Lemma star_loop_ends_after step k :
  (forall k', ends_after k' -> ends_after (fun p s cs => step p s cs k')) ->
  ends_after k ->
  forall fuel, ends_after (star_loop step k fuel).
Proof.
  intros Hstep Hk fuel. induction fuel as [|fuel IH]; simpl; [exact Hk|].
  intros p s cs e cs'.
  destruct (step p s cs _) as [m|] eqn:Hm.
  - intros [= ->]. revert Hm. apply (Hstep _).
    intros p' s' cs1 e1 cs1'. destruct (p <? p')%nat; [apply IH|discriminate].
  - apply Hk.
Qed.

(** A match ends no earlier than it starts, whatever the pattern. *)
Lemma rmatch_ends_after ic r : forall k,
  ends_after k -> ends_after (fun p s cs => rmatch ic r p s cs k).
Proof.
  induction r as [|c|l| | |a IHa b IHb|a IHa b IHb|a IHa|n a IHa| |];
    intros k Hk p s cs e cs'; simpl.
  - apply Hk.
  - intros H%one_char_ends_after; [lia|done].
  - intros H%one_char_ends_after; [lia|done].
  - intros H%one_char_ends_after; [lia|done].
  - intros H%one_char_ends_after; [lia|done].
  - apply (IHa _ (IHb _ Hk)).
  - destruct (rmatch ic a p s cs k) as [m|] eqn:Hm.
    + intros [= ->]. by apply (IHa _ Hk) in Hm.
    + apply (IHb _ Hk).
  - apply star_loop_ends_after; [exact IHa | exact Hk].
  - apply (IHa (fun p' s' cs' => k p' s' ((n, (p, p')) :: cs'))).
    intros p' s' cs1 e1 cs1'. apply Hk.
  - destruct (p =? 0)%nat; [apply Hk | discriminate].
  - destruct s as [|x [|y s]]; [apply Hk| |discriminate].
    destruct (x =? 10); [apply Hk|discriminate].
Qed.

Lemma final_ends_after : ends_after (fun p _ cs => Some (p, cs)).
Proof. intros p s cs e cs' [= <- _]. lia. Qed.

(** A match of the split pattern is never empty. *)
Lemma match_split_progress pos s e cs :
  match_at false pattern_split pos s = Some (e, cs) -> (pos < e)%nat.
Proof.
  unfold match_at, pattern_split. cbn [rmatch Plus].
  destruct (one_char _ pos s [] _) as [m|] eqn:Hm.
  - intros [= ->]. revert Hm. apply one_char_ends_after, final_ends_after.
  - apply one_char_ends_after.
    apply (rmatch_ends_after false
             (Seq (Star Space) (Seq (Group 1 (alts coordinating)) (Plus Space)))).
    apply final_ends_after.
Qed.

Lemma star_loop_total {R}
    (step : nat -> pystr -> captures -> cont R -> option R) k fuel pos s cs :
  (forall p s cs, is_Some (k p s cs)) -> is_Some (star_loop step k fuel pos s cs).
Proof.
  intros Hk. destruct fuel as [|fuel]; simpl; [apply Hk|].
  destruct (step _ _ _ _); [eauto | apply Hk].
Qed.

(** A run of whitespace under a greedy star whose continuation cannot start
    on whitespace: the star takes the whole run. *)
Lemma star_space_greedy {R} ic (k : cont R) :
  (forall p c s cs, isspace c = true -> k p (c :: s) cs = None) ->
  forall fuel s pos cs, (length s <= fuel)%nat ->
  star_loop (rmatch ic Space) k fuel pos s cs
  = k (pos + (length s - length (lstrip s)))%nat (lstrip s) cs.
Proof.
  intros Hk fuel. induction fuel as [|fuel IH]; intros s pos cs Hlen.
  - destruct s; [|simpl in Hlen; lia]. simpl. by rewrite Nat.add_0_r.
  - destruct s as [|c s]; cbn [star_loop rmatch one_char lstrip].
    + simpl. by rewrite Nat.add_0_r.
    + destruct (isspace c) eqn:Hc.
      * rewrite (proj2 (Nat.ltb_lt pos (S pos))) by lia.
        rewrite IH by (simpl in Hlen; lia).
        pose proof (lstrip_length s) as Hl.
        replace (pos + (length (c :: s) - length (lstrip s)))%nat
          with (S pos + (length s - length (lstrip s)))%nat by (simpl; lia).
        destruct (k _ (lstrip s) cs) eqn:Hk'; [reflexivity|].
        apply Hk, Hc.
      * by rewrite Nat.sub_diag, Nat.add_0_r.
Qed.

(** A literal word matches when the subject starts with it. *)
Lemma rmatch_lits {R} (tok : pystr) (k : cont R) p w cs :
  rmatch false (fold_right (fun c r => Seq (Lit c) r) Eps tok) p w cs k
  = if startswith w tok then k (p + length tok)%nat (drop (length tok) w) cs
    else None.
Proof.
  revert p w. induction tok as [|c tok IH]; intros p w; simpl.
  - f_equal. lia.
  - destruct w as [|x w]; simpl; [reflexivity|].
    destruct (x =? c); simpl; [|reflexivity].
    rewrite IH. destruct (startswith w tok); [|reflexivity]. f_equal. lia.
Qed.

(** An alternation of words matches when one of them does and the rest of
    the pattern matches after it. *)
Lemma rmatch_alts {R} (toks : list string) (k : cont R) p w cs :
  toks <> [] ->
  is_Some (rmatch false (alts toks) p w cs k)
  <-> exists tok, tok ∈ toks /\ startswith w (str tok) = true
        /\ is_Some (k (p + length (str tok))%nat (drop (length (str tok)) w) cs).
Proof.
  induction toks as [|t toks IH]; [done|]. intros _.
  destruct toks as [|t' toks].
  - simpl. unfold lits. rewrite rmatch_lits. split.
    + destruct (startswith w (str t)) eqn:Hs; [|by intros [? ?]].
      intros H. exists t. split; [left|done].
    + intros (tok & ->%list_elem_of_singleton & -> & H). exact H.
  - change (alts (t :: t' :: toks)) with (Alt (lits t) (alts (t' :: toks))).
    cbn [rmatch]. unfold lits at 1. rewrite rmatch_lits. split.
    + destruct (startswith w (str t)) eqn:Hs.
      * destruct (k _ (drop (length (str t)) w) cs) eqn:Hk.
        -- intros _. exists t. rewrite Hs, Hk. split; [left|eauto].
        -- intros (tok & Hin & H)%IH; [|done]. exists tok. split; [by right|done].
      * intros (tok & Hin & H)%IH; [|done]. exists tok. split; [by right|done].
    + intros (tok & Hin & Hs & Hk). apply elem_of_cons in Hin as [->|Hin].
      * rewrite Hs. destruct Hk as [m ->]. eauto.
      * assert (is_Some (rmatch false (alts (t' :: toks)) p w cs k)) as Hrec.
        { apply IH; [done|]. eauto. }
        destruct (startswith w (str t)); [|done].
        destruct (k _ (drop (length (str t)) w) cs); eauto.
Qed.

Lemma str_length (s : string) : length (str s) = String.length s.
Proof.
  unfold str. rewrite length_map. induction s; simpl; congruence.
Qed.

Lemma one_char_total ok p s cs (k : cont (nat * captures)) :
  (forall p s cs, is_Some (k p s cs)) ->
  is_Some (one_char ok p s cs k)
  <-> match s with d :: _ => ok d | [] => false end = true.
Proof.
  intros Hk. destruct s as [|d s]; simpl.
  - split; [by intros [? ?] | done].
  - destruct (ok d); [|split; [by intros [? ?] | done]].
    split; [done | intros _; apply Hk].
Qed.

Lemma after_spaces_iff p w cs :
  is_Some (after_spaces p w cs)
  <-> existsb (fun tok => startswith w (str tok)
                          && space_next (drop (String.length tok) w))
        coordinating = true.
Proof.
  unfold after_spaces. cbn [rmatch]. rewrite rmatch_alts by done.
  rewrite existsb_exists. split.
  - intros (tok & Hin & Hs & Hk). exists tok.
    split; [by apply list_elem_of_In|]. rewrite Hs. simpl.
    rewrite <- str_length. revert Hk. unfold Plus. cbn [rmatch].
    intros Hk%one_char_total; [exact Hk|].
    intros. apply star_loop_total. eauto.
  - intros (tok & Hin%list_elem_of_In & [Hs Hk]%andb_true_iff). exists tok.
    split; [done|]. split; [done|]. unfold Plus. cbn [rmatch].
    apply one_char_total; [intros; apply star_loop_total; eauto|].
    by rewrite str_length.
Qed.

Lemma after_spaces_not_space p c s cs :
  isspace c = true -> after_spaces p (c :: s) cs = None.
Proof.
  intros Hc. destruct (after_spaces p (c :: s) cs) as [m|] eqn:Hm; [|done].
  assert (is_Some (after_spaces p (c :: s) cs)) as H by eauto.
  apply after_spaces_iff, existsb_exists in H
    as (tok & Hin & [Hs _]%andb_true_iff).
  exfalso. unfold coordinating in Hin. simpl in Hin.
  destruct Hin as [<-|[<-|[<-|[<-|[]]]]]; simpl in Hs;
    apply andb_true_iff in Hs as [->%N.eqb_eq _]; discriminate.
Qed.

(** The split pattern matches at the head of [s] exactly when [s] starts at
    a split point. *)
Lemma match_split_iff pos s :
  is_Some (match_at false pattern_split pos s) <-> split_point s = true.
Proof.
  unfold match_at, pattern_split, Plus. cbn [rmatch].
  destruct s as [|c s]; [simpl; split; [by intros [? ?] | done]|].
  cbn [one_char split_point].
  replace (existsb (fun c0 => lit_matches false c0 c) [44; 59; 46])
    with (is_punct c)
    by (unfold is_punct; simpl; by rewrite orb_false_r, orb_assoc).
  destruct (is_punct c); simpl; [split; eauto|].
  destruct (isspace c); simpl; [|split; [by intros [? ?] | done]].
  rewrite (star_space_greedy false after_spaces after_spaces_not_space) by done.
  apply after_spaces_iff.
Qed.

Lemma re_split_from_head ic r text s : forall pos skip,
  exists seg rest, re_split_from ic r text pos s skip = Some seg :: rest.
Proof.
  induction s as [|c s IH]; intros pos skip; simpl; [eauto|].
  destruct skip as [|n]; [|apply IH].
  destruct (IH (S pos) 0%nat) as (seg & rest & ->).
  destruct (match_at ic r pos (c :: s)) as [[e cs]|]; [|simpl; eauto].
  destruct (pos <? e)%nat; simpl; eauto.
Qed.

(** [re.split(...)[0]] is the text before the first split point. *)
Lemma piece0_split text s : forall pos,
  piece0 (re_split_from false pattern_split text pos s 0)
  = segment_before_split s.
Proof.
  induction s as [|c s IH]; intros pos; [reflexivity|].
  cbn [re_split_from segment_before_split].
  pose proof (match_split_iff pos (c :: s)) as Hiff.
  destruct (match_at false pattern_split pos (c :: s)) as [[e cs]|] eqn:Hm.
  - rewrite (proj2 (Nat.ltb_lt pos e)) by (eapply match_split_progress, Hm).
    rewrite (proj1 Hiff) by eauto. reflexivity.
  - destruct (split_point (c :: s)).
    + destruct (proj2 Hiff eq_refl) as [? [=]].
    + destruct (re_split_from_head false pattern_split text s (S pos) 0)
        as (seg & rest & Hr).
      rewrite <- IH with (pos := S pos). by rewrite Hr.
Qed.

(** C8. [clean_translated_text] maps the empty string to the empty string
    and "The cat is an animal" to "cat" (the leading article and the
    trailing copular clause are removed); on a non-empty text it lower-cases
    and trims, applies the substitutions in order, and keeps the trimmed
    segment before the first punctuation mark or coordinating token. *)
Theorem clean_translated_text_spec (unicode_lower : pystr -> pystr) :
  clean_translated_text unicode_lower [] = []
  /\ clean_translated_text unicode_lower (str "The cat is an animal") = str "cat"
  /\ (re_sub_delete true pattern_article (str "the cat is an animal")
      = str "cat is an animal"
      /\ re_sub_delete true pattern_copula (str "cat is an animal") = str "cat")
  /\ forall text : pystr, text <> [] ->
       let lowered := strip (lower unicode_lower text) in
       let substituted :=
         fold_left (fun t p => re_sub_delete true p t) patterns lowered in
       clean_translated_text unicode_lower text
       = strip (segment_before_split substituted)
       /\ trimmed_of (segment_before_split substituted)
            (clean_translated_text unicode_lower text).
Proof.
  split; [reflexivity|]. split; [vm_compute; reflexivity|].
  split; [split; vm_compute; reflexivity|].
  intros text Ht lowered substituted.
  assert (clean_translated_text unicode_lower text
          = strip (segment_before_split substituted)) as ->.
  { unfold clean_translated_text. destruct text; [done|]. cbn [falsy].
    fold lowered. fold substituted. unfold re_split. by rewrite piece0_split. }
  split; [reflexivity | apply strip_trimmed].
Qed.

(** The text "  It was  a dog, big  ": lower-cased and trimmed, cut by the
    copula pattern to "it", with no split point left. *)
Lemma clean_translated_text_witness :
  str "  It was  a dog, big  " <> []
  /\ clean_translated_text lower_ascii_only (str "  It was  a dog, big  ")
     = str "it".
Proof.
  assert (str "  It was  a dog, big  " <> []) as Ht by discriminate.
  split; [exact Ht|].
  rewrite (proj1 (proj2 (proj2 (proj2
             (clean_translated_text_spec lower_ascii_only))) _ Ht)).
  vm_compute. reflexivity.
Defined.

(* ===================================================================== *)
(** * Properties of the cache store *)
(* ===================================================================== *)

Lemma below_32_cases (c : N) : c < 32 -> c ∈ (N.of_nat <$> seq 0 32).
Proof.
  intros Hc. apply list_elem_of_fmap. exists (N.to_nat c).
  split; [by rewrite N2Nat.id|]. apply elem_of_seq. lia.
Qed.

Ltac each_below_32 H :=
  apply below_32_cases in H; cbn [fmap list_fmap seq] in H;
  repeat (apply elem_of_cons in H as [->|H]); [..|by apply elem_of_nil in H].

(** The escape [c] is written as stands for [c] again. *)
Lemma scanstring_escape_char c tail :
  Json.scanstring (Json.escape_char c ++ tail)
  = Json.cons_char c (Json.scanstring tail).
Proof.
  destruct (decide (c < 32)) as [Hc|Hc].
  - each_below_32 Hc; reflexivity.
  - unfold Json.escape_char.
    destruct (N.eqb_spec c quote) as [->|Hq]; [reflexivity|].
    destruct (N.eqb_spec c backslash) as [->|Hb]; [reflexivity|].
    destruct (N.eqb_spec c 8) as [->|_]; [lia|].
    destruct (N.eqb_spec c 12) as [->|_]; [lia|].
    destruct (N.eqb_spec c 10) as [->|_]; [lia|].
    destruct (N.eqb_spec c 13) as [->|_]; [lia|].
    destruct (N.eqb_spec c 9) as [->|_]; [lia|].
    destruct (N.ltb_spec c 32) as [|_]; [lia|].
    cbn [app Json.scanstring].
    destruct (N.eqb_spec c quote) as [|_]; [done|].
    destruct (N.ltb_spec c 32) as [|_]; [lia|].
    destruct (N.eqb_spec c backslash) as [|_]; [done|]. reflexivity.
Qed.

Lemma scanstring_escape s tail :
  Json.scanstring (flat_map Json.escape_char s ++ quote :: tail) = Some (s, tail).
Proof.
  induction s as [|c s IH]; [reflexivity|].
  cbn [flat_map]. rewrite <- app_assoc, scanstring_escape_char, IH. reflexivity.
Qed.

Lemma escape_char_plain c :
  is_surrogate c = false -> forallb plain (Json.escape_char c) = true.
Proof.
  intros Hs. destruct (decide (c < 32)) as [Hc|Hc].
  - clear Hs. each_below_32 Hc; reflexivity.
  - unfold Json.escape_char.
    destruct (N.eqb_spec c quote) as [->|Hq]; [reflexivity|].
    destruct (N.eqb_spec c backslash) as [->|Hb]; [reflexivity|].
    destruct (N.eqb_spec c 8) as [->|_]; [lia|].
    destruct (N.eqb_spec c 12) as [->|_]; [lia|].
    destruct (N.eqb_spec c 10) as [->|_]; [lia|].
    destruct (N.eqb_spec c 13) as [->|_]; [lia|].
    destruct (N.eqb_spec c 9) as [->|_]; [lia|].
    destruct (N.ltb_spec c 32) as [|_]; [lia|].
    simpl. unfold plain. rewrite Hs. simpl.
    destruct (N.eqb_spec c 13) as [->|_]; [lia|]. reflexivity.
Qed.

Lemma encode_basestring_plain s :
  utf8_encodable s = true -> forallb plain (Json.encode_basestring s) = true.
Proof.
  intros Hs. unfold Json.encode_basestring. cbn [forallb].
  rewrite forallb_app. simpl. rewrite andb_true_r.
  induction s as [|c s IH]; [reflexivity|].
  cbn [flat_map]. rewrite forallb_app. simpl in Hs.
  apply andb_true_iff in Hs as [Hc Hs]. rewrite IH by done.
  rewrite escape_char_plain; [done|]. by destruct (is_surrogate c).
Qed.

Lemma plain_encodable s : forallb plain s = true -> utf8_encodable s = true.
Proof.
  unfold utf8_encodable. induction s as [|c s IH]; simpl; [done|].
  intros [[-> _]%andb_true_iff Hs]%andb_true_iff. by rewrite IH.
Qed.

Lemma plain_universal_newlines s :
  forallb plain s = true -> universal_newlines s = s.
Proof.
  induction s as [|c s IH]; simpl; [done|].
  intros [[_ Hc]%andb_true_iff Hs]%andb_true_iff.
  destruct (c =? 13); [done|]. by rewrite IH.
Qed.

Lemma member_chunks_text first items :
  items <> [] ->
  concat (Json.member_chunks first items) ++ [10; ch "}"]
  = (if first then [] else Json.item_separator) ++ quote :: members_text items.
Proof.
  revert first. induction items as [|[key value] items IH]; [done|].
  intros first _. cbn [Json.member_chunks members_text].
  rewrite !concat_app. cbn [concat]. rewrite app_nil_r.
  unfold Json.encode_basestring, Json.key_separator.
  rewrite <- !app_assoc. cbn [app]. rewrite <- !app_assoc. cbn [app].
  f_equal; [by destruct first|]. do 2 f_equal. f_equal. do 4 f_equal.
  destruct items as [|item items]; [reflexivity|].
  rewrite IH by done. reflexivity.
Qed.

(** The text [save_cache] writes. *)
Lemma iterencode_text (cache : gmap pystr pystr) :
  concat (Json.iterencode cache)
  = match map_to_list cache with
    | [] => str "{}"
    | items => ch "{" :: 10 :: 32 :: 32 :: quote :: members_text items
    end.
Proof.
  unfold Json.iterencode. destruct (map_to_list cache) as [|item items] eqn:E;
    [reflexivity|].
  cbn [app concat]. unfold Json.newline_indent. cbn [app].
  rewrite concat_app. cbn [concat].
  change ([10] ++ [ch "}"] ++ []) with [10; ch "}"].
  rewrite member_chunks_text by done. reflexivity.
Qed.

Lemma scan_once_string fuel s tail :
  Json.scan_once (S fuel) (quote :: flat_map Json.escape_char s ++ quote :: tail)
  = Some (JStr s, tail).
Proof. cbn [Json.scan_once]. by rewrite scanstring_escape. Qed.

(** One member of an object, as [save_cache] writes it. *)
Lemma members_member fuel key value rest acc :
  Json.members (S (S fuel))
    (flat_map Json.escape_char key
     ++ quote :: ch ":" :: 32 :: quote
     :: flat_map Json.escape_char value ++ quote :: rest) acc
  = match Json.skip_ws rest with
    | c3 :: s4 =>
        if c3 =? ch "}" then Some (JObj (<[key := JStr value]> acc), s4)
        else if c3 =? ch "," then
          match Json.skip_ws s4 with
          | q :: s5 =>
              if q =? quote
              then Json.members (S fuel) s5 (<[key := JStr value]> acc)
              else None
          | [] => None
          end
        else None
    | [] => None
    end.
Proof.
  change (Json.members (S (S fuel)) ?s acc)
    with (match Json.scanstring s with
          | None => None
          | Some (k, s1) =>
              match Json.skip_ws s1 with
              | c :: s2 =>
                  if c =? ch ":" then
                    match Json.scan_once (S fuel) (Json.skip_ws s2) with
                    | None => None
                    | Some (v, s3) =>
                        match Json.skip_ws s3 with
                        | c3 :: s4 =>
                            if c3 =? ch "}" then Some (JObj (<[k := v]> acc), s4)
                            else if c3 =? ch "," then
                              match Json.skip_ws s4 with
                              | q :: s5 =>
                                  if q =? quote
                                  then Json.members (S fuel) s5 (<[k := v]> acc)
                                  else None
                              | [] => None
                              end
                            else None
                        | [] => None
                        end
                    end
                  else None
              | [] => None
              end
          end).
  rewrite scanstring_escape.
  change (Json.skip_ws (ch ":" :: 32 :: quote :: ?s))
    with (ch ":" :: 32 :: quote :: s).
  change (ch ":" =? ch ":") with true. cbv iota.
  change (Json.skip_ws (32 :: quote :: ?s)) with (quote :: s).
  by rewrite scan_once_string.
Qed.

(** The decoder reads the members back, given one unit of fuel per member
    and one more. *)
Lemma members_text_decoded items : forall fuel acc tail,
  items <> [] -> (length items < fuel)%nat ->
  Json.members fuel (members_text items ++ tail) acc
  = Some (JObj (foldl insert_str acc items), tail).
Proof.
  induction items as [|[key value] items IH]; [done|].
  intros fuel acc tail _ Hfuel.
  destruct fuel as [|[|fuel]]; [simpl in Hfuel; lia..|].
  cbn [members_text]. rewrite <- app_assoc. cbn [app].
  rewrite <- app_assoc. cbn [app]. rewrite members_member.
  destruct items as [|item items]; cbn [app]; [reflexivity|].
  change (Json.skip_ws (ch "," :: ?s)) with (ch "," :: s). cbv iota.
  change (ch "," =? ch "}") with false. change (ch "," =? ch ",") with true.
  cbv iota.
  change (Json.skip_ws (10 :: 32 :: 32 :: quote :: ?s)) with (quote :: s).
  cbv iota. change (quote =? quote) with true. cbv iota.
  rewrite IH by (done || simpl in *; lia). reflexivity.
Qed.

Lemma members_text_length items :
  (length items <= length (members_text items))%nat.
Proof.
  induction items as [|[key value] items IH]; simpl; [lia|].
  rewrite length_app. simpl. rewrite length_app. simpl.
  destruct items; simpl in *; lia.
Qed.

(** Inserting the items of a dict one after the other gives the dict. *)
Lemma foldl_insert_str items : forall acc : gmap pystr json,
  NoDup items.*1 ->
  foldl insert_str acc items = (JStr <$> list_to_map items) ∪ acc.
Proof.
  induction items as [|[key value] items IH]; intros acc Hnd.
  - simpl. by rewrite fmap_empty, (left_id_L ∅ (∪)).
  - apply NoDup_cons in Hnd as [Hkey Hnd]. cbn [foldl]. rewrite IH by done.
    unfold insert_str. cbn [fst snd list_to_map foldr].
    rewrite fmap_insert, <- insert_union_l, <- insert_union_r; [done|].
    rewrite lookup_fmap. by rewrite (not_elem_of_list_to_map_1 _ key).
Qed.

Lemma scan_once_object fuel items tail :
  items <> [] -> (length items < fuel)%nat ->
  Json.scan_once (S fuel)
    (ch "{" :: 10 :: 32 :: 32 :: quote :: members_text items ++ tail)
  = Some (JObj (foldl insert_str ∅ items), tail).
Proof.
  intros Hne Hfuel.
  change (Json.scan_once (S fuel) _)
    with (Json.members fuel (members_text items ++ tail) ∅).
  by apply members_text_decoded.
Qed.

(** Decoding what the encoder wrote gives the mapping back, whatever its
    keys and values. *)
Lemma iterencode_decoded (cache : gmap pystr pystr) :
  Json.decode (concat (Json.iterencode cache)) = Some (JObj (JStr <$> cache)).
Proof.
  rewrite iterencode_text.
  destruct (map_to_list cache) as [|item items] eqn:E.
  - apply map_to_list_empty_iff in E as ->. by rewrite fmap_empty.
  - unfold Json.decode.
    change (Json.skip_ws (ch "{" :: ?s)) with (ch "{" :: s).
    pose proof (members_text_length (item :: items)) as Hlen.
    destruct (2 * length _ + 2)%nat as [|fuel] eqn:Hfuel; [lia|].
    rewrite <- (app_nil_r (members_text (item :: items))).
    rewrite scan_once_object by (done || simpl in *; lia).
    pose proof (NoDup_fst_map_to_list cache) as Hnd. rewrite E in Hnd.
    cbn [Json.skip_ws]. rewrite foldl_insert_str by exact Hnd.
    by rewrite <- E, list_to_map_to_list, (right_id_L ∅ (∪)).
Qed.

Lemma member_chunks_plain first items :
  Forall (fun item => utf8_encodable item.1 = true
                      /\ utf8_encodable item.2 = true) items ->
  Forall (fun chunk => forallb plain chunk = true)
    (Json.member_chunks first items).
Proof.
  intros Hitems. revert first.
  induction Hitems as [|[key value] items [Hk Hv] _ IH]; intros first;
    [constructor|].
  cbn [Json.member_chunks]. apply Forall_app.
  split; [by destruct first; repeat constructor|].
  repeat constructor;
    [by apply encode_basestring_plain | by apply encode_basestring_plain
    | apply IH].
Qed.

Lemma iterencode_plain (cache : gmap pystr pystr) :
  encodable_cache cache ->
  Forall (fun chunk => forallb plain chunk = true) (Json.iterencode cache).
Proof.
  intros Hcache. unfold Json.iterencode.
  assert (Forall (fun item => utf8_encodable item.1 = true
                              /\ utf8_encodable item.2 = true)
            (map_to_list cache)) as Hitems.
  { apply Forall_forall. intros [key value] Hin%elem_of_map_to_list.
    by apply Hcache. }
  destruct (map_to_list cache) as [|item items]; [by repeat constructor|].
  repeat (apply Forall_cons; split; [done|]).
  apply Forall_app. split; [by apply member_chunks_plain|]. by repeat constructor.
Qed.

Lemma forallb_plain_concat chunks :
  Forall (fun chunk => forallb plain chunk = true) chunks ->
  forallb plain (concat chunks) = true.
Proof.
  induction 1 as [|chunk chunks Hc _ IH]; [done|].
  simpl. by rewrite forallb_app, Hc, IH.
Qed.

Section CacheStore.

Context (world : Type).

(** Writing chunks that can be encoded appends them to the file. *)
Lemma for_each_file_write (path : pystr) (chunks : list pystr) :
  forall (content : pystr) (st : state world),
  st_files st !! path = Some content ->
  Forall (fun chunk => forallb plain chunk = true) chunks ->
  for_each world (file_write world path) chunks st
  = (Returned tt,
     State (st_cache st) (<[path := content ++ concat chunks]> (st_files st))
           (st_world st) (st_trace st)).
Proof.
  induction chunks as [|chunk chunks IH]; intros content st Hfile Hchunks.
  - simpl. rewrite app_nil_r, insert_id by done. by destruct st.
  - apply Forall_cons in Hchunks as [Hchunk Hchunks].
    cbn [for_each]. unfold mbind, M_bind, file_write.
    rewrite (plain_encodable chunk), Hfile by done. cbn [set_file default].
    rewrite (IH (content ++ chunk)); [|apply lookup_insert_eq|done].
    cbn [st_cache st_files st_world st_trace concat].
    by rewrite insert_insert_eq, <- app_assoc.
Qed.

Lemma save_cache_written cache (st : state world) :
  encodable_cache cache ->
  save_cache world cache st
  = (Returned tt, with_cache_file world st (concat (Json.iterencode cache))).
Proof.
  intros Hcache. unfold save_cache, mbind, M_bind, open_w. cbn [set_file].
  rewrite (for_each_file_write _ _ []);
    [|apply lookup_insert_eq | by apply iterencode_plain].
  cbn [st_cache st_files st_world st_trace app].
  unfold with_cache_file. by rewrite insert_insert_eq.
Qed.

Lemma load_cache_read (st : state world) text v :
  st_files st !! TRANSLATION_CACHE_FILE = Some text ->
  Json.decode (universal_newlines text) = Some v ->
  load_cache world st = (Returned v, st).
Proof.
  intros Hfile Hdec. unfold load_cache, mbind, M_bind, path_exists.
  rewrite bool_decide_true by (rewrite Hfile; eauto).
  unfold read_text. by rewrite Hfile, Hdec.
Qed.

(** C9 (as amended). For every mapping [cache] from strings to strings in
    which no key and no value holds a surrogate code point, ASCII or not,
    [save_cache] succeeds and [load_cache] then returns a mapping equal to
    [cache]. *)
Theorem cache_round_trip (cache : gmap pystr pystr) (st : state world) :
  encodable_cache cache ->
  exists st1,
    save_cache world cache st = (Returned tt, st1)
    /\ load_cache world st1 = (Returned (JObj (JStr <$> cache)), st1).
Proof.
  intros Hcache. eexists. split; [by apply save_cache_written|].
  apply (load_cache_read _ (concat (Json.iterencode cache)));
    [apply lookup_insert_eq|].
  rewrite plain_universal_newlines
    by (by apply forallb_plain_concat, iterencode_plain).
  apply iterencode_decoded.
Qed.

End CacheStore.

(** A cache whose key holds Assamese text goes through the file
    unchanged. *)
Lemma cache_round_trip_witness :
  encodable_cache assamese_cache
  /\ exists st1,
       save_cache script assamese_cache (fresh []) = (Returned tt, st1)
       /\ load_cache script st1
          = (Returned (JObj (JStr <$> assamese_cache)), st1).
Proof.
  assert (encodable_cache assamese_cache) as Hcache.
  { unfold assamese_cache. intros key value [<- <-]%lookup_singleton_Some.
    split; reflexivity. }
  split; [exact Hcache|].
  exact (cache_round_trip script assamese_cache (fresh []) Hcache).
Defined.

(** C9 as stated fails on a mapping with a lone surrogate, which a Python
    [str] can hold: [save_cache] raises [UnicodeEncodeError] after the
    first two chunks, and [load_cache] then finds a file it cannot
    decode. *)
Lemma cache_round_trip_counterexample :
  (save_cache script surrogate_cache (fresh [])).1 = Raised UnicodeEncodeError
  /\ st_files (save_cache script surrogate_cache (fresh [])).2
       !! TRANSLATION_CACHE_FILE = Some [ch "{"; 10; 32; 32]
  /\ (load_cache script (save_cache script surrogate_cache (fresh [])).2).1
     = Raised JSONDecodeError
  /\ ~ exists st1,
         save_cache script surrogate_cache (fresh []) = (Returned tt, st1)
         /\ load_cache script st1
            = (Returned (JObj (JStr <$> surrogate_cache)), st1).
Proof.
  split; [vm_compute; reflexivity|]. split; [vm_compute; reflexivity|].
  split; [vm_compute; reflexivity|].
  intros (st1 & Hsave & _).
  assert ((save_cache script surrogate_cache (fresh [])).1
          = Raised UnicodeEncodeError) as Hraised by (vm_compute; reflexivity).
  rewrite Hsave in Hraised. discriminate.
Qed.

(* ===================================================================== *)
(** * Properties of the translator *)
(* ===================================================================== *)

Ltac unfold_monad :=
  unfold mbind, mret, M_bind, M_ret, try_except, provider_translate, get_cache,
    cache_set, sleep, print, emit, raise in *;
  cbn [st_cache st_files st_world st_trace] in *.

Lemma falsy_false (s : pystr) : s <> [] -> falsy s = false.
Proof. by destruct s. Qed.

Section Translator.

Context (unicode_lower : pystr -> pystr) (world : Type)
  (construct : provider -> pystr -> option exn)
  (translate : provider -> pystr -> pystr -> world -> outcome pystr * world).

#[local] Abbreviation translate_text' :=
  (translate_text unicode_lower world construct translate).
#[local] Abbreviation clean := (clean_translated_text unicode_lower).

Lemma events_between_app (st : state world) c f w evs :
  events_between st (State c f w (st_trace st ++ evs)) = evs.
Proof. unfold events_between. simpl. by rewrite drop_app_length. Qed.

Lemma events_between_refl (st : state world) : events_between st st = [].
Proof. unfold events_between. by rewrite drop_all. Qed.

(** The paths of [translate_text], one lemma each. *)
Lemma translate_text_hit text lang (st : state world) v :
  text <> [] -> st_cache st !! cache_key lang text = Some v ->
  translate_text' text lang st = (Returned v, st).
Proof.
  intros Ht Hc. unfold translate_text. rewrite falsy_false by done.
  unfold_monad. by rewrite Hc.
Qed.

Lemma translate_text_primary text lang (st : state world) raw1 w1 :
  text <> [] -> st_cache st !! cache_key lang text = None ->
  construct Google lang = None ->
  translate Google lang text (st_world st) = (Returned raw1, w1) ->
  let key := cache_key lang text in
  let call p := EvCall p lang text in
  translate_text' text lang st =
    if falsy (clean raw1) then
      match construct MyMemory lang with
      | Some _ =>
          (Returned raw1, stored world st key raw1 w1 [call Google; EvSleep])
      | None =>
          match translate MyMemory lang text w1 with
          | (Returned raw2, w2) =>
              (Returned (clean raw2),
               stored world st key (clean raw2) w2
                 [call Google; call MyMemory; EvSleep])
          | (Raised _, w2) =>
              (Returned raw1,
               stored world st key raw1 w2
                 [call Google; call MyMemory; EvSleep])
          end
      end
    else (Returned (clean raw1),
          stored world st key (clean raw1) w1 [call Google; EvSleep]).
Proof.
  intros Ht Hc Hg Htr. unfold translate_text. rewrite falsy_false by done.
  unfold_monad. rewrite Hc, Hg, Htr. unfold stored.
  destruct (falsy (clean raw1)); unfold_monad.
  - destruct (construct MyMemory lang); unfold_monad.
    + by rewrite <- app_assoc.
    + destruct (translate MyMemory lang text w1) as [[raw2|e] w2]; unfold_monad;
        by rewrite <- !app_assoc.
  - by rewrite <- app_assoc.
Qed.

Lemma translate_text_ctor_raises text lang (st : state world) e :
  text <> [] -> st_cache st !! cache_key lang text = None ->
  construct Google lang = Some e ->
  translate_text' text lang st =
    (Returned text, logged world st (error_line text e)).
Proof.
  intros Ht Hc Hg. unfold translate_text. rewrite falsy_false by done.
  unfold_monad. by rewrite Hc, Hg.
Qed.

Lemma translate_text_call_raises text lang (st : state world) e w1 :
  text <> [] -> st_cache st !! cache_key lang text = None ->
  construct Google lang = None ->
  translate Google lang text (st_world st) = (Raised e, w1) ->
  translate_text' text lang st =
    (Returned text,
     State (st_cache st) (st_files st) w1
           (st_trace st ++ [EvCall Google lang text; EvPrint (error_line text e)])).
Proof.
  intros Ht Hc Hg Htr. unfold translate_text. rewrite falsy_false by done.
  unfold_monad. rewrite Hc, Hg, Htr. unfold_monad. by rewrite <- app_assoc.
Qed.


(** C1 (as amended). For every language code, non-empty text and cache: if
    the first call of [translate_text] does not take the degraded path (the
    key is cached already, or the primary provider returns), then the key
    is cached after it, the second call changes nothing (it makes no
    network call) and returns the same string, and the two calls together
    call each provider at most once. *)
Theorem translate_text_twice text lang (st : state world) :
  text <> [] ->
  is_Some (st_cache st !! cache_key lang text)
  \/ (construct Google lang = None
      /\ exists raw w1,
           translate Google lang text (st_world st) = (Returned raw, w1)) ->
  let first := translate_text' text lang st in
  let second := translate_text' text lang first.2 in
  ((calls_to Google (events_between st second.2) <= 1)%nat
   /\ (calls_to MyMemory (events_between st second.2) <= 1)%nat)
  /\ (exists v, first.1 = Returned v
               /\ st_cache first.2 !! cache_key lang text = Some v)
  /\ events_between first.2 second.2 = []
  /\ second.1 = first.1.
Proof.
  intros Ht Hcase first second. subst first second.
  destruct (st_cache st !! cache_key lang text) as [v|] eqn:Hc.
  - rewrite (translate_text_hit text lang st v) by done. simpl.
    rewrite (translate_text_hit text lang st v) by done. simpl.
    rewrite events_between_refl.
    split; [split; cbn; lia|]. split; [eauto|by split].
  - destruct Hcase as [[? [=]]|(Hg & raw & w1 & Htr)].
    rewrite (translate_text_primary text lang st raw w1) by done.
    assert (forall v w evs,
      (calls_to Google evs <= 1)%nat -> (calls_to MyMemory evs <= 1)%nat ->
      let first := (Returned v, stored world st (cache_key lang text) v w evs) in
      let second := translate_text' text lang first.2 in
      ((calls_to Google (events_between st second.2) <= 1)%nat
       /\ (calls_to MyMemory (events_between st second.2) <= 1)%nat)
      /\ (exists v', first.1 = Returned v'
             /\ st_cache first.2 !! cache_key lang text = Some v')
      /\ events_between first.2 second.2 = []
      /\ second.1 = first.1) as Hstored.
    { intros v w evs HG HM. simpl.
      rewrite (translate_text_hit _ _ _ v) by (done || apply lookup_insert_eq).
      simpl. unfold stored at 1 2.
      rewrite !(events_between_app st), events_between_refl.
      split; [by split|]. split; [|by split].
      exists v. split; [done|apply lookup_insert_eq]. }
    destruct (falsy (clean raw)).
    + destruct (construct MyMemory lang).
      * apply Hstored; cbn; lia.
      * destruct (translate MyMemory lang text w1) as [[raw2|e] w2];
          apply Hstored; cbn; lia.
    + apply Hstored; cbn; lia.
Qed.

(** C2 (as amended). When the primary provider returns an output that is
    cleaned to the empty string, the fallback provider is invoked and its
    output cleaned instead; whenever the fallback itself raises (in its
    network call or before it), the result used and cached is the raw,
    uncleaned output of the primary provider. *)
Theorem translate_text_fallback text lang (st : state world) raw1 w1 :
  text <> [] -> st_cache st !! cache_key lang text = None ->
  construct Google lang = None ->
  translate Google lang text (st_world st) = (Returned raw1, w1) ->
  clean raw1 = [] ->
  let key := cache_key lang text in
  let call p := EvCall p lang text in
  (forall raw2 w2,
     construct MyMemory lang = None ->
     translate MyMemory lang text w1 = (Returned raw2, w2) ->
     translate_text' text lang st =
       (Returned (clean raw2),
        stored world st key (clean raw2) w2
          [call Google; call MyMemory; EvSleep]))
  /\ (forall e w2,
        construct MyMemory lang = None ->
        translate MyMemory lang text w1 = (Raised e, w2) ->
        translate_text' text lang st =
          (Returned raw1,
           stored world st key raw1 w2 [call Google; call MyMemory; EvSleep]))
  /\ (forall e,
        construct MyMemory lang = Some e ->
        translate_text' text lang st =
          (Returned raw1, stored world st key raw1 w1 [call Google; EvSleep])).
Proof.
  intros Ht Hc Hg Htr Hclean key call.
  rewrite (translate_text_primary text lang st raw1 w1) by done.
  rewrite Hclean. simpl.
  split; [|split].
  - intros raw2 w2 -> ->. reflexivity.
  - intros e w2 -> ->. reflexivity.
  - intros e ->. reflexivity.
Qed.







End Translator.

(** ** Concrete runs of the translator *)

(** The provider answers "The cat is an animal": the first call stores
    "cat", the second finds it. *)
Lemma translate_text_twice_witness :
  let st := fresh [Returned (str "The cat is an animal")] in
  let first := run_translate_text (str "cat") (str "as") st in
  let second := run_translate_text (str "cat") (str "as") first.2 in
  str "cat" <> []
  /\ ((calls_to Google (events_between st second.2) <= 1)%nat
      /\ (calls_to MyMemory (events_between st second.2) <= 1)%nat)
  /\ (exists v, first.1 = Returned v
                /\ st_cache first.2 !! cache_key (str "as") (str "cat") = Some v)
  /\ events_between first.2 second.2 = []
  /\ second.1 = first.1.
Proof.
  split; [discriminate|].
  apply (translate_text_twice lower_ascii_only script constructs scripted
           (str "cat") (str "as")
           (fresh [Returned (str "The cat is an animal")])); [discriminate|].
  right. split; [reflexivity|]. eexists _, _. reflexivity.
Defined.

(** C1 as stated fails twice over. When the primary provider raises at the
    first call and answers at the second, the key is not cached after the
    first call, the second call goes to the network and the two results
    differ. When the primary provider answers with a full stop, the first
    call alone makes two network calls. *)
Lemma idempotence_counterexample :
  let failing :=
    fresh [Raised (ProviderError (str "quota exceeded")); Returned (str "feline")] in
  let first := run_translate_text (str "cat") (str "as") failing in
  let second := run_translate_text (str "cat") (str "as") first.2 in
  let falling_back := fresh [Returned (str "."); Returned (str "the cat")] in
  (first.1 = Returned (str "cat")
   /\ st_cache first.2 !! cache_key (str "as") (str "cat") = None
   /\ second.1 = Returned (str "feline")
   /\ network_calls (events_between failing second.2) = 2%nat)
  /\ ~ idempotent_at lower_ascii_only script constructs scripted
         (str "cat") (str "as") failing
  /\ network_calls
       (events_between falling_back
          (run_translate_text (str "cat") (str "as") falling_back).2) = 2%nat
  /\ ~ idempotent_at lower_ascii_only script constructs scripted
         (str "cat") (str "as") falling_back.
Proof.
  cbv zeta. split; [repeat split; vm_compute; reflexivity|].
  split; [intros (H & _); vm_compute in H; lia|].
  split; [vm_compute; reflexivity|].
  intros (H & _); vm_compute in H; lia.
Qed.

(** The primary provider answers with a full stop, which is cleaned to
    nothing, and the fallback provider times out: the full stop is the
    result, and it is cached. *)
Lemma translate_text_fallback_witness :
  let st := fresh [Returned (str "."); Raised (ProviderError (str "timed out"))] in
  clean_translated_text lower_ascii_only (str ".") = []
  /\ run_translate_text (str "cat") (str "as") st
     = (Returned (str "."),
        stored script st (cache_key (str "as") (str "cat")) (str ".") []
          [EvCall Google (str "as") (str "cat");
           EvCall MyMemory (str "as") (str "cat"); EvSleep]).
Proof.
  cbv zeta. split; [vm_compute; reflexivity|].
  refine (proj1 (proj2
    (translate_text_fallback lower_ascii_only script constructs scripted
       (str "cat") (str "as")
       (fresh [Returned (str "."); Raised (ProviderError (str "timed out"))])
       (str ".") [Raised (ProviderError (str "timed out"))] _ _ _ _ _))
    (ProviderError (str "timed out")) [] _ _);
    first [discriminate | reflexivity | vm_compute; reflexivity].
Defined.

(** C2 as stated fails in that run: the fallback provider produced no
    output, and the result is the output of the primary provider. *)
Lemma fallback_counterexample :
  let st := fresh [Returned (str "."); Raised (ProviderError (str "timed out"))] in
  let result := run_translate_text (str "cat") (str "as") st in
  scripted Google (str "as") (str "cat") (st_world st)
  = (Returned (str "."), [Raised (ProviderError (str "timed out"))])
  /\ scripted MyMemory (str "as") (str "cat")
       [Raised (ProviderError (str "timed out"))]
     = (Raised (ProviderError (str "timed out")), [])
  /\ result.1 = Returned (str ".")
  /\ st_cache result.2 !! cache_key (str "as") (str "cat") = Some (str ".")
  /\ ~ fallback_raw_output_used lower_ascii_only script constructs scripted
         (str "cat") (str "as") st.
Proof.
  cbv zeta. split; [reflexivity|]. split; [reflexivity|].
  split; [vm_compute; reflexivity|]. split; [vm_compute; reflexivity|].
  intros (raw1 & w1 & raw2 & w2 & H1 & H2 & _).
  injection H1 as <- <-. discriminate H2.
Qed.





(* ===================================================================== *)
(** * Properties of the file processor *)
(* ===================================================================== *)

Section FileProcessor.

Context (unicode_lower : pystr -> pystr) (world : Type)
  (construct : provider -> pystr -> option exn)
  (translate : provider -> pystr -> pystr -> world -> outcome pystr * world).

#[local] Abbreviation translate_text' :=
  (translate_text unicode_lower world construct translate).
#[local] Abbreviation translate_answers' :=
  (translate_answers unicode_lower world construct translate).
#[local] Abbreviation process_record' :=
  (process_record unicode_lower world construct translate).
#[local] Abbreviation process_file' :=
  (process_file unicode_lower world construct translate).
#[local] Abbreviation translations' :=
  (translations unicode_lower world construct translate).
#[local] Abbreviation answers_translated' :=
  (answers_translated unicode_lower world construct translate).
#[local] Abbreviation record_processed' :=
  (record_processed unicode_lower world construct translate).
#[local] Abbreviation records_processed' :=
  (records_processed unicode_lower world construct translate).

(** ** What a computation that returned went through *)

Lemma bind_returned {A B} (m : M world A) (f : A -> M world B)
    (st : state world) b st' :
  (m ≫= f) st = (Returned b, st') ->
  exists a st1, m st = (Returned a, st1) /\ f a st1 = (Returned b, st').
Proof.
  unfold mbind, M_bind. destruct (m st) as [[a|e] st1]; [eauto|discriminate].
Qed.

Lemma bind_returns {A B} (m : M world A) (f : A -> M world B)
    (st : state world) a st1 :
  m st = (Returned a, st1) -> (m ≫= f) st = f a st1.
Proof. unfold mbind, M_bind. by intros ->. Qed.

Lemma mret_returned {A} (a b : A) (st st' : state world) :
  mret (M := M world) a st = (Returned b, st') -> b = a /\ st' = st.
Proof. by intros [= -> ->]. Qed.

Lemma as_str_returned v (st : state world) s st' :
  as_str world v st = (Returned s, st') -> v = JStr s /\ st' = st.
Proof. destruct v; simpl; try discriminate. by intros [= -> ->]. Qed.


Lemma as_dict_returned v (st : state world) m st' :
  as_dict world v st = (Returned m, st') -> v = JObj m /\ st' = st.
Proof. destruct v; simpl; try discriminate. by intros [= -> ->]. Qed.

Lemma parse_record_returned line (st : state world) data st' :
  parse_record world line st = (Returned data, st') ->
  Json.decode line = Some (JObj data) /\ st' = st.
Proof.
  unfold parse_record. destruct (Json.decode line) as [v|]; [|discriminate].
  by intros [-> ->]%as_dict_returned.
Qed.

Lemma read_text_returned path (st : state world) text st' :
  read_text world path st = (Returned text, st') ->
  (universal_newlines <$> st_files st !! path) = Some text /\ st' = st.
Proof.
  unfold read_text. destruct (st_files st !! path); [|discriminate].
  by intros [= <- <-].
Qed.

(** ** The loop over the answers *)


(** Entry [i] of the translations is what [translate_text] returned for
    entry [i] of the answers. *)
Lemma translations_lookup lang st answers translateds st' i answer :
  translations' lang st answers translateds st' ->
  answers !! i = Some answer ->
  exists translated s s',
    translateds !! i = Some translated
    /\ translate_text' answer lang s = (Returned translated, s').
Proof.
  intros H. revert i. induction H as [|st a t st1 answers ts st2 Ht _ IH];
    intros i; [done|].
  destruct i as [|i]; simpl; [|apply IH].
  intros [= <-]. eauto.
Qed.



(** ** One record *)




(** ** Traces only grow, and only [write_record] writes records *)

Lemma quiet_no_events {A} (m : M world A) :
  (forall st, st_trace (m st).2 = st_trace st) -> quiet world m.
Proof. intros H st. exists []. by rewrite app_nil_r. Qed.

Lemma written_app evs1 evs2 :
  written (evs1 ++ evs2) = written evs1 ++ written evs2.
Proof. apply omap_app. Qed.

Lemma quiet_bind {A B} (m : M world A) (f : A -> M world B) :
  quiet world m -> (forall a, quiet world (f a)) -> quiet world (m ≫= f).
Proof.
  intros Hm Hf st. unfold mbind, M_bind.
  destruct (Hm st) as (evs1 & Ht1 & Hw1).
  destruct (m st) as [[a|e] st1]; simpl in *; [|eauto].
  destruct (Hf a st1) as (evs2 & Ht2 & Hw2).
  exists (evs1 ++ evs2). rewrite Ht2, Ht1, app_assoc, written_app, Hw1, Hw2. done.
Qed.

Lemma quiet_try_except {A} (m : M world A) (h : exn -> M world A) :
  quiet world m -> (forall e, quiet world (h e)) ->
  quiet world (try_except world m h).
Proof.
  intros Hm Hh st. unfold try_except.
  destruct (Hm st) as (evs1 & Ht1 & Hw1).
  destruct (m st) as [[a|e] st1]; simpl in *; [eauto|].
  destruct (Hh e st1) as (evs2 & Ht2 & Hw2).
  exists (evs1 ++ evs2). rewrite Ht2, Ht1, app_assoc, written_app, Hw1, Hw2. done.
Qed.

Lemma quiet_ret {A} (a : A) : quiet world (mret a).
Proof. by apply quiet_no_events. Qed.

Lemma quiet_raise {A} e : quiet world (raise world (A := A) e).
Proof. by apply quiet_no_events. Qed.

Lemma quiet_print line : quiet world (print world line).
Proof. intros st. by exists [EvPrint line]. Qed.

Lemma quiet_provider_translate p lang text :
  quiet world (provider_translate world construct translate p lang text).
Proof.
  intros st. unfold provider_translate.
  destruct (construct p lang); [exists []; by rewrite app_nil_r|].
  destruct (translate p lang text (st_world st)) as [r w].
  by exists [EvCall p lang text].
Qed.

Lemma quiet_translate_text text lang : quiet world (translate_text' text lang).
Proof.
  unfold translate_text. destruct (falsy text); [apply quiet_ret|].
  apply quiet_bind; [by apply quiet_no_events|]. intros cache.
  destruct (cache !! _); [apply quiet_ret|].
  apply quiet_try_except.
  - apply quiet_bind; [apply quiet_provider_translate|]. intros translated.
    apply quiet_bind.
    + destruct (falsy _); [|apply quiet_ret].
      apply quiet_try_except; [|intros; apply quiet_ret].
      apply quiet_bind; [apply quiet_provider_translate|]. intros. apply quiet_ret.
    + intros cleaned. apply quiet_bind; [by apply quiet_no_events|]. intros _.
      apply quiet_bind; [|intros; apply quiet_ret].
      intros st. by exists [EvSleep].
  - intros e. apply quiet_bind; [apply quiet_print|]. intros. apply quiet_ret.
Qed.

Lemma quiet_translate_answers lang items : forall acc,
  quiet world (translate_answers' lang items acc).
Proof.
  induction items as [|v items IH]; intros acc; simpl; [apply quiet_ret|].
  apply quiet_bind; [destruct v; (apply quiet_ret || apply quiet_raise)|].
  intros answer. apply quiet_bind; [apply quiet_translate_text|].
  intros translated. apply quiet_bind; [apply quiet_print|]. intros _. apply IH.
Qed.

Lemma quiet_process_record lang data : quiet world (process_record' lang data).
Proof.
  unfold process_record.
  apply quiet_bind;
    [destruct (dict_get _ _ _); (apply quiet_ret || apply quiet_raise)|].
  intros generated. apply quiet_bind.
  - destruct (truthy _); [|apply quiet_ret].
    apply quiet_bind; [apply quiet_translate_text|]. intros. apply quiet_ret.
  - intros data1.
    apply quiet_bind;
      [destruct (dict_get _ _ _); (apply quiet_ret || apply quiet_raise)|].
    intros items. apply quiet_bind; [apply quiet_translate_answers|].
    intros. apply quiet_ret.
Qed.

Lemma quiet_for_each {A} (f : A -> M world unit) l :
  (forall x, quiet world (f x)) -> quiet world (for_each world f l).
Proof.
  intros Hf. induction l as [|x l IH]; simpl; [apply quiet_ret|].
  apply quiet_bind; [apply Hf | intros; apply IH].
Qed.

Lemma quiet_save_cache cache : quiet world (save_cache world cache).
Proof.
  unfold save_cache. apply quiet_bind; [by apply quiet_no_events|]. intros _.
  apply quiet_for_each. intros chunk. apply quiet_no_events. intros st.
  unfold file_write. by destruct (utf8_encodable chunk).
Qed.

Lemma quiet_read_text path : quiet world (read_text world path).
Proof.
  apply quiet_no_events. intros st. unfold read_text.
  by destruct (st_files st !! path).
Qed.

Lemma quiet_checkpoint language n : quiet world (checkpoint world language n).
Proof.
  unfold checkpoint. destruct (_ =? _)%nat; [|apply quiet_ret].
  apply quiet_bind; [apply quiet_print|]. intros _.
  apply quiet_bind; [by apply quiet_no_events|]. apply quiet_save_cache.
Qed.

Lemma quiet_parse_record line : quiet world (parse_record world line).
Proof.
  unfold parse_record. destruct (Json.decode line) as [v|]; [|apply quiet_raise].
  destruct v; (apply quiet_ret || apply quiet_raise).
Qed.

(** ** The records written *)

Lemma bind_quiet_l {A B} (m : M world A) (f : A -> M world B)
    (st : state world) (P : list (gmap pystr json) -> Prop) :
  quiet world m -> P [] ->
  (forall a st1, m st = (Returned a, st1) ->
     exists evs, st_trace (f a st1).2 = st_trace st1 ++ evs /\ P (written evs)) ->
  exists evs, st_trace ((m ≫= f) st).2 = st_trace st ++ evs /\ P (written evs).
Proof.
  intros Hm HP Hf. unfold mbind, M_bind.
  destruct (Hm st) as (evs1 & Ht1 & Hw1).
  destruct (m st) as [[a|e] st1]; simpl in Ht1.
  - destruct (Hf a st1 eq_refl) as (evs2 & Ht2 & HP2).
    exists (evs1 ++ evs2). rewrite Ht2, Ht1, app_assoc, written_app, Hw1. done.
  - exists evs1. by rewrite Hw1.
Qed.

Lemma bind_quiet_r {A B} (m : M world A) (f : A -> M world B)
    (st : state world) (P : list (gmap pystr json) -> Prop) :
  (exists evs, st_trace (m st).2 = st_trace st ++ evs /\ P (written evs)) ->
  (forall a, quiet world (f a)) ->
  exists evs, st_trace ((m ≫= f) st).2 = st_trace st ++ evs /\ P (written evs).
Proof.
  intros (evs1 & Ht1 & HP1) Hf. unfold mbind, M_bind.
  destruct (m st) as [[a|e] st1]; simpl in Ht1; [|eauto].
  destruct (Hf a st1) as (evs2 & Ht2 & Hw2).
  exists (evs1 ++ evs2).
  by rewrite Ht2, Ht1, app_assoc, written_app, Hw2, app_nil_r.
Qed.

(** The loop of [process_file] writes, for the first lines of its input and
    in their order, what [process_record] returned for them. *)
Lemma process_lines_written output_path language lang_code lines :
  forall n (st : state world),
  exists evs,
    st_trace (process_lines unicode_lower world construct translate
                output_path language lang_code lines n st).2
    = st_trace st ++ evs
    /\ records_processed' lang_code lines (written evs).
Proof.
  unfold records_processed.
  induction lines as [|line lines IH]; intros n st.
  - exists []. simpl. rewrite app_nil_r. split; [done|constructor].
  - cbn [process_lines]. unfold mbind, M_bind.
    destruct (quiet_parse_record line st) as (evs0 & Ht0 & Hw0).
    destruct (parse_record world line st) as [[data|e] st0] eqn:Hparse; cycle 1.
    { exists evs0. rewrite Hw0. split; [done|constructor]. }
    apply parse_record_returned in Hparse as [Hdec ->].
    destruct (quiet_process_record lang_code data st) as (evs1 & Ht1 & Hw1).
    destruct (process_record' lang_code data st) as [[out|e] st1] eqn:Hrec;
      simpl in Ht1; cycle 1.
    { exists evs1. simpl. rewrite Hw1. split; [done|constructor]. }
    unfold write_record. destruct (forallb _ _); cycle 1.
    { exists evs1. simpl. rewrite Hw1. split; [done|constructor]. }
    cbn [emit]. set (st2 := State _ _ _ _).
    destruct (quiet_checkpoint language (S n) st2) as (evs2 & Ht2 & Hw2).
    assert (record_processed' lang_code line out) as Hline
      by (exists data, st, st1; done).
    destruct (checkpoint world language (S n) st2) as [[[]|e] st3];
      simpl in Ht2.
    + destruct (IH (S n) st3) as (evs3 & Ht3 & Hrec3).
      exists (evs1 ++ [EvWrite output_path out] ++ evs2 ++ evs3).
      rewrite !written_app, Hw1, Hw2.
      rewrite Ht3, Ht2. subst st2. cbn [st_trace]. rewrite Ht1.
      split; [by rewrite <- !app_assoc|].
      simpl. by constructor.
    + exists (evs1 ++ [EvWrite output_path out] ++ evs2).
      rewrite !written_app, Hw1, Hw2.
      cbn [snd]. rewrite Ht2. subst st2. cbn [st_trace]. rewrite Ht1.
      split; [by rewrite <- !app_assoc|].
      simpl. constructor; [done|constructor].
Qed.

Lemma process_file_trace input_path output_path language (st : state world) :
  exists evs,
    st_trace (process_file' input_path output_path language st).2
    = st_trace st ++ evs
    /\ records_processed' (get_language_code language)
         (input_lines world input_path output_path st) (written evs).
Proof.
  unfold process_file.
  apply bind_quiet_l; [apply quiet_read_text | constructor |].
  intros _ st0 [_ ->]%read_text_returned.
  apply bind_quiet_l; [by apply quiet_no_events | constructor |].
  intros [] st1 [= <-].
  apply bind_quiet_l; [apply quiet_read_text | constructor |].
  intros text st2 [Htext ->]%read_text_returned. simpl in Htext.
  unfold input_lines. destruct (_ !! input_path) as [content|]; [|discriminate].
  injection Htext as <-.
  apply bind_quiet_r; [apply process_lines_written|].
  intros n. apply quiet_bind; [by apply quiet_no_events|]. intros cache.
  apply quiet_bind; [apply quiet_save_cache|]. intros _. apply quiet_print.
Qed.






End FileProcessor.

(** ** Concrete runs of the file processor *)



(** The end-to-end example of the specification: with a translator stub
    that is the identity, the line
    [{"Generated": "cat, feline", "Answer": ["cat"]}] is written out with
    [CleanedAnswer] "cat", [TranslatedAnswer] "cat" and
    [TranslatedAnswerList] ["cat"], its own fields kept; the cache is saved
    with the one translation. *)
Example process_file_end_to_end :
  let st := State ∅ sample_files tt [] in
  let result :=
    process_file lower_ascii_only unit constructs identity_stub
      (str "data/predictions-assamese-generated.jsonl")
      (str "data/predictions-assamese-generated-translated.jsonl")
      (str "assamese") st in
  result.1 = Returned tt
  /\ written (events_between st result.2)
     = [ <[str "TranslatedAnswerList" := JArr [JStr (str "cat")]]>
           (<[str "TranslatedAnswer" := JStr (str "cat")]>
              (<[str "CleanedAnswer" := JStr (str "cat")]> sample_record)) ]
  /\ st_cache result.2 = {[ str "as:cat" := str "cat" ]}
  /\ (Json.decode <$> st_files result.2 !! TRANSLATION_CACHE_FILE)
     = Some (Some (JObj (JStr <$> st_cache result.2))).
Proof. cbv zeta. repeat split; vm_compute; reflexivity. Qed.

(* ===================================================================== *)
(** * Further properties of the text cleaners *)
(* ===================================================================== *)

Lemma lstrip_id (t : pystr) :
  (forall c, head t = Some c -> isspace c = false) -> lstrip t = t.
Proof.
  destruct t as [|c t]; [done|]. intros H. simpl. by rewrite (H c eq_refl).
Qed.

(** A string with no whitespace at its ends is left as it is. *)
Lemma strip_id (t : pystr) : no_space_at_ends t -> strip t = t.
Proof.
  intros [Hh Hl]. unfold strip, rstrip. rewrite (lstrip_id t) by done.
  rewrite lstrip_id; [apply rev_involutive|].
  intros c Hc. apply Hl. by rewrite <- head_rev.
Qed.

Lemma strip_sublist (s : pystr) : strip s `sublist_of` s.
Proof.
  destruct (strip_trimmed s) as (l & r & Hs & _).
  rewrite Hs at 2. apply sublist_inserts_l, sublist_inserts_r. done.
Qed.

Lemma split_head_no_sep (sep : char) (s : pystr) : sep ∉ item0 (split sep s).
Proof.
  destruct (decide (sep ∈ s)) as [Hin|Hn].
  - apply list_elem_of_split_l in Hin as (p & rest & -> & Hp).
    by rewrite split_first.
  - by rewrite split_no_sep.
Qed.

(** X1. Whatever its input, [clean_generated_answer] returns a string with
    no comma and no whitespace at its ends, made of characters of the input
    in their order; cleaning it again changes nothing. *)
Theorem clean_generated_answer_idempotent (s : pystr) :
  (comma ∉ clean_generated_answer s)
  /\ no_space_at_ends (clean_generated_answer s)
  /\ (clean_generated_answer s `sublist_of` s)
  /\ clean_generated_answer (clean_generated_answer s) = clean_generated_answer s.
Proof.
  assert (forall t : pystr, comma ∉ t -> clean_generated_answer t = strip t)
    as Hplain.
  { intros t Ht. unfold clean_generated_answer. rewrite contains_comma.
    rewrite bool_decide_false by done. by destruct t. }
  assert (exists p, (comma ∉ p) /\ (p `sublist_of` s)
            /\ clean_generated_answer s = strip p)
    as (p & Hp & Hsub & Hclean).
  { destruct (decide (comma ∈ s)) as [Hin|Hn].
    - exists (item0 (split comma s)). split; [apply split_head_no_sep|].
      unfold clean_generated_answer. rewrite contains_comma.
      rewrite bool_decide_true by done.
      destruct s as [|c s]; [by apply elem_of_nil in Hin|]. split; [|done].
      apply list_elem_of_split_l in Hin as (q & rest & -> & Hq).
      rewrite split_first by done. simpl. by apply sublist_inserts_r.
    - exists s. split; [done|]. split; [done|]. by apply Hplain. }
  assert (comma ∉ strip p) as Hnc.
  { intros Hin. apply Hp. eapply elem_of_sublist; [exact Hin|].
    apply strip_sublist. }
  destruct (strip_trimmed p) as (_ & _ & _ & _ & _ & Hends).
  rewrite Hclean. split; [done|]. split; [done|].
  split; [by etrans; [apply strip_sublist|]|].
  rewrite Hplain by done. by apply strip_id.
Qed.

(** [re.sub] with the empty replacement only deletes. *)
Lemma re_sub_delete_from_sublist ic r s : forall pos skip,
  re_sub_delete_from ic r pos s skip `sublist_of` s.
Proof.
  induction s as [|c s IH]; intros pos skip; simpl; [done|].
  destruct skip as [|n]; [|apply sublist_cons, IH].
  destruct (match_at ic r pos (c :: s)) as [[e cs]|];
    [destruct (pos <? e)%nat|]; (apply sublist_cons, IH || apply sublist_skip, IH).
Qed.

Lemma substitutions_sublist (ps : list regex) : forall t : pystr,
  fold_left (fun t p => re_sub_delete true p t) ps t `sublist_of` t.
Proof.
  induction ps as [|p ps IH]; intros t; simpl; [done|].
  etrans; [apply IH|]. apply re_sub_delete_from_sublist.
Qed.

Lemma segment_before_split_sublist (s : pystr) :
  segment_before_split s `sublist_of` s.
Proof.
  induction s as [|c s IH]; [done|]. cbn [segment_before_split].
  destruct (split_point (c :: s)); [apply sublist_nil_l | by apply sublist_skip].
Qed.

Lemma segment_before_split_no_punct (s : pystr) c :
  c ∈ segment_before_split s -> is_punct c = false.
Proof.
  induction s as [|x s IH]; [by intros ?%elem_of_nil|].
  cbn [segment_before_split]. destruct (split_point (x :: s)) eqn:Hsp;
    [by intros ?%elem_of_nil|].
  intros [->|Hin]%elem_of_cons; [|by apply IH].
  simpl in Hsp. by apply orb_false_iff in Hsp as [-> _].
Qed.

Lemma clean_translated_text_segment unicode_lower (text : pystr) :
  text <> [] ->
  clean_translated_text unicode_lower text
  = strip (segment_before_split
             (fold_left (fun t p => re_sub_delete true p t) patterns
                (strip (lower unicode_lower text)))).
Proof.
  intros Ht. unfold clean_translated_text. destruct text; [done|]. cbn [falsy].
  unfold re_split. by rewrite piece0_split.
Qed.

Lemma clean_translated_text_sublist unicode_lower (text : pystr) :
  clean_translated_text unicode_lower text `sublist_of` lower unicode_lower text.
Proof.
  destruct (decide (text = [])) as [->|Ht]; [apply sublist_nil_l|].
  rewrite clean_translated_text_segment by done.
  etrans; [apply strip_sublist|]. etrans; [apply segment_before_split_sublist|].
  etrans; [apply substitutions_sublist|]. apply strip_sublist.
Qed.

(** X2. [clean_translated_text] only deletes: its result is made of
    characters of the lower-cased input, in their order. The result holds
    no comma, semicolon or period, and no whitespace at its ends. *)
Theorem clean_translated_text_only_deletes (unicode_lower : pystr -> pystr)
    (text : pystr) :
  let t := clean_translated_text unicode_lower text in
  (t `sublist_of` lower unicode_lower text)
  /\ ((ch "," ∉ t) /\ (ch ";" ∉ t) /\ (ch "." ∉ t))
  /\ no_space_at_ends t.
Proof.
  intros t. subst t. split; [apply clean_translated_text_sublist|].
  destruct (decide (text = [])) as [->|Ht].
  { change (clean_translated_text unicode_lower []) with ([] : pystr).
    split; [repeat split; apply not_elem_of_nil|]. by split. }
  rewrite clean_translated_text_segment by done.
  set (sub := fold_left _ _ _).
  split.
  - assert (forall c, is_punct c = true -> c ∉ strip (segment_before_split sub))
      as Hp.
    { intros c Hc Hin. eapply elem_of_sublist in Hin; [|apply strip_sublist].
      apply segment_before_split_no_punct in Hin. congruence. }
    split; [|split]; by apply Hp.
  - by destruct (strip_trimmed (segment_before_split sub))
      as (_ & _ & _ & _ & _ & Hends).
Qed.

Lemma ascii_lower_idemp c : ascii_lower (ascii_lower c) = ascii_lower c.
Proof.
  unfold ascii_lower.
  destruct ((65 <=? c) && (c <=? 90)) eqn:H; [|by rewrite H].
  apply andb_true_iff in H as [H1%N.leb_le H2%N.leb_le].
  destruct (N.leb_spec 65 (c + 32)); [|lia].
  destruct (N.leb_spec (c + 32) 90); [lia|]. reflexivity.
Qed.

Lemma ascii_lower_ascii c : c < 128 -> ascii_lower c < 128.
Proof.
  unfold ascii_lower. intros Hc.
  destruct ((65 <=? c) && (c <=? 90)) eqn:H; [|done].
  apply andb_true_iff in H as [H1%N.leb_le H2%N.leb_le]. lia.
Qed.

Lemma lower_ascii unicode_lower (text : pystr) :
  isascii text = true ->
  lower unicode_lower text = map ascii_lower text
  /\ isascii (map ascii_lower text) = true.
Proof.
  intros Ha. unfold lower. rewrite Ha. split; [done|].
  unfold isascii in *. rewrite forallb_forall in *.
  intros c (x & <- & Hx)%in_map_iff. apply N.ltb_lt, ascii_lower_ascii.
  by apply N.ltb_lt, Ha.
Qed.

(** X3. On an ASCII text the case of the letters does not matter:
    [clean_translated_text] gives the same result for the text and for the
    text in lower case, and the result is ASCII with no upper-case
    letter. *)
Theorem clean_translated_text_ascii_case (unicode_lower : pystr -> pystr)
    (text : pystr) :
  isascii text = true ->
  clean_translated_text unicode_lower (map ascii_lower text)
  = clean_translated_text unicode_lower text
  /\ forall c, c ∈ clean_translated_text unicode_lower text ->
       c < 128 /\ ascii_lower c = c.
Proof.
  intros Ha. destruct (lower_ascii unicode_lower text Ha) as [Hl Ha'].
  split.
  - unfold clean_translated_text.
    destruct (lower_ascii unicode_lower _ Ha') as [-> _]. rewrite Hl.
    assert (map ascii_lower (map ascii_lower text) = map ascii_lower text) as ->.
    { rewrite map_map. apply map_ext, ascii_lower_idemp. }
    by destruct text.
  - intros c Hc.
    eapply elem_of_sublist in Hc; [|apply clean_translated_text_sublist].
    rewrite Hl in Hc. apply list_elem_of_In, in_map_iff in Hc as (x & <- & Hx).
    split; [|apply ascii_lower_idemp].
    apply ascii_lower_ascii. unfold isascii in Ha. rewrite forallb_forall in Ha.
    by apply N.ltb_lt, Ha.
Qed.

(** X4. [get_language_code] never fails: it returns one of the codes "as",
    "bn", "es" and "auto", and "auto" exactly for a language that is none
    of "assamese", "bengali" and "spanish". *)
Theorem get_language_code_total (language : pystr) :
  get_language_code language ∈ [str "as"; str "bn"; str "es"; str "auto"]
  /\ (get_language_code language = str "auto"
      <-> language ∉ [str "assamese"; str "bengali"; str "spanish"]).
Proof.
  unfold get_language_code, lang_map. cbn [list_to_map foldr fst snd].
  rewrite !not_elem_of_cons.
  destruct (decide (language = str "assamese")) as [->|H1].
  { rewrite lookup_insert_eq. split; [set_solver|]. split; [done|tauto]. }
  rewrite lookup_insert_ne by done.
  destruct (decide (language = str "bengali")) as [->|H2].
  { rewrite lookup_insert_eq. split; [set_solver|]. split; [done|tauto]. }
  rewrite lookup_insert_ne by done.
  destruct (decide (language = str "spanish")) as [->|H3].
  { rewrite lookup_insert_eq. split; [set_solver|]. split; [done|tauto]. }
  rewrite lookup_insert_ne by done. rewrite lookup_empty. simpl.
  split; [set_solver|]. split; [|done]. intros _.
  repeat split; try done. apply not_elem_of_nil.
Qed.

(* ===================================================================== *)
(** * Further properties of the translator *)
(* ===================================================================== *)

Lemma falsy_iff (s : pystr) : falsy s = true <-> s = [].
Proof. by destruct s. Qed.

Section TranslatorPaths.

Context (unicode_lower : pystr -> pystr) (world : Type)
  (construct : provider -> pystr -> option exn)
  (translate : provider -> pystr -> pystr -> world -> outcome pystr * world).

#[local] Abbreviation translate_text' :=
  (translate_text unicode_lower world construct translate).
#[local] Abbreviation translate_text_path' :=
  (translate_text_path unicode_lower world construct translate).
#[local] Abbreviation clean := (clean_translated_text unicode_lower).

(** Every call of [translate_text] takes one of the paths. *)
Lemma translate_text_paths text lang (st : state world) :
  translate_text_path' text lang st (translate_text' text lang st).
Proof.
  destruct (decide (text = [])) as [->|Ht]; [by constructor|].
  destruct (st_cache st !! cache_key lang text) as [v|] eqn:Hc.
  { rewrite (translate_text_hit _ _ _ _ text lang st v) by done. by constructor. }
  destruct (construct Google lang) as [e|] eqn:Hg.
  { rewrite (translate_text_ctor_raises _ _ _ _ text lang st e) by done.
    by constructor. }
  destruct (translate Google lang text (st_world st)) as [[raw1|e] w1] eqn:Htr.
  - rewrite (translate_text_primary _ _ _ _ text lang st raw1 w1) by done.
    destruct (falsy (clean raw1)) eqn:Hf.
    + apply falsy_iff in Hf.
      destruct (construct MyMemory lang) as [e|] eqn:Hm;
        [by eapply path_no_fallback|].
      destruct (translate MyMemory lang text w1) as [[raw2|e] w2] eqn:Htr2;
        eapply path_fallback; eauto.
    + apply path_primary; try done. intros H. by rewrite H in Hf.
  - rewrite (translate_text_call_raises _ _ _ _ text lang st e w1) by done.
    by constructor.
Qed.

(** X5. [translate_text] touches no file and never removes or changes an
    entry of the cache: every entry is kept, and an entry that is new has
    the key of the request and the string the call returned as its value. *)
Theorem translate_text_cache_grows text lang (st : state world) :
  let result := translate_text' text lang st in
  st_files result.2 = st_files st
  /\ st_cache st ⊆ st_cache result.2
  /\ (forall key v,
        st_cache result.2 !! key = Some v ->
        st_cache st !! key = Some v
        \/ (key = cache_key lang text /\ result.1 = Returned v
            /\ st_cache st !! key = None)).
Proof.
  intros result. subst result.
  destruct (translate_text_paths text lang st);
    cbn [fst snd stored logged st_files st_cache];
    (split; [done|]);
    try (split; [done|]; intros key v' Hk; by left).
  all: split; [by apply insert_subseteq|];
    intros key v' Hk; apply lookup_insert_Some in Hk as [[<- <-]|[_ Hk]];
    [by right | by left].
Qed.

(** X6. One call of [translate_text] calls each provider at most once.
    Every network call it makes is for the language and the text of the
    request, and is made only for a text that is not empty and whose key is
    not in the cache. The fallback provider is called only after the
    primary provider has returned an output that is cleaned to the empty
    string. *)
Theorem translate_text_calls text lang (st : state world) :
  let evs := events_between st (translate_text' text lang st).2 in
  ((calls_to Google evs <= 1)%nat /\ (calls_to MyMemory evs <= 1)%nat)
  /\ (forall p source txt,
        EvCall p source txt ∈ evs ->
        source = lang /\ txt = text /\ text <> []
        /\ st_cache st !! cache_key lang text = None)
  /\ (forall source txt,
        EvCall MyMemory source txt ∈ evs ->
        exists raw w,
          translate Google lang text (st_world st) = (Returned raw, w)
          /\ clean raw = []
          /\ evs = [EvCall Google lang text; EvCall MyMemory lang text; EvSleep]).
Proof.
  intros evs. subst evs.
  destruct (translate_text_paths text lang st);
    cbn [snd]; unfold stored, logged;
    rewrite ?events_between_refl, ?events_between_app.
  all: split; [split; cbn; lia|].
  all: split;
    [ intros p source txt Hin;
      repeat (apply elem_of_cons in Hin as [Hin|Hin];
              [try discriminate; injection Hin as -> -> ->; done|]);
      by apply elem_of_nil in Hin
    | intros source txt Hin;
      repeat (apply elem_of_cons in Hin as [Hin|Hin]; [try discriminate|]);
      try (by apply elem_of_nil in Hin); eauto ].
Qed.

End TranslatorPaths.

(* ===================================================================== *)
(** * Further properties of the cache store *)
(* ===================================================================== *)

(** A surrogate is written as it is. *)
Lemma escape_char_surrogate c :
  is_surrogate c = true -> Json.escape_char c = [c].
Proof.
  unfold is_surrogate. intros [H1%N.leb_le _]%andb_true_iff.
  unfold Json.escape_char, quote, backslash.
  repeat match goal with
         | |- context [c =? ?y] => destruct (N.eqb_spec c y) as [->|_]; [lia|]
         end.
  destruct (N.ltb_spec c 32); [lia|done].
Qed.

(** A string literal can be encoded exactly when the string can. *)
Lemma encode_basestring_encodable s :
  utf8_encodable (Json.encode_basestring s) = utf8_encodable s.
Proof.
  destruct (utf8_encodable s) eqn:Hs.
  { by apply plain_encodable, encode_basestring_plain. }
  unfold Json.encode_basestring, utf8_encodable in *. cbn [forallb].
  rewrite forallb_app. change (negb (is_surrogate quote)) with true. cbn [andb].
  apply andb_false_iff. left.
  induction s as [|c s IH]; [discriminate|].
  cbn [flat_map]. rewrite forallb_app. simpl in Hs.
  destruct (is_surrogate c) eqn:Hc.
  - rewrite escape_char_surrogate by done. simpl. by rewrite Hc.
  - simpl in Hs. rewrite IH by done. apply andb_false_r.
Qed.

Lemma member_chunks_encodable first items :
  forallb utf8_encodable (Json.member_chunks first items)
  = forallb item_encodable items.
Proof.
  revert first. induction items as [|[key value] items IH]; intros first;
    [reflexivity|].
  cbn [Json.member_chunks]. rewrite forallb_app. cbn [forallb app].
  rewrite !encode_basestring_encodable, IH.
  change (utf8_encodable Json.key_separator) with true.
  unfold item_encodable at 1. cbn [fst snd andb].
  destruct first; cbn [forallb]; [|change (utf8_encodable Json.item_separator) with true];
    cbn [andb]; by rewrite andb_assoc.
Qed.

Lemma iterencode_encodable (cache : gmap pystr pystr) :
  forallb utf8_encodable (Json.iterencode cache)
  = forallb item_encodable (map_to_list cache).
Proof.
  unfold Json.iterencode. destruct (map_to_list cache) as [|item items];
    [reflexivity|].
  cbn [app forallb]. rewrite forallb_app, member_chunks_encodable.
  change (utf8_encodable [ch "{"]) with true.
  change (utf8_encodable Json.newline_indent) with true.
  cbn [andb forallb]. change (utf8_encodable [10]) with true.
  change (utf8_encodable [ch "}"]) with true. cbn [andb].
  by rewrite andb_true_r.
Qed.

Lemma encodable_cache_items (cache : gmap pystr pystr) :
  encodable_cache cache <-> forallb item_encodable (map_to_list cache) = true.
Proof.
  rewrite forallb_forall. unfold encodable_cache, item_encodable. split.
  - intros H [key value] Hin%list_elem_of_In%elem_of_map_to_list.
    destruct (H key value Hin) as [Hk Hv]. simpl. by rewrite Hk, Hv.
  - intros H key value Hin%elem_of_map_to_list%list_elem_of_In.
    by apply H, andb_true_iff in Hin.
Qed.

Lemma encodable_prefix_all chunks :
  forallb utf8_encodable chunks = true -> encodable_prefix chunks = chunks.
Proof.
  induction chunks as [|chunk chunks IH]; simpl; [done|].
  intros [-> H]%andb_true_iff. by rewrite IH.
Qed.

Section CacheOutcome.

Context (world : Type).

(** Writing chunks one by one stops at the first that cannot be encoded:
    the chunks before it are in the file. *)
Lemma for_each_file_write_prefix (path : pystr) (chunks : list pystr) :
  forall (content : pystr) (st : state world),
  st_files st !! path = Some content ->
  for_each world (file_write world path) chunks st
  = (if forallb utf8_encodable chunks then Returned tt
     else Raised UnicodeEncodeError,
     State (st_cache st)
       (<[path := content ++ concat (encodable_prefix chunks)]> (st_files st))
       (st_world st) (st_trace st)).
Proof.
  induction chunks as [|chunk chunks IH]; intros content st Hfile.
  - simpl. rewrite app_nil_r, insert_id by done. by destruct st.
  - cbn [for_each forallb encodable_prefix]. unfold mbind, M_bind, file_write.
    destruct (utf8_encodable chunk).
    + rewrite Hfile. cbn [set_file default].
      rewrite (IH (content ++ chunk)) by apply lookup_insert_eq.
      cbn [st_cache st_files st_world st_trace concat andb].
      by rewrite insert_insert_eq, <- app_assoc.
    + simpl. rewrite app_nil_r, insert_id by done. by destruct st.
Qed.

(** What [save_cache] does, in all cases. *)
Lemma save_cache_result cache (st : state world) :
  save_cache world cache st
  = (if forallb item_encodable (map_to_list cache) then Returned tt
     else Raised UnicodeEncodeError,
     with_cache_file world st
       (concat (encodable_prefix (Json.iterencode cache)))).
Proof.
  unfold save_cache, mbind, M_bind, open_w. cbn [set_file].
  rewrite (for_each_file_write_prefix _ _ []) by apply lookup_insert_eq.
  cbn [st_cache st_files st_world st_trace app].
  unfold with_cache_file. by rewrite insert_insert_eq, iterencode_encodable.
Qed.

(** X7. [save_cache] changes nothing but the cache file. When no key and no
    value of the mapping holds a surrogate it returns, and the file holds
    the JSON text of the mapping, whatever it held before. Otherwise it
    raises [UnicodeEncodeError], and the file is left with a proper prefix
    of that text: what it held before is lost. *)
Theorem save_cache_outcome cache (st : state world) :
  let result := save_cache world cache st in
  (st_cache result.2 = st_cache st /\ st_world result.2 = st_world st
   /\ st_trace result.2 = st_trace st
   /\ forall path, path <> TRANSLATION_CACHE_FILE ->
        st_files result.2 !! path = st_files st !! path)
  /\ (encodable_cache cache ->
      result.1 = Returned tt
      /\ st_files result.2 !! TRANSLATION_CACHE_FILE
         = Some (concat (Json.iterencode cache)))
  /\ (~ encodable_cache cache ->
      result.1 = Raised UnicodeEncodeError
      /\ exists kept lost,
           lost <> []
           /\ concat (Json.iterencode cache) = kept ++ lost
           /\ st_files result.2 !! TRANSLATION_CACHE_FILE = Some kept).
Proof.
  intros result. subst result. rewrite save_cache_result.
  cbn [fst snd with_cache_file st_cache st_files st_world st_trace].
  split; [|split].
  - repeat split. intros path Hp. by rewrite lookup_insert_ne.
  - intros Hc%encodable_cache_items. rewrite Hc, lookup_insert_eq.
    by rewrite encodable_prefix_all by (by rewrite iterencode_encodable).
  - intros Hc. rewrite encodable_cache_items in Hc.
    apply not_true_is_false in Hc. rewrite Hc. split; [done|].
    rewrite lookup_insert_eq. rewrite <- iterencode_encodable in Hc.
    exists (concat (encodable_prefix (Json.iterencode cache))).
    induction (Json.iterencode cache) as [|chunk chunks IH]; [discriminate|].
    cbn [forallb encodable_prefix concat] in *.
    destruct (utf8_encodable chunk) eqn:Hchunk.
    + destruct (IH Hc) as (lost & Hl & Heq & _). exists lost.
      split; [done|]. split; [|done]. cbn [concat]. by rewrite <- app_assoc, <- Heq.
    + exists (chunk ++ concat chunks). split; [|done].
      destruct chunk; [discriminate Hchunk|done].
Qed.

End CacheOutcome.

(** The decoder on a key and its colon. *)
Lemma members_key fuel key rest acc :
  Json.members (S fuel)
    (flat_map Json.escape_char key ++ quote :: ch ":" :: 32 :: rest) acc
  = match Json.scan_once fuel (Json.skip_ws rest) with
    | None => None
    | Some (v, s3) => after_member fuel s3 (<[key := v]> acc)
    end.
Proof.
  change (Json.members (S fuel) ?s acc)
    with (match Json.scanstring s with
          | None => None
          | Some (k, s1) =>
              match Json.skip_ws s1 with
              | c :: s2 =>
                  if c =? ch ":" then
                    match Json.scan_once fuel (Json.skip_ws s2) with
                    | None => None
                    | Some (v, s3) => after_member fuel s3 (<[k := v]> acc)
                    end
                  else None
              | [] => None
              end
          end).
  rewrite scanstring_escape.
  change (Json.skip_ws (ch ":" :: 32 :: rest)) with (ch ":" :: 32 :: rest).
  change (ch ":" =? ch ":") with true. cbv iota.
  change (Json.skip_ws (32 :: rest)) with (Json.skip_ws rest). reflexivity.
Qed.

(** The text written for a member and those after it, up to the first chunk
    that cannot be encoded. *)
Lemma encodable_prefix_member first key value items tail :
  concat (encodable_prefix
            (Json.member_chunks first ((key, value) :: items) ++ tail))
  = (if first then [] else Json.item_separator)
    ++ (if utf8_encodable key then
          Json.encode_basestring key ++ Json.key_separator
          ++ (if utf8_encodable value then
                Json.encode_basestring value
                ++ concat (encodable_prefix
                             (Json.member_chunks false items ++ tail))
              else [])
        else []).
Proof.
  cbn [Json.member_chunks].
  assert (forall l,
    concat (encodable_prefix
              ([Json.encode_basestring key; Json.key_separator;
                Json.encode_basestring value] ++ l))
    = (if utf8_encodable key then
         Json.encode_basestring key ++ Json.key_separator
         ++ (if utf8_encodable value then
               Json.encode_basestring value ++ concat (encodable_prefix l)
             else [])
       else [])) as Hmember.
  { intros l. cbn [app encodable_prefix]. rewrite !encode_basestring_encodable.
    change (utf8_encodable Json.key_separator) with true. cbv iota.
    destruct (utf8_encodable key); [|reflexivity].
    destruct (utf8_encodable value); cbn [concat]; by rewrite ?app_nil_r. }
  destruct first; cbn [app].
  - exact (Hmember _).
  - cbn [encodable_prefix]. change (utf8_encodable Json.item_separator) with true.
    cbv iota. cbn [concat]. f_equal. exact (Hmember _).
Qed.

Lemma member_prefix_undecodable key value rest :
  (utf8_encodable key && utf8_encodable value = true ->
   forall fuel acc, after_member fuel rest acc = None) ->
  let text :=
    if utf8_encodable key then
      Json.encode_basestring key ++ Json.key_separator
      ++ (if utf8_encodable value then Json.encode_basestring value ++ rest
          else [])
    else [] in
  text = []
  \/ exists s5, text = quote :: s5
                /\ forall fuel acc, Json.members fuel s5 acc = None.
Proof.
  intros Hrest text. subst text.
  destruct (utf8_encodable key); [right|by left].
  exists (flat_map Json.escape_char key ++ quote :: ch ":" :: 32
          :: (if utf8_encodable value
              then quote :: flat_map Json.escape_char value ++ quote :: rest
              else [])).
  split.
  { unfold Json.encode_basestring, Json.key_separator. cbn [app].
    rewrite <- app_assoc. cbn [app]. do 4 f_equal.
    destruct (utf8_encodable value); [|reflexivity].
    cbn [app]. by rewrite <- app_assoc. }
  intros [|fuel] acc; [reflexivity|]. rewrite members_key.
  destruct (utf8_encodable value).
  - change (Json.skip_ws (quote :: ?s)) with (quote :: s).
    destruct fuel as [|fuel]; [reflexivity|].
    rewrite scan_once_string. by apply Hrest.
  - by destruct fuel.
Qed.

Lemma members_prefix_undecodable items tail : forall fuel acc,
  forallb item_encodable items = false ->
  after_member fuel
    (concat (encodable_prefix (Json.member_chunks false items ++ tail))) acc
  = None.
Proof.
  induction items as [|[key value] items IH]; [discriminate|].
  intros fuel acc Hitems. rewrite encodable_prefix_member.
  destruct (member_prefix_undecodable key value
              (concat (encodable_prefix (Json.member_chunks false items ++ tail))))
    as [-> | (s5 & -> & Hs5)].
  - intros Hkv fuel' acc'. apply IH. cbn [forallb] in Hitems.
    unfold item_encodable in Hitems at 1. cbn [fst snd] in Hitems.
    by rewrite Hkv in Hitems.
  - reflexivity.
  - change (after_member fuel (Json.item_separator ++ quote :: s5) acc)
      with (Json.members fuel s5 acc).
    apply Hs5.
Qed.

(** The text a failed [save_cache] leaves is not JSON. *)
Lemma iterencode_prefix_undecodable (cache : gmap pystr pystr) :
  forallb item_encodable (map_to_list cache) = false ->
  Json.decode (concat (encodable_prefix (Json.iterencode cache))) = None.
Proof.
  unfold Json.iterencode.
  destruct (map_to_list cache) as [|[key value] items]; [discriminate|].
  intros Hitems. cbn [app].
  change (encodable_prefix ([ch "{"] :: Json.newline_indent :: ?l))
    with ([ch "{"] :: Json.newline_indent :: encodable_prefix l).
  cbn [concat]. rewrite encodable_prefix_member.
  destruct (member_prefix_undecodable key value
              (concat (encodable_prefix
                         (Json.member_chunks false items ++ [[10]; [ch "}"]]))))
    as [-> | (s5 & -> & Hs5)].
  - intros Hkv fuel' acc'. apply members_prefix_undecodable.
    cbn [forallb] in Hitems. unfold item_encodable in Hitems at 1.
    cbn [fst snd] in Hitems. by rewrite Hkv in Hitems.
  - unfold Json.decode. by destruct (2 * _ + 2)%nat as [|[|fuel]].
  - unfold Json.decode. destruct (2 * _ + 2)%nat as [|fuel]; [reflexivity|].
    change (Json.scan_once (S fuel) _) with (Json.members fuel s5 ∅).
    by rewrite Hs5.
Qed.

Lemma member_chunks_prefix_plain items tail : forall first,
  forallb plain (concat (encodable_prefix tail)) = true ->
  forallb plain
    (concat (encodable_prefix (Json.member_chunks first items ++ tail))) = true.
Proof.
  intros first Htail. revert first.
  induction items as [|[key value] items IH]; intros first; [exact Htail|].
  rewrite encodable_prefix_member, forallb_app.
  apply andb_true_iff. split; [by destruct first|].
  destruct (utf8_encodable key) eqn:Hk; [|reflexivity].
  rewrite !forallb_app, encode_basestring_plain by done.
  destruct (utf8_encodable value) eqn:Hv; [|reflexivity].
  by rewrite forallb_app, encode_basestring_plain, IH.
Qed.

Lemma iterencode_prefix_plain (cache : gmap pystr pystr) :
  forallb plain (concat (encodable_prefix (Json.iterencode cache))) = true.
Proof.
  unfold Json.iterencode.
  destruct (map_to_list cache) as [|item items]; [reflexivity|].
  cbn [app].
  change (encodable_prefix ([ch "{"] :: Json.newline_indent :: ?l))
    with ([ch "{"] :: Json.newline_indent :: encodable_prefix l).
  cbn [concat]. rewrite !forallb_app.
  by rewrite member_chunks_prefix_plain.
Qed.

Section CacheFailure.

Context (world : Type).

(** X8. A [save_cache] that fails leaves a cache file that cannot be read:
    when a key or a value of the mapping holds a surrogate, [save_cache]
    raises [UnicodeEncodeError] and the next [load_cache] raises
    [JSONDecodeError]. *)
Theorem failed_save_breaks_load cache (st : state world) :
  ~ encodable_cache cache ->
  let saved := save_cache world cache st in
  saved.1 = Raised UnicodeEncodeError
  /\ load_cache world saved.2 = (Raised JSONDecodeError, saved.2).
Proof.
  intros Hc saved. subst saved. rewrite save_cache_result.
  rewrite encodable_cache_items in Hc. apply not_true_is_false in Hc.
  rewrite Hc. split; [reflexivity|]. cbn [snd].
  unfold load_cache, mbind, M_bind, path_exists, with_cache_file.
  cbn [st_files]. rewrite lookup_insert_eq.
  rewrite bool_decide_true by eauto.
  unfold read_text. cbn [st_files]. rewrite lookup_insert_eq.
  rewrite plain_universal_newlines by apply iterencode_prefix_plain.
  by rewrite iterencode_prefix_undecodable.
Qed.

End CacheFailure.

Lemma universal_newlines_blank (s : pystr) :
  (forallb Json.whitespace s = true ->
   forallb Json.whitespace (universal_newlines s) = true)
  /\ forall c, forallb Json.whitespace (c :: s) = true ->
       forallb Json.whitespace (universal_newlines (c :: s)) = true.
Proof.
  induction s as [|d s [IH1 IH2]].
  - split; [done|]. intros c. simpl. by destruct (c =? 13).
  - split; [apply IH2|]. intros c Hc.
    change (universal_newlines (c :: d :: s))
      with (if c =? 13
            then 10 :: (if d =? 10 then universal_newlines s
                        else universal_newlines (d :: s))
            else c :: universal_newlines (d :: s)).
    cbn [forallb] in Hc. apply andb_true_iff in Hc as [Hc Hds].
    destruct (c =? 13); cbn [forallb].
    + change (Json.whitespace 10) with true. cbn [andb].
      destruct (d =? 10); [|by apply IH2].
      cbn [forallb] in Hds. apply andb_true_iff in Hds as [_ Hs]. by apply IH1.
    + rewrite Hc. by apply IH2.
Qed.

(** A text of whitespace only is not JSON. *)
Lemma decode_blank (s : pystr) :
  forallb Json.whitespace s = true -> Json.decode s = None.
Proof.
  intros Hs. unfold Json.decode.
  assert (Json.skip_ws s = []) as ->.
  { induction s as [|c s IH]; [done|]. simpl in *.
    apply andb_true_iff in Hs as [-> Hs]. by apply IH. }
  by destruct (2 * _ + 2)%nat.
Qed.

Section CacheLoad.

Context (world : Type).

(** X9. [load_cache] only reads: it leaves the state as it was. With no
    cache file it returns the empty dict; with a cache file that is empty
    or holds only whitespace it raises [JSONDecodeError]. *)
Theorem load_cache_edge_cases (st : state world) :
  (load_cache world st).2 = st
  /\ (st_files st !! TRANSLATION_CACHE_FILE = None ->
      (load_cache world st).1 = Returned (JObj ∅))
  /\ (forall text,
        st_files st !! TRANSLATION_CACHE_FILE = Some text ->
        forallb Json.whitespace text = true ->
        (load_cache world st).1 = Raised JSONDecodeError).
Proof.
  unfold load_cache, mbind, M_bind, path_exists, read_text.
  destruct (st_files st !! TRANSLATION_CACHE_FILE) as [text|] eqn:Hfile.
  - rewrite bool_decide_true by eauto. cbn [fst snd]. rewrite Hfile.
    split; [by destruct (Json.decode _)|]. split; [done|].
    intros ? [= <-] Hblank.
    by rewrite decode_blank by (by apply universal_newlines_blank).
  - rewrite bool_decide_false by (by intros [? ?]). split; [done|].
    split; [done|]. by intros.
Qed.

End CacheLoad.

(* ===================================================================== *)
(** * Further properties of the file processor *)
(* ===================================================================== *)

Section FileRuns.

Context (unicode_lower : pystr -> pystr) (world : Type)
  (construct : provider -> pystr -> option exn)
  (translate : provider -> pystr -> pystr -> world -> outcome pystr * world).

#[local] Abbreviation translate_text' :=
  (translate_text unicode_lower world construct translate).
#[local] Abbreviation process_record' :=
  (process_record unicode_lower world construct translate).
#[local] Abbreviation process_file' :=
  (process_file unicode_lower world construct translate).
#[local] Abbreviation record_processed' :=
  (record_processed unicode_lower world construct translate).

(** X10. In a record that [process_record] returns, [CleanedAnswer] is the
    cleaned [Generated] (the empty string when the key is missing), and
    [TranslatedAnswer] is what [translate_text] returns for it in the
    state the record started in; when the cleaned answer is empty,
    [TranslatedAnswer] is empty and nothing has happened. *)
Theorem process_record_generated lang data (st : state world) out st' :
  process_record' lang data st = (Returned out, st') ->
  exists generated translated st1,
    dict_get data (str "Generated") (JStr []) = JStr generated
    /\ out !! str "CleanedAnswer" = Some (JStr (clean_generated_answer generated))
    /\ translate_text' (clean_generated_answer generated) lang st
       = (Returned translated, st1)
    /\ out !! str "TranslatedAnswer" = Some (JStr translated)
    /\ (clean_generated_answer generated = [] -> translated = [] /\ st1 = st)
    /\ (data !! str "Generated" = None -> generated = []).
Proof.
  unfold process_record.
  intros (generated & st0 & [Hgen ->]%as_str_returned & H)%bind_returned.
  apply bind_returned in H as (data1 & st1 & Hdata1 & H).
  apply bind_returned in H as (items & st2 & _ & H).
  apply bind_returned in H as (ts & st3 & _ & H).
  apply mret_returned in H as [-> ->].
  remember (clean_generated_answer generated) as cleaned eqn:Hcleaned.
  assert (exists translated,
    translate_text' cleaned lang st = (Returned translated, st1)
    /\ (cleaned = [] -> translated = [] /\ st1 = st)
    /\ data1 = <[str "TranslatedAnswer" := JStr translated]>
                 (<[str "CleanedAnswer" := JStr cleaned]> data))
    as (translated & Htr & Hempty & ->).
  { unfold truthy in Hdata1. destruct cleaned as [|c rest].
    - apply mret_returned in Hdata1 as [-> ->]. by exists [].
    - cbn [falsy negb] in Hdata1.
      apply bind_returned in Hdata1 as (translated & st4 & Htr & H).
      apply mret_returned in H as [-> ->]. exists translated. done. }
  subst cleaned. exists generated, translated, st1. split; [done|].
  split; [by rewrite !lookup_insert_ne, lookup_insert_eq by (by vm_compute)|].
  split; [done|].
  split; [by rewrite lookup_insert_ne, lookup_insert_eq by (by vm_compute)|].
  split; [done|]. intros Hmissing. unfold dict_get in Hgen.
  rewrite Hmissing in Hgen. by injection Hgen.
Qed.

(** When the loop returns it has counted and written every line. *)
Lemma process_lines_returned output_path language lang_code lines :
  forall n (st : state world) count st',
  process_lines unicode_lower world construct translate
    output_path language lang_code lines n st = (Returned count, st') ->
  count = (n + length lines)%nat
  /\ exists evs,
       st_trace st' = st_trace st ++ evs
       /\ Forall2 (record_processed' lang_code) lines (written evs).
Proof.
  induction lines as [|line lines IH]; intros n st count st'.
  - intros [-> ->]%mret_returned. split; [simpl; lia|].
    exists []. rewrite app_nil_r. split; [done|constructor].
  - cbn [process_lines].
    intros (data & st0 & [Hdec ->]%parse_record_returned & H)%bind_returned.
    apply bind_returned in H as (out & st1 & Hrec & H).
    apply bind_returned in H as ([] & st2 & Hwrite & H).
    apply bind_returned in H as ([] & st3 & Hcheck & H).
    apply IH in H as (-> & evs3 & Ht3 & Hrest).
    split; [simpl; lia|].
    destruct (quiet_process_record unicode_lower world construct translate
                lang_code data st) as (evs1 & Ht1 & Hw1).
    rewrite Hrec in Ht1. cbn [snd] in Ht1.
    unfold write_record in Hwrite. destruct (forallb _ _); [|discriminate].
    injection Hwrite as <-.
    destruct (quiet_checkpoint world language (S n)
                (State (st_cache st1) (st_files st1) (st_world st1)
                   (st_trace st1 ++ [EvWrite output_path out])))
      as (evs2 & Ht2 & Hw2).
    rewrite Hcheck in Ht2. cbn [snd st_trace] in Ht2.
    exists (evs1 ++ [EvWrite output_path out] ++ evs2 ++ evs3).
    rewrite Ht3, Ht2, Ht1, !written_app, Hw1, Hw2.
    split; [by rewrite <- !app_assoc|].
    simpl. constructor; [|done]. by exists data, st, st1.
Qed.

(** What holds once [process_file] has returned. *)
Lemma process_file_returned input_path output_path language
    (st st' : state world) :
  process_file' input_path output_path language st = (Returned tt, st') ->
  let lines := input_lines world input_path output_path st in
  exists evs,
    st_trace st' = st_trace st ++ evs
    /\ Forall2 (record_processed' (get_language_code language)) lines (written evs)
    /\ last evs
       = Some (EvPrint (str "Completed " ++ language ++ str ": "
                        ++ decimal (length lines) ++ str " entries"))
    /\ encodable_cache (st_cache st')
    /\ st_files st' !! TRANSLATION_CACHE_FILE
       = Some (concat (Json.iterencode (st_cache st'))).
Proof.
  intros H lines. unfold process_file in H.
  apply bind_returned in H as (text0 & st0 & [_ ->]%read_text_returned & H).
  apply bind_returned in H as ([] & st1 & [= <-] & H).
  apply bind_returned in H as (text & st2 & [Htext ->]%read_text_returned & H).
  apply bind_returned in H as (count & st3 & Hlines & H).
  apply bind_returned in H as (cache & st4 & [= <- <-] & H).
  apply bind_returned in H as ([] & st5 & Hsave & H).
  injection H as <-.
  cbn [st_files] in Htext.
  assert (lines = readlines text) as Hl.
  { subst lines. unfold input_lines.
    destruct (_ !! input_path); [|discriminate]. by injection Htext as <-. }
  apply process_lines_returned in Hlines as (-> & evs & Ht & Hrecs).
  cbn [st_trace] in Ht. rewrite <- Hl in *.
  rewrite save_cache_result in Hsave.
  destruct (forallb item_encodable _) eqn:Henc; [|discriminate].
  injection Hsave as <-.
  cbn [st_trace st_cache st_files with_cache_file].
  eexists (evs ++ [EvPrint _]).
  rewrite Ht, written_app, app_nil_r, last_snoc, <- app_assoc.
  split; [done|]. split; [done|]. split; [done|].
  split; [by apply encodable_cache_items|].
  rewrite lookup_insert_eq.
  by rewrite encodable_prefix_all by (by rewrite iterencode_encodable).
Qed.

(** X11. When [process_file] returns, the input file existed, one record
    has been written for every line of the input, in the order of the
    lines, and the last thing printed is the completion message with the
    number of lines. *)
Theorem process_file_complete input_path output_path language
    (st st' : state world) :
  process_file' input_path output_path language st = (Returned tt, st') ->
  let lines := input_lines world input_path output_path st in
  let evs := events_between st st' in
  is_Some (st_files st !! input_path)
  /\ Forall2 (record_processed' (get_language_code language)) lines (written evs)
  /\ length (written evs) = length lines
  /\ last evs
     = Some (EvPrint (str "Completed " ++ language ++ str ": "
                      ++ decimal (length lines) ++ str " entries")).
Proof.
  intros Hret lines evs. subst evs.
  pose proof Hret as (evs & Ht & Hrecs & Hlast & _)%process_file_returned.
  unfold events_between. rewrite Ht, drop_app_length.
  split; [|split; [done|split; [|done]]].
  - unfold process_file in Hret.
    apply bind_returned in Hret as (? & ? & [H _]%read_text_returned & _).
    destruct (st_files st !! input_path); [eauto|discriminate].
  - symmetry. by eapply Forall2_length.
Qed.

(** X12. When [process_file] returns, the cache file holds the cache as it
    is in memory: a [load_cache] that follows returns it. *)
Theorem process_file_saves_cache input_path output_path language
    (st st' : state world) :
  process_file' input_path output_path language st = (Returned tt, st') ->
  encodable_cache (st_cache st')
  /\ load_cache world st' = (Returned (JObj (JStr <$> st_cache st')), st').
Proof.
  intros (evs & _ & _ & _ & Henc & Hfile)%process_file_returned.
  split; [done|].
  apply (load_cache_read _ _ _ _ Hfile).
  rewrite plain_universal_newlines
    by (by apply forallb_plain_concat, iterencode_plain).
  apply iterencode_decoded.
Qed.

(** X13. A line of the input that is not a JSON object (a blank line, for
    one) stops the run: [process_file] raises, no record is written for
    that line or a later one, and so no more records than there are lines
    before it. *)
Theorem process_file_malformed_line input_path output_path language
    (st : state world) i line :
  input_lines world input_path output_path st !! i = Some line ->
  (forall data, Json.decode line <> Some (JObj data)) ->
  let result := process_file' input_path output_path language st in
  (exists e, result.1 = Raised e)
  /\ (length (written (events_between st result.2)) <= i)%nat.
Proof.
  intros Hline Hbad result. subst result.
  destruct (process_file_trace unicode_lower world construct translate
              input_path output_path language st) as (evs & Ht & Hrecs).
  assert (length (written evs) <= i)%nat as Hlen.
  { destruct (decide (length (written evs) <= i)%nat) as [|Hgt]; [done|].
    exfalso. unfold records_processed in Hrecs.
    assert (take (length (written evs))
              (input_lines world input_path output_path st) !! i = Some line)
      as Hi by (rewrite lookup_take_lt by lia; done).
    destruct (Forall2_lookup_l _ _ _ _ _ Hrecs Hi)
      as (out & _ & data & _ & _ & Hdec & _).
    by apply (Hbad data). }
  split.
  - destruct (process_file' input_path output_path language st)
      as [[[]|e] st'] eqn:Hret; [|eauto].
    exfalso. apply process_file_returned in Hret as (evs' & Ht' & Hrecs' & _).
    cbn [snd] in Ht. rewrite Ht' in Ht. apply app_inv_head in Ht as ->.
    apply Forall2_length in Hrecs'. apply lookup_lt_Some in Hline. lia.
  - unfold events_between. by rewrite Ht, drop_app_length.
Qed.

End FileRuns.

(* ===================================================================== *)
(** * What a run touches *)
(* ===================================================================== *)

(** ** What every step of a run keeps *)

Section Keeps.

Context {world : Type} (R : relation (state world)).
Context (R_refl : forall st, R st st)
  (R_trans : forall st1 st2 st3, R st1 st2 -> R st2 st3 -> R st1 st3).

Lemma keeps_same {A} (m : M world A) :
  (forall st, (m st).2 = st) -> keeps R m.
Proof. intros H st. rewrite H. apply R_refl. Qed.

Lemma keeps_ret {A} (a : A) : keeps R (mret a).
Proof. by apply keeps_same. Qed.

Lemma keeps_raise {A} e : keeps R (raise world (A := A) e).
Proof. by apply keeps_same. Qed.

Lemma keeps_bind {A B} (m : M world A) (f : A -> M world B) :
  keeps R m -> (forall a, keeps R (f a)) -> keeps R (m ≫= f).
Proof.
  intros Hm Hf st. unfold mbind, M_bind. specialize (Hm st).
  destruct (m st) as [[a|e] st1]; [|exact Hm].
  eapply R_trans; [exact Hm | apply Hf].
Qed.

Lemma keeps_try_except {A} (m : M world A) (h : exn -> M world A) :
  keeps R m -> (forall e, keeps R (h e)) -> keeps R (try_except world m h).
Proof.
  intros Hm Hh st. unfold try_except. specialize (Hm st).
  destruct (m st) as [[a|e] st1]; [exact Hm|].
  eapply R_trans; [exact Hm | apply Hh].
Qed.

Lemma keeps_for_each {A} (f : A -> M world unit) l :
  (forall x, keeps R (f x)) -> keeps R (for_each world f l).
Proof.
  intros Hf. induction l as [|x l IH]; simpl; [apply keeps_ret|].
  apply keeps_bind; [apply Hf | intros; apply IH].
Qed.

End Keeps.

Lemma keeps_weaken {world A} (R R' : relation (state world)) (m : M world A) :
  (forall st st', R st st' -> R' st st') -> keeps R m -> keeps R' m.
Proof. intros HR Hm st. apply HR, Hm. Qed.

Section Frame.

Context (unicode_lower : pystr -> pystr) (world : Type)
  (construct : provider -> pystr -> option exn)
  (translate : provider -> pystr -> pystr -> world -> outcome pystr * world).

#[local] Abbreviation translate_text' :=
  (translate_text unicode_lower world construct translate).
#[local] Abbreviation process_record' :=
  (process_record unicode_lower world construct translate).
#[local] Abbreviation process_file' :=
  (process_file unicode_lower world construct translate).
#[local] Abbreviation main' := (main unicode_lower world construct translate).

Lemma files_and_events_refl lang out (st : state world) :
  files_and_events lang out st st.
Proof. split; [done|]. exists []. by rewrite app_nil_r. Qed.

Lemma files_and_events_trans lang out (st1 st2 st3 : state world) :
  files_and_events lang out st1 st2 -> files_and_events lang out st2 st3 ->
  files_and_events lang out st1 st3.
Proof.
  intros (Hf1 & evs1 & Ht1 & He1) (Hf2 & evs2 & Ht2 & He2). split.
  - intros path Ho Hc. by rewrite Hf2, Hf1.
  - exists (evs1 ++ evs2). rewrite Ht2, Ht1, app_assoc. split; [done|].
    by apply Forall_app.
Qed.

Lemma run_step_refl lang out (st : state world) : run_step lang out st st.
Proof. split; [done | apply files_and_events_refl]. Qed.

Lemma run_step_trans lang out (st1 st2 st3 : state world) :
  run_step lang out st1 st2 -> run_step lang out st2 st3 ->
  run_step lang out st1 st3.
Proof.
  intros [Hc1 H1] [Hc2 H2].
  split; [by etrans | by eapply files_and_events_trans].
Qed.

(** A step that changes the cache and the world and adds events. *)
Lemma run_step_events lang out (st : state world) c w evs :
  st_cache st ⊆ c -> Forall (event_ok lang out) evs ->
  run_step lang out st (State c (st_files st) w (st_trace st ++ evs)).
Proof. intros Hc Hevs. split; [done|]. split; [done|]. eauto. Qed.

(** A step that changes one of the two files. *)
Lemma run_step_file lang out (st : state world) path content :
  path = out \/ path = TRANSLATION_CACHE_FILE ->
  run_step lang out st
    (State (st_cache st) (<[path := content]> (st_files st)) (st_world st)
       (st_trace st)).
Proof.
  intros Hpath. split; [done|]. split.
  - intros p Ho Hc. cbn [st_files]. rewrite lookup_insert_ne; [done|].
    by destruct Hpath as [-> | ->].
  - exists []. by rewrite app_nil_r.
Qed.

Lemma keeps_print lang out line :
  keeps (run_step lang out) (print world line).
Proof.
  intros st. apply run_step_events; [done|]. by repeat constructor.
Qed.

Lemma keeps_translate_text lang out text :
  keeps (run_step lang out) (translate_text' text lang).
Proof.
  intros st.
  destruct (translate_text_paths unicode_lower world construct translate
              text lang st); cbn [snd]; unfold stored, logged;
    try apply run_step_refl;
    apply run_step_events; try done; try (by apply insert_subseteq);
    by repeat constructor.
Qed.

Lemma keeps_translate_answers lang out items : forall acc,
  keeps (run_step lang out)
    (translate_answers unicode_lower world construct translate lang items acc).
Proof.
  pose proof (run_step_refl lang out) as Hr.
  pose proof (run_step_trans lang out) as Ht.
  induction items as [|v items IH]; intros acc; simpl; [by apply keeps_ret|].
  apply keeps_bind; [done | destruct v; by (apply keeps_ret || apply keeps_raise)|].
  intros answer. apply keeps_bind; [done | apply keeps_translate_text|].
  intros translated. apply keeps_bind; [done | apply keeps_print|].
  intros _. apply IH.
Qed.

Lemma keeps_process_record lang out data :
  keeps (run_step lang out) (process_record' lang data).
Proof.
  pose proof (run_step_refl lang out) as Hr.
  pose proof (run_step_trans lang out) as Ht.
  unfold process_record.
  apply keeps_bind;
    [done | destruct (dict_get _ _ _); by (apply keeps_ret || apply keeps_raise)|].
  intros generated. apply keeps_bind; [done| |].
  - destruct (truthy _); [|by apply keeps_ret].
    apply keeps_bind; [done | apply keeps_translate_text|].
    intros. by apply keeps_ret.
  - intros data1.
    apply keeps_bind;
      [done | destruct (dict_get _ _ _); by (apply keeps_ret || apply keeps_raise)|].
    intros items. apply keeps_bind; [done | apply keeps_translate_answers|].
    intros. by apply keeps_ret.
Qed.

Lemma keeps_save_cache lang out cache :
  keeps (run_step lang out) (save_cache world cache).
Proof.
  intros st. rewrite save_cache_result. cbn [snd]. unfold with_cache_file.
  apply run_step_file. by right.
Qed.

Lemma keeps_checkpoint lang out language n :
  keeps (run_step lang out) (checkpoint world language n).
Proof.
  pose proof (run_step_refl lang out) as Hr.
  pose proof (run_step_trans lang out) as Ht.
  unfold checkpoint. destruct (_ =? _)%nat; [|by apply keeps_ret].
  apply keeps_bind; [done | apply keeps_print|]. intros _.
  apply keeps_bind; [done | by apply keeps_same|]. apply keeps_save_cache.
Qed.

Lemma keeps_write_record lang out data :
  keeps (run_step lang out) (write_record world out data).
Proof.
  intros st. unfold write_record.
  destruct (forallb _ _); [|apply run_step_refl].
  apply run_step_events; [done|]. by repeat constructor.
Qed.

Lemma keeps_parse_record lang out line :
  keeps (run_step lang out) (parse_record world line).
Proof.
  apply keeps_same; [apply run_step_refl|]. intros st. unfold parse_record.
  destruct (Json.decode line) as [v|]; [|done]. by destruct v.
Qed.

Lemma keeps_read_text lang out path :
  keeps (run_step lang out) (read_text world path).
Proof.
  apply keeps_same; [apply run_step_refl|]. intros st. unfold read_text.
  by destruct (st_files st !! path).
Qed.

Lemma keeps_process_lines lang out language lines : forall n,
  keeps (run_step lang out)
    (process_lines unicode_lower world construct translate
       out language lang lines n).
Proof.
  pose proof (run_step_refl lang out) as Hr.
  pose proof (run_step_trans lang out) as Ht.
  induction lines as [|line lines IH]; intros n; cbn [process_lines];
    [by apply keeps_ret|].
  apply keeps_bind; [done | apply keeps_parse_record|]. intros data.
  apply keeps_bind; [done | apply keeps_process_record|]. intros out_data.
  apply keeps_bind; [done | apply keeps_write_record|]. intros _.
  apply keeps_bind; [done | apply keeps_checkpoint|]. intros _. apply IH.
Qed.

Lemma keeps_process_file input_path output_path language :
  keeps (run_step (get_language_code language) output_path)
    (process_file' input_path output_path language).
Proof.
  set (lang := get_language_code language).
  pose proof (run_step_refl lang output_path) as Hr.
  pose proof (run_step_trans lang output_path) as Ht.
  unfold process_file. fold lang.
  apply keeps_bind; [done | apply keeps_read_text|]. intros _.
  apply keeps_bind; [done| |].
  { intros st. unfold open_w, set_file. cbn [snd]. apply run_step_file. by left. }
  intros _. apply keeps_bind; [done | apply keeps_read_text|]. intros text.
  apply keeps_bind; [done | apply keeps_process_lines|]. intros count.
  apply keeps_bind; [done | by apply keeps_same|]. intros cache.
  apply keeps_bind; [done | apply keeps_save_cache|]. intros _.
  apply keeps_print.
Qed.

(** X14. [process_file], whether it returns or raises, keeps every entry
    of the cache, and changes no file but the output file and the cache
    file. *)
Theorem process_file_frame input_path output_path language (st : state world) :
  let st' := (process_file' input_path output_path language st).2 in
  st_cache st ⊆ st_cache st'
  /\ (forall path,
        path <> output_path -> path <> TRANSLATION_CACHE_FILE ->
        st_files st' !! path = st_files st !! path).
Proof.
  intros st'. subst st'.
  by destruct (keeps_process_file input_path output_path language st)
    as (Hc & Hf & _).
Qed.

(** X15. Every network call [process_file] makes has the code of its
    language as the source language and a text that is not empty, and
    every record it writes goes to the output file. *)
Theorem process_file_events input_path output_path language (st : state world) :
  let evs := events_between st
               (process_file' input_path output_path language st).2 in
  (forall p source text,
     EvCall p source text ∈ evs ->
     source = get_language_code language /\ text <> [])
  /\ (forall path data, EvWrite path data ∈ evs -> path = output_path).
Proof.
  intros evs. subst evs.
  destruct (keeps_process_file input_path output_path language st)
    as (_ & _ & evs & Ht & Hevs).
  unfold events_between. rewrite Ht, drop_app_length.
  rewrite Forall_forall in Hevs.
  split; [intros p source text Hin | intros path data Hin];
    exact (Hevs _ Hin).
Qed.

End Frame.

(** ** A run on a warm cache *)

Section WarmCache.

Context (unicode_lower : pystr -> pystr) (world : Type)
  (construct : provider -> pystr -> option exn)
  (translate : provider -> pystr -> pystr -> world -> outcome pystr * world).

#[local] Abbreviation translate_text' :=
  (translate_text unicode_lower world construct translate).
#[local] Abbreviation process_record' :=
  (process_record unicode_lower world construct translate).
#[local] Abbreviation process_file' :=
  (process_file unicode_lower world construct translate).

Lemma served_from_refl cache (st : state world) : served_from cache st st.
Proof. intros Hc. split; [done|]. split; [done|]. exists []. by rewrite app_nil_r. Qed.

Lemma served_from_trans cache (st1 st2 st3 : state world) :
  served_from cache st1 st2 -> served_from cache st2 st3 ->
  served_from cache st1 st3.
Proof.
  intros H1 H2 Hc. destruct (H1 Hc) as (Hc2 & Hw1 & evs1 & Ht1 & He1).
  destruct (H2 Hc2) as (Hc3 & Hw2 & evs2 & Ht2 & He2). split; [done|].
  split; [congruence|]. exists (evs1 ++ evs2). rewrite Ht2, Ht1, app_assoc. split; [done|].
  by apply Forall_app.
Qed.

Lemma served_from_print cache line :
  keeps (served_from cache) (print world line).
Proof.
  intros st Hc. split; [done|]. split; [done|]. exists [EvPrint line].
  split; [done|]. by repeat constructor.
Qed.

Lemma served_from_files cache (st : state world) files :
  served_from cache st (State (st_cache st) files (st_world st) (st_trace st)).
Proof. intros Hc. split; [done|]. split; [done|]. exists []. by rewrite app_nil_r. Qed.

Lemma served_from_translate_text cache lang text :
  cached cache lang text ->
  keeps (served_from cache) (translate_text' text lang).
Proof.
  intros Hcached st Hc.
  destruct Hcached as [->|[v Hv]]; [by apply served_from_refl|].
  destruct (decide (text = [])) as [->|Ht]; [by apply served_from_refl|].
  rewrite (translate_text_hit _ _ _ _ text lang st v) by (by rewrite ?Hc).
  by apply served_from_refl.
Qed.

Lemma keeps_bind_ret {A B} (R : relation (state world)) (a : A)
    (f : A -> M world B) :
  keeps R (f a) -> keeps R (mret a ≫= f).
Proof. intros H st. apply H. Qed.

Lemma keeps_bind_raise {A B} (R : relation (state world)) e
    (f : A -> M world B) :
  (forall st, R st st) -> keeps R (raise world e ≫= f).
Proof. intros H st. apply H. Qed.

Lemma served_from_translate_answers cache lang items :
  (forall text, text ∈ omap json_str items -> cached cache lang text) ->
  forall acc,
  keeps (served_from cache)
    (translate_answers unicode_lower world construct translate lang items acc).
Proof.
  pose proof (served_from_refl cache) as Hr.
  pose proof (served_from_trans cache) as Ht.
  induction items as [|v items IH]; intros Hitems acc; cbn [translate_answers];
    [by apply keeps_ret|].
  destruct v as [| | | |answer| |]; cbn [as_str];
    try (by apply keeps_bind_raise).
  apply keeps_bind_ret.
  apply keeps_bind; [done| |].
  - apply served_from_translate_text. apply Hitems. simpl. left.
  - intros translated. apply keeps_bind; [done | apply served_from_print|].
    intros _. apply IH. intros text Hin. apply Hitems. simpl. by right.
Qed.

(** A bind whose first part only returns values with the property [P]. *)
Lemma keeps_bind_post {A B} (R : relation (state world)) (P : A -> Prop)
    (m : M world A) (f : A -> M world B) :
  (forall st1 st2 st3, R st1 st2 -> R st2 st3 -> R st1 st3) ->
  (forall st a st', m st = (Returned a, st') -> P a) ->
  keeps R m -> (forall a, P a -> keeps R (f a)) -> keeps R (m ≫= f).
Proof.
  intros Htrans HP Hm Hf st. unfold mbind, M_bind. specialize (Hm st).
  destruct (m st) as [[a|e] st1] eqn:Hrun; [|exact Hm].
  eapply Htrans; [exact Hm | eapply Hf, HP, Hrun].
Qed.

Lemma served_from_process_record cache lang data :
  (forall text, text ∈ record_texts data -> cached cache lang text) ->
  keeps (served_from cache) (process_record' lang data).
Proof.
  pose proof (served_from_refl cache) as Hr.
  pose proof (served_from_trans cache) as Ht.
  intros Htexts. unfold process_record. unfold record_texts in Htexts.
  destruct (dict_get data (str "Generated") (JStr [])) as [| | | |generated| |];
    cbn [as_str]; try (by apply keeps_bind_raise).
  apply keeps_bind_ret.
  apply (keeps_bind_post _
           (fun data1 => dict_get data1 (str "Answer") (JArr [])
                         = dict_get data (str "Answer") (JArr []))); [done| | |].
  - intros st data1 st' Hdata1.
    assert (exists translated,
      data1 = <[str "TranslatedAnswer" := JStr translated]>
                (<[str "CleanedAnswer" :=
                     JStr (clean_generated_answer generated)]> data))
      as [translated ->].
    { destruct (truthy _).
      - apply bind_returned in Hdata1 as (translated & st4 & _ & H).
        apply mret_returned in H as [-> _]. eauto.
      - apply mret_returned in Hdata1 as [-> _]. eauto. }
    unfold dict_get. by rewrite !lookup_insert_ne by (by vm_compute).
  - destruct (truthy _); [|by apply keeps_ret].
    apply keeps_bind; [done| |intros; by apply keeps_ret].
    apply served_from_translate_text, Htexts. simpl. left.
  - intros data1 ->.
    destruct (dict_get data (str "Answer") (JArr [])) as [| | | | |items|];
      cbn [as_list]; try (by apply keeps_bind_raise).
    apply keeps_bind_ret.
    apply keeps_bind; [done| |intros; by apply keeps_ret].
    apply served_from_translate_answers. intros text Hin. apply Htexts.
    simpl. by right.
Qed.

Lemma served_from_save_cache cache c :
  keeps (served_from cache) (save_cache world c).
Proof.
  intros st. rewrite save_cache_result. apply served_from_files.
Qed.

Lemma served_from_process_lines cache out language lang lines : forall n,
  warm_cache cache lang lines ->
  keeps (served_from cache)
    (process_lines unicode_lower world construct translate
       out language lang lines n).
Proof.
  pose proof (served_from_refl cache) as Hr.
  pose proof (served_from_trans cache) as Ht.
  induction lines as [|line lines IH]; intros n Hwarm; cbn [process_lines];
    [by apply keeps_ret|].
  apply (keeps_bind_post _ (fun data => Json.decode line = Some (JObj data)));
    [done| | |].
  - by intros st data st' [Hdec _]%parse_record_returned.
  - apply keeps_same; [done|]. intros st. unfold parse_record.
    destruct (Json.decode line) as [v|]; [|done]. by destruct v.
  - intros data Hdec. apply keeps_bind; [done| |].
    { apply served_from_process_record. intros text Hin.
      apply (Hwarm line data); [left|done..]. }
    intros out_data. apply keeps_bind; [done| |].
    { intros st Hc. unfold write_record. destruct (forallb _ _);
        [|by apply served_from_refl].
      split; [done|]. split; [done|]. eexists [_]. split; [done|].
      by repeat constructor. }
    intros _. apply keeps_bind; [done| |].
    { unfold checkpoint. destruct (_ =? _)%nat; [|by apply keeps_ret].
      apply keeps_bind; [done | apply served_from_print|]. intros _.
      apply keeps_bind; [done | by apply keeps_same|].
      apply served_from_save_cache. }
    intros _. apply IH. intros l d t Hl. apply Hwarm. by right.
Qed.

(** [process_file] up to its loop. *)
Lemma process_file_unfold input_path output_path language (st : state world) :
  process_file' input_path output_path language st
  = match st_files st !! input_path with
    | None => (Raised FileNotFoundError, st)
    | Some _ =>
        let st1 := State (st_cache st) (<[output_path := []]> (st_files st))
                     (st_world st) (st_trace st) in
        match st_files st1 !! input_path with
        | None => (Raised FileNotFoundError, st1)
        | Some content =>
            (processed_count ←
               process_lines unicode_lower world construct translate
                 output_path language (get_language_code language)
                 (readlines (universal_newlines content)) 0;
             cache ← get_cache world;
             save_cache world cache;;
             print world
               (str "Completed " ++ language ++ str ": "
                ++ decimal processed_count ++ str " entries")) st1
        end
    end.
Proof.
  unfold process_file, mbind, M_bind, read_text, open_w, set_file.
  destruct (st_files st !! input_path); [|done]. cbn [st_files].
  by destruct (<[output_path := []]> (st_files st) !! input_path).
Qed.

(** X16. When the cache holds every text of the input file (the cleaned
    [Generated] and the answers of every record), [process_file] needs no
    provider: it makes no network call and no pause, and leaves the cache
    and the world of the providers as they were. *)
Theorem process_file_warm_cache input_path output_path language
    (st : state world) :
  warm_cache (st_cache st) (get_language_code language)
    (input_lines world input_path output_path st) ->
  let result := process_file' input_path output_path language st in
  st_cache result.2 = st_cache st
  /\ st_world result.2 = st_world st
  /\ Forall offline (events_between st result.2).
Proof.
  intros Hwarm result. subst result.
  pose proof (served_from_refl (st_cache st)) as Hr.
  pose proof (served_from_trans (st_cache st)) as Ht.
  rewrite process_file_unfold. unfold input_lines in Hwarm.
  destruct (st_files st !! input_path) as [content0|];
    [|by rewrite events_between_refl].
  cbv zeta. cbn [st_files].
  destruct (<[output_path := []]> (st_files st) !! input_path) as [content|].
  - set (st1 := State _ _ _ _).
    match goal with |- context [?m st1] => set (run := m) end.
    assert (keeps (served_from (st_cache st)) run) as Hrun.
    { subst run. apply keeps_bind; [done | by apply served_from_process_lines|].
      intros count. apply keeps_bind; [done | by apply keeps_same|].
      intros cache. apply keeps_bind; [done | apply served_from_save_cache|].
      intros _. apply served_from_print. }
    destruct (Hrun st1 eq_refl) as (Hc & Hw & evs & Hevs & Hoff).
    split; [done|]. split; [done|]. unfold events_between.
    rewrite Hevs. cbn [st1 st_trace]. by rewrite drop_app_length.
  - cbn [snd st_cache st_world]. split; [done|]. split; [done|].
    unfold events_between. cbn [st_trace]. by rewrite drop_all.
Qed.

End WarmCache.

(** ** The periodic flush of the cache *)

Section Checkpoint.

Context (unicode_lower : pystr -> pystr) (world : Type)
  (construct : provider -> pystr -> option exn)
  (translate : provider -> pystr -> pystr -> world -> outcome pystr * world).

#[local] Abbreviation translate_text' :=
  (translate_text unicode_lower world construct translate).
#[local] Abbreviation process_record' :=
  (process_record unicode_lower world construct translate).
#[local] Abbreviation process_file' :=
  (process_file unicode_lower world construct translate).

Lemma in_memory_refl (st : state world) : in_memory st st.
Proof. split; [done|]. split; [done|]. exists []. by rewrite app_nil_r. Qed.

Lemma in_memory_trans (st1 st2 st3 : state world) :
  in_memory st1 st2 -> in_memory st2 st3 -> in_memory st1 st3.
Proof.
  intros (Hc1 & Hf1 & evs1 & Ht1 & Hw1) (Hc2 & Hf2 & evs2 & Ht2 & Hw2).
  split; [by etrans|]. split; [congruence|].
  exists (evs1 ++ evs2). rewrite Ht2, Ht1, app_assoc, written_app, Hw1, Hw2. done.
Qed.

Lemma in_memory_print line : keeps in_memory (print world line).
Proof.
  intros st. split; [done|]. split; [done|]. by exists [EvPrint line].
Qed.

Lemma in_memory_translate_text lang text :
  keeps in_memory (translate_text' text lang).
Proof.
  intros st.
  destruct (translate_text_paths unicode_lower world construct translate
              text lang st); cbn [snd]; unfold stored, logged;
    try apply in_memory_refl;
    (split; [done || by apply insert_subseteq|]); (split; [done|]); eauto.
Qed.

Lemma in_memory_process_record lang data :
  keeps in_memory (process_record' lang data).
Proof.
  pose proof in_memory_refl as Hr. pose proof in_memory_trans as Ht.
  assert (forall items acc,
    keeps in_memory
      (translate_answers unicode_lower world construct translate lang items acc))
    as Hanswers.
  { induction items as [|v items IH]; intros acc; simpl; [by apply keeps_ret|].
    apply keeps_bind;
      [done | destruct v; by (apply keeps_ret || apply keeps_raise)|].
    intros answer. apply keeps_bind; [done | apply in_memory_translate_text|].
    intros translated. apply keeps_bind; [done | apply in_memory_print|].
    intros _. apply IH. }
  unfold process_record.
  apply keeps_bind;
    [done | destruct (dict_get _ _ _); by (apply keeps_ret || apply keeps_raise)|].
  intros generated. apply keeps_bind; [done| |].
  - destruct (truthy _); [|by apply keeps_ret].
    apply keeps_bind; [done | apply in_memory_translate_text|].
    intros. by apply keeps_ret.
  - intros data1.
    apply keeps_bind;
      [done | destruct (dict_get _ _ _); by (apply keeps_ret || apply keeps_raise)|].
    intros items. apply keeps_bind; [done | apply Hanswers|].
    intros. by apply keeps_ret.
Qed.

Lemma snapshot_in_memory c0 (st st' : state world) :
  in_memory st st' -> snapshot_on_disk c0 st -> snapshot_on_disk c0 st'.
Proof.
  intros (Hc & Hf & _) (c & H0 & Hsub & Hfile). exists c.
  split; [done|]. split; [by etrans|]. by rewrite Hf.
Qed.

Lemma snapshot_saved c0 (st : state world) :
  c0 ⊆ st_cache st ->
  snapshot_on_disk c0 (save_cache world (st_cache st) st).2.
Proof.
  intros Hc. rewrite save_cache_result. exists (st_cache st).
  split; [done|]. split; [done|]. apply lookup_insert_eq.
Qed.

(** Once the count of records has passed a multiple of ten, a snapshot of
    the cache is on disk, however the loop ends. *)
Lemma process_lines_checkpoint output_path language lang lines :
  forall n (st : state world) c0,
  c0 ⊆ st_cache st ->
  let st' := (process_lines unicode_lower world construct translate
                output_path language lang lines n st).2 in
  exists evs,
    st_trace st' = st_trace st ++ evs
    /\ st_cache st ⊆ st_cache st'
    /\ (snapshot_on_disk c0 st
        \/ (exists k, n < 10 * k /\ 10 * k <= n + length (written evs))%nat ->
        snapshot_on_disk c0 st').
Proof.
  induction lines as [|line lines IH]; intros n st c0 Hc0 st'; subst st'.
  { exists []. simpl. rewrite app_nil_r. split; [done|]. split; [done|].
    intros [H|(k & H1 & H2)]; [done|lia]. }
  cbn [process_lines]. unfold mbind, M_bind.
  (* a step that stays in memory and ends the run *)
  assert (forall st0 : state world, in_memory st st0 ->
    exists evs,
      st_trace st0 = st_trace st ++ evs /\ st_cache st ⊆ st_cache st0
      /\ (snapshot_on_disk c0 st
          \/ (exists k, n < 10 * k /\ 10 * k <= n + length (written evs))%nat ->
          snapshot_on_disk c0 st0)) as Hstop.
  { intros st0 Hmem. pose proof Hmem as (Hc & Hf & evs & Ht & Hw).
    exists evs. split; [done|]. split; [done|]. rewrite Hw.
    intros [H|(k & H1 & H2)]; [by eapply snapshot_in_memory|simpl in H2; lia]. }
  destruct (parse_record world line st) as [[data|e] st0] eqn:Hparse; cycle 1.
  { apply Hstop. unfold parse_record in Hparse.
    destruct (Json.decode line) as [[]|]; cbn in Hparse; try discriminate;
      injection Hparse as _ <-; apply in_memory_refl. }
  apply parse_record_returned in Hparse as [_ ->].
  pose proof (in_memory_process_record lang data st) as Hmem.
  destruct (process_record' lang data st) as [[out|e] st1] eqn:Hrec;
    cbn [snd] in Hmem; [|by apply Hstop].
  unfold write_record. destruct (forallb _ _); [|by apply Hstop].
  cbn [emit]. set (st2 := State _ _ _ _).
  destruct Hmem as (Hc1 & Hf1 & evs1 & Ht1 & Hw1).
  assert (c0 ⊆ st_cache st1) as Hc01 by (by etrans).
  unfold checkpoint.
  destruct (S n mod 10 =? 0)%nat eqn:Hmod.
  - apply Nat.eqb_eq in Hmod.
    unfold mbind, M_bind, print, emit, get_cache. cbn [st2 st_cache st_files st_world st_trace].
    set (st3 := State _ _ _ _).
    assert (snapshot_on_disk c0 (save_cache world (st_cache st1) st3).2)
      as Hsnap by exact (snapshot_saved c0 st3 Hc01).
    pose proof (save_cache_result world (st_cache st1) st3) as Hsave.
    destruct (save_cache world (st_cache st1) st3) as [[[]|e] st4] eqn:Hs;
      cbn [snd] in Hsnap.
    + assert (st_cache st4 = st_cache st1 /\ st_trace st4 = st_trace st3)
        as [Hc4 Ht4] by (by injection Hsave as _ ->).
      destruct (IH (S n) st4 c0) as (evs3 & Ht3 & Hc3 & Hkeep);
        [by rewrite Hc4|].
      cbv beta iota.
      eexists (evs1 ++ [EvWrite output_path out] ++ [_] ++ evs3).
      rewrite Ht3, Ht4. cbn [st3 st_trace]. rewrite Ht1.
      split; [by rewrite <- !app_assoc|].
      split; [by rewrite <- Hc3, Hc4|]. intros _. apply Hkeep. by left.
    + assert (st_cache st4 = st_cache st1 /\ st_trace st4 = st_trace st3)
        as [Hc4 Ht4] by (by injection Hsave as _ ->).
      cbv beta iota. cbn [snd].
      eexists (evs1 ++ [EvWrite output_path out] ++ [_]).
      rewrite Ht4. cbn [st3 st_trace]. rewrite Ht1.
      split; [by rewrite <- !app_assoc|]. split; [by rewrite Hc4|]. done.
  - apply Nat.eqb_neq in Hmod. cbn [mret M_ret].
    destruct (IH (S n) st2 c0 Hc01) as (evs3 & Ht3 & Hc3 & Hkeep).
    exists (evs1 ++ [EvWrite output_path out] ++ evs3).
    rewrite Ht3. cbn [st2 st_trace]. rewrite Ht1.
    split; [by rewrite <- !app_assoc|]. split; [by etrans|].
    rewrite !written_app, Hw1. cbn [written omap app length].
    intros Hpre. apply Hkeep. destruct Hpre as [Hsnap|(k & H1 & H2)].
    + left. destruct Hsnap as (c & H0 & Hsub & Hfile). exists c.
      split; [done|]. split; [by etrans|]. cbn [st2 st_files]. by rewrite Hf1.
    + right. exists k. simpl in H2. split; [|lia].
      destruct (decide (10 * k = S n)%nat) as [Heq|]; [|lia].
      exfalso. apply Hmod. rewrite <- Heq, Nat.mul_comm. apply Nat.Div0.mod_mul.
Qed.

(** X17. Once ten records are written the cache has been flushed: when
    [process_file] stops, returning or raising, with ten records or more
    written (and the output file is not the cache file), the cache file
    holds what [save_cache] wrote of a snapshot of the cache that has every
    entry the run started with and only entries of the cache in memory;
    when the snapshot can be encoded, [load_cache] returns it. *)
Theorem process_file_checkpoint input_path output_path language
    (st : state world) :
  output_path <> TRANSLATION_CACHE_FILE ->
  let st' := (process_file' input_path output_path language st).2 in
  (10 <= length (written (events_between st st')))%nat ->
  exists c,
    st_cache st ⊆ c /\ c ⊆ st_cache st'
    /\ st_files st' !! TRANSLATION_CACHE_FILE
       = Some (concat (encodable_prefix (Json.iterencode c)))
    /\ (encodable_cache c ->
        load_cache world st' = (Returned (JObj (JStr <$> c)), st')).
Proof.
  intros Hout st' Hten.
  assert (snapshot_on_disk (st_cache st) st') as (c & H0 & Hsub & Hfile).
  { subst st'. revert Hten. rewrite process_file_unfold.
    destruct (st_files st !! input_path) as [content0|];
      [|rewrite events_between_refl; simpl; lia].
    cbv zeta. cbn [st_files].
    destruct (<[output_path := []]> (st_files st) !! input_path) as [content|];
      cycle 1.
    { unfold events_between. cbn [snd st_trace]. rewrite drop_all. simpl. lia. }
    set (st1 := State _ _ _ _). unfold mbind, M_bind, get_cache.
    destruct (process_lines_checkpoint output_path language
                (get_language_code language)
                (readlines (universal_newlines content)) 0 st1 (st_cache st))
      as (evs & Ht & Hc & Hkeep); [done|].
    destruct (process_lines _ _ _ _ _ _ _ _ _ st1) as [[count|e] st2];
      cbn [snd] in *.
    - intros _.
      pose proof (snapshot_saved (st_cache st) st2 Hc) as Hsnap.
      destruct (save_cache world (st_cache st2) st2) as [[[]|e] st3];
        cbn [snd] in *; [|exact Hsnap].
      destruct Hsnap as (c & H0 & Hsub & Hfile). exists c.
      split; [done|]. split; [exact Hsub | exact Hfile].
    - unfold events_between. rewrite Ht. cbn [st1 st_trace].
      rewrite drop_app_length. intros Hten. apply Hkeep. right.
      exists 1%nat. lia. }
  exists c. split; [done|]. split; [done|]. split; [done|].
  intros Henc. rewrite encodable_prefix_all in Hfile
    by (rewrite iterencode_encodable; by apply encodable_cache_items).
  apply (load_cache_read _ _ _ _ Hfile).
  rewrite plain_universal_newlines
    by (by apply forallb_plain_concat, iterencode_plain).
  apply iterencode_decoded.
Qed.

End Checkpoint.

(* ===================================================================== *)
(** * Properties of the entry point *)
(* ===================================================================== *)

Section Main.

Context (unicode_lower : pystr -> pystr) (world : Type)
  (construct : provider -> pystr -> option exn)
  (translate : provider -> pystr -> pystr -> world -> outcome pystr * world).

#[local] Abbreviation process_file' :=
  (process_file unicode_lower world construct translate).
#[local] Abbreviation process_file_type' :=
  (process_file_type unicode_lower world construct translate).
#[local] Abbreviation main' := (main unicode_lower world construct translate).
#[local] Abbreviation record_processed' :=
  (record_processed unicode_lower world construct translate).

(** The one file [main] looks for, and the one it writes. *)
Lemma process_file_type_assamese :
  process_file_type' (str "assamese") (str "generated")
  = (found ← path_exists world assamese_input;
     if negb found
     then print world
            (str "File not found: data/predictions-assamese-generated.jsonl")
     else
       print world
         (10 :: str "Processing predictions-assamese-generated.jsonl...");;
       process_file' assamese_input assamese_output (str "assamese")).
Proof. reflexivity. Qed.

Lemma main_loops :
  for_each world
    (fun language => for_each world (process_file_type' language) file_types)
    LANGUAGES
  = ((process_file_type' (str "assamese") (str "generated");; mret tt);;
     mret tt).
Proof. reflexivity. Qed.

Lemma load_cache_state (st : state world) : (load_cache world st).2 = st.
Proof.
  unfold load_cache, mbind, M_bind, path_exists, read_text.
  destruct (bool_decide _); [|done].
  destruct (st_files st !! _); [|done]. by destruct (Json.decode _).
Qed.

Lemma as_cache_strings (cache : gmap pystr pystr) (st : state world) :
  as_cache world (JObj (JStr <$> cache)) st = (Returned cache, st).
Proof.
  unfold as_cache, as_dict, mbind, M_bind, mret, M_ret.
  assert (omap (json_str) (JStr <$> cache) = cache) as ->.
  { apply map_eq. intros key. rewrite lookup_omap, lookup_fmap.
    by destruct (cache !! key). }
  by rewrite bool_decide_true by (by rewrite dom_fmap_L).
Qed.

Lemma as_cache_state v (st : state world) : (as_cache world v st).2 = st.
Proof.
  unfold as_cache, mbind, M_bind. destruct v; try done. simpl.
  by destruct (bool_decide _).
Qed.

(** X18. When the input file is missing, [main] processes nothing: it
    prints that the file was not found and the two closing lines, returns,
    and leaves every file as it was, the cache file included, although the
    closing line says that the cache was saved. *)
Theorem main_missing_input (st : state world) (cache : gmap pystr pystr) :
  st_files st !! assamese_input = None ->
  (load_cache world st).1 = Returned (JObj (JStr <$> cache)) ->
  main' st
  = (Returned tt,
     State cache (st_files st) (st_world st)
       (st_trace st
        ++ [EvPrint (str "File not found: data/predictions-assamese-generated.jsonl");
            EvPrint (10 :: str "Translation complete. Cache saved to translation_cache.json");
            EvPrint (str "Total cached translations: " ++ decimal (size cache))])).
Proof.
  intros Hin Hload. unfold main. rewrite main_loops, process_file_type_assamese.
  assert (load_cache world st = (Returned (JObj (JStr <$> cache)), st)) as Hl.
  { pose proof (load_cache_state st) as Hs.
    destruct (load_cache world st) as [r st0]. simpl in *. congruence. }
  rewrite (bind_returns _ _ _ st _ st Hl).
  rewrite (bind_returns _ _ _ st _ st (as_cache_strings cache st)).
  unfold mbind, M_bind, set_cache, path_exists, print, emit, get_cache, mret, M_ret.
  cbn [st_cache st_files st_world st_trace].
  rewrite bool_decide_false by (rewrite Hin; by intros [? ?]).
  cbn [negb st_cache st_files st_world st_trace].
  by rewrite <- !app_assoc.
Qed.

(** The two ways [main] returns. *)
Lemma main_returned (st st' : state world) :
  main' st = (Returned tt, st') ->
  exists cache line,
    (st_files st !! assamese_input = None
     /\ st_cache st' = cache /\ st_files st' = st_files st
     /\ events_between st st' =
          [EvPrint (str "File not found: data/predictions-assamese-generated.jsonl");
           EvPrint (10 :: str "Translation complete. Cache saved to translation_cache.json");
           EvPrint (str "Total cached translations: " ++ decimal (size cache))])
    \/ (exists st1 st2 evs,
          is_Some (st_files st !! assamese_input)
          /\ st1 = State cache (st_files st) (st_world st)
                     (st_trace st ++ [EvPrint line])
          /\ process_file' assamese_input assamese_output (str "assamese") st1
             = (Returned tt, st2)
          /\ st_cache st' = st_cache st2 /\ st_files st' = st_files st2
          /\ st_trace st' = st_trace st2 ++ evs /\ written evs = []
          /\ last evs
             = Some (EvPrint (str "Total cached translations: "
                              ++ decimal (size (st_cache st'))))).
Proof.
  unfold main. rewrite main_loops, process_file_type_assamese.
  intros (loaded & st0 & Hload & H)%bind_returned.
  pose proof (load_cache_state st) as Hs. rewrite Hload in Hs. simpl in Hs.
  subst st0.
  apply bind_returned in H as (cache & st0 & Hcache & H).
  pose proof (as_cache_state loaded st) as Hs. rewrite Hcache in Hs. simpl in Hs.
  subst st0.
  apply bind_returned in H as ([] & st1 & [= <-] & H).
  apply bind_returned in H as ([] & st2 & Hloops & H).
  apply bind_returned in Hloops as ([] & st3 & Hloop & [= <-]).
  apply bind_returned in Hloop as ([] & st4 & Hfile & [= <-]).
  apply bind_returned in H as ([] & st5 & [= <-] & H).
  apply bind_returned in H as (cache' & st6 & [= <- <-] & H).
  injection H as <-.
  apply bind_returned in Hfile as (found & st7 & [= <- <-] & Hfile).
  cbn [st_files] in Hfile. exists cache.
  destruct (st_files st !! assamese_input) as [content|] eqn:Hin.
  - rewrite bool_decide_true in Hfile by eauto. cbn [negb] in Hfile.
    apply bind_returned in Hfile as ([] & st8 & [= <-] & Hfile).
    eexists. right. eexists _, _, _. split; [eauto|]. split; [reflexivity|].
    split; [exact Hfile|]. cbn [st_cache st_files st_trace].
    split; [done|]. split; [done|]. rewrite <- app_assoc.
    split; [reflexivity|]. split; [reflexivity|]. reflexivity.
  - rewrite bool_decide_false in Hfile by (by intros [? ?]). cbn [negb] in Hfile.
    injection Hfile as <-. exists []. left.
    cbn [st_cache st_files st_trace]. split; [done|]. split; [done|].
    split; [done|]. unfold events_between. cbn [st_trace].
    by rewrite <- !app_assoc, drop_app_length.
Qed.

(** X19. When the input file exists and [main] returns, one record has been
    written for every line of the input, translated from "as"; the cache
    file holds the cache as it is in memory; and the last line printed
    gives the number of its entries. *)
Theorem main_returns (st st' : state world) content :
  st_files st !! assamese_input = Some content ->
  main' st = (Returned tt, st') ->
  let evs := events_between st st' in
  Forall2 (record_processed' (str "as")) (readlines (universal_newlines content))
    (written evs)
  /\ load_cache world st' = (Returned (JObj (JStr <$> st_cache st')), st')
  /\ last evs
     = Some (EvPrint (str "Total cached translations: "
                      ++ decimal (size (st_cache st')))).
Proof.
  intros Hin (cache & line & [(Hnone & _) | H])%main_returned evs;
    [congruence|].
  destruct H as (st1 & st2 & evs2 & _ & -> & Hfile & Hc & Hf & Ht & Hw & Hlast).
  subst evs.
  pose proof Hfile as (evs1 & Ht1 & Hrecs & _ & Henc & Hcachefile)
    %process_file_returned.
  cbn [st_trace] in Ht1.
  assert (events_between st st' = [EvPrint line] ++ evs1 ++ evs2) as ->.
  { unfold events_between. rewrite Ht, Ht1, <- !app_assoc.
    by rewrite drop_app_length. }
  split; [|split].
  - rewrite !written_app, Hw, app_nil_r. cbn [written omap app].
    unfold input_lines in Hrecs. cbn [st_files] in Hrecs.
    rewrite lookup_insert_ne in Hrecs by (by vm_compute).
    by rewrite Hin in Hrecs.
  - rewrite Hc. rewrite <- Hf in Hcachefile.
    apply (load_cache_read _ _ _ _ Hcachefile).
    rewrite plain_universal_newlines
      by (by apply forallb_plain_concat, iterencode_plain).
    apply iterencode_decoded.
  - destruct evs2 as [|ev evs2 _] using rev_ind; [done|].
    rewrite last_snoc in Hlast. by rewrite !app_assoc, last_snoc.
Qed.

(** X20. Whatever happens, [main] changes no file but the translated file
    and the cache file, every network call it makes has the source
    language "as" and a text that is not empty, and every record it writes
    goes to the translated file. *)
Theorem main_frame (st : state world) :
  let st' := (main' st).2 in
  (forall path,
     path <> assamese_output -> path <> TRANSLATION_CACHE_FILE ->
     st_files st' !! path = st_files st !! path)
  /\ (forall p source text,
        EvCall p source text ∈ events_between st st' ->
        source = str "as" /\ text <> [])
  /\ (forall path data,
        EvWrite path data ∈ events_between st st' -> path = assamese_output).
Proof.
  intros st'. subst st'.
  assert (keeps (files_and_events (str "as") assamese_output) main') as Hmain.
  { pose proof (files_and_events_refl world (str "as") assamese_output) as Hr.
    pose proof (files_and_events_trans world (str "as") assamese_output) as Ht.
    assert (forall line, keeps (files_and_events (str "as") assamese_output)
                           (print world line)) as Hprint.
    { intros line. eapply keeps_weaken; [|apply keeps_print]. by intros ? ? [_ ?]. }
    unfold main. rewrite main_loops, process_file_type_assamese.
    apply keeps_bind; [done | apply keeps_same, load_cache_state; done|].
    intros loaded.
    apply keeps_bind; [done | apply keeps_same, as_cache_state; done|].
    intros cache. apply keeps_bind; [done| |].
    { intros st0. split; [done|]. exists []. by rewrite app_nil_r. }
    intros _. apply keeps_bind; [done| |].
    - apply keeps_bind; [done | | intros; by apply keeps_ret].
      apply keeps_bind; [done | | intros; by apply keeps_ret].
      apply keeps_bind; [done | by apply keeps_same|]. intros found.
      destruct (negb found); [apply Hprint|].
      apply keeps_bind; [done | apply Hprint|]. intros _.
      eapply keeps_weaken;
        [|apply (keeps_process_file unicode_lower world construct translate
                   assamese_input assamese_output (str "assamese"))].
      by intros ? ? [_ ?].
    - intros _. apply keeps_bind; [done | apply Hprint|]. intros _.
      apply keeps_bind; [done | by apply keeps_same|]. intros. apply Hprint. }
  destruct (Hmain st) as (Hfiles & evs & Ht & Hevs).
  split; [exact Hfiles|].
  unfold events_between. rewrite Ht, drop_app_length.
  rewrite Forall_forall in Hevs.
  split; [intros p source text Hin | intros path data Hin]; exact (Hevs _ Hin).
Qed.

End Main.

(* ===================================================================== *)
(** * Concrete runs *)
(* ===================================================================== *)

Lemma outcome_pair {A S : Type} (p : outcome A * S) (a : A) :
  p.1 = Returned a -> p = (Returned a, p.2).
Proof. destruct p as [r s]. simpl. by intros ->. Qed.

(** "The Cat" and "the cat" are cleaned to the same string. *)
Lemma clean_translated_text_ascii_case_witness :
  isascii (str "The Cat") = true
  /\ clean_translated_text lower_ascii_only (map ascii_lower (str "The Cat"))
     = clean_translated_text lower_ascii_only (str "The Cat")
  /\ forall c, c ∈ clean_translated_text lower_ascii_only (str "The Cat") ->
       c < 128 /\ ascii_lower c = c.
Proof.
  split; [reflexivity|].
  apply (clean_translated_text_ascii_case lower_ascii_only (str "The Cat")).
  reflexivity.
Defined.

(** The sample record, with a provider that answers "the cat". *)
Lemma process_record_generated_witness :
  let st := fresh [Returned (str "the cat")] in
  let result :=
    process_record lower_ascii_only script constructs scripted
      (str "as") sample_record st in
  result.1 = Returned sample_output
  /\ exists generated translated st1,
       dict_get sample_record (str "Generated") (JStr []) = JStr generated
       /\ sample_output !! str "CleanedAnswer"
          = Some (JStr (clean_generated_answer generated))
       /\ run_translate_text (clean_generated_answer generated) (str "as") st
          = (Returned translated, st1)
       /\ sample_output !! str "TranslatedAnswer" = Some (JStr translated)
       /\ (clean_generated_answer generated = [] -> translated = [] /\ st1 = st)
       /\ (sample_record !! str "Generated" = None -> generated = []).
Proof.
  cbv zeta.
  assert ((process_record lower_ascii_only script constructs scripted
             (str "as") sample_record (fresh [Returned (str "the cat")])).1
          = Returned sample_output) as Hrun by (vm_compute; reflexivity).
  split; [exact Hrun|].
  exact (process_record_generated lower_ascii_only script constructs scripted
           (str "as") sample_record (fresh [Returned (str "the cat")])
           sample_output _ (outcome_pair _ _ Hrun)).
Defined.

(** The sample file: one line, one record. *)
Lemma process_file_complete_witness :
  let result :=
    process_file lower_ascii_only unit constructs identity_stub
      assamese_input assamese_output (str "assamese") sample_state in
  let lines := input_lines unit assamese_input assamese_output sample_state in
  let evs := events_between sample_state result.2 in
  result.1 = Returned tt
  /\ is_Some (st_files sample_state !! assamese_input)
  /\ Forall2 (record_processed lower_ascii_only unit constructs identity_stub
                (get_language_code (str "assamese"))) lines (written evs)
  /\ length (written evs) = length lines
  /\ last evs
     = Some (EvPrint (str "Completed " ++ str "assamese" ++ str ": "
                      ++ decimal (length lines) ++ str " entries")).
Proof.
  cbv zeta.
  assert ((process_file lower_ascii_only unit constructs identity_stub
             assamese_input assamese_output (str "assamese") sample_state).1
          = Returned tt) as Hrun by (vm_compute; reflexivity).
  split; [exact Hrun|].
  exact (process_file_complete lower_ascii_only unit constructs identity_stub
           assamese_input assamese_output (str "assamese") sample_state _
           (outcome_pair _ _ Hrun)).
Defined.

(** The sample file: the cache is on disk when the run is over. *)
Lemma process_file_saves_cache_witness :
  let result :=
    process_file lower_ascii_only unit constructs identity_stub
      assamese_input assamese_output (str "assamese") sample_state in
  result.1 = Returned tt
  /\ encodable_cache (st_cache result.2)
  /\ load_cache unit result.2
     = (Returned (JObj (JStr <$> st_cache result.2)), result.2).
Proof.
  cbv zeta.
  assert ((process_file lower_ascii_only unit constructs identity_stub
             assamese_input assamese_output (str "assamese") sample_state).1
          = Returned tt) as Hrun by (vm_compute; reflexivity).
  split; [exact Hrun|].
  exact (process_file_saves_cache lower_ascii_only unit constructs identity_stub
           assamese_input assamese_output (str "assamese") sample_state _
           (outcome_pair _ _ Hrun)).
Defined.

(** The sample file with a blank second line: the run stops there. *)
Lemma process_file_malformed_line_witness :
  let result :=
    process_file lower_ascii_only unit constructs identity_stub
      assamese_input assamese_output (str "assamese") blank_line_state in
  input_lines unit assamese_input assamese_output blank_line_state !! 1%nat
  = Some [10]
  /\ (forall data, Json.decode [10] <> Some (JObj data))
  /\ (exists e, result.1 = Raised e)
  /\ (length (written (events_between blank_line_state result.2)) <= 1)%nat.
Proof.
  cbv zeta.
  assert (input_lines unit assamese_input assamese_output blank_line_state
            !! 1%nat = Some [10]) as Hline by (vm_compute; reflexivity).
  assert (forall data, Json.decode [10] <> Some (JObj data)) as Hbad
    by (intros data; discriminate).
  split; [exact Hline|]. split; [exact Hbad|].
  exact (process_file_malformed_line lower_ascii_only unit constructs
           identity_stub assamese_input assamese_output (str "assamese")
           blank_line_state 1%nat [10] Hline Hbad).
Defined.

(** A run with no file at all. *)
Lemma main_missing_input_witness :
  st_files (fresh []) !! assamese_input = None
  /\ (load_cache script (fresh [])).1 = Returned (JObj (JStr <$> ∅))
  /\ main lower_ascii_only script constructs scripted (fresh [])
     = (Returned tt,
        State ∅ ∅ []
          [EvPrint (str "File not found: data/predictions-assamese-generated.jsonl");
           EvPrint (10 :: str "Translation complete. Cache saved to translation_cache.json");
           EvPrint (str "Total cached translations: 0")]).
Proof.
  assert (st_files (fresh []) !! assamese_input = None) as Hin by reflexivity.
  assert ((load_cache script (fresh [])).1 = Returned (JObj (JStr <$> ∅)))
    as Hload by (vm_compute; reflexivity).
  split; [exact Hin|]. split; [exact Hload|].
  exact (main_missing_input lower_ascii_only script constructs scripted
           (fresh []) ∅ Hin Hload).
Defined.

(** The sample file, from the entry point. *)
Lemma main_returns_witness :
  let st' :=
    (main lower_ascii_only unit constructs identity_stub sample_state).2 in
  let evs := events_between sample_state st' in
  st_files sample_state !! assamese_input = Some sample_line
  /\ main lower_ascii_only unit constructs identity_stub sample_state
     = (Returned tt, st')
  /\ Forall2 (record_processed lower_ascii_only unit constructs identity_stub
                (str "as"))
       (readlines (universal_newlines sample_line)) (written evs)
  /\ load_cache unit st' = (Returned (JObj (JStr <$> st_cache st')), st')
  /\ last evs
     = Some (EvPrint (str "Total cached translations: "
                      ++ decimal (size (st_cache st')))).
Proof.
  cbv zeta.
  assert (st_files sample_state !! assamese_input = Some sample_line) as Hin
    by (vm_compute; reflexivity).
  assert ((main lower_ascii_only unit constructs identity_stub sample_state).1
          = Returned tt) as Hrun by (vm_compute; reflexivity).
  split; [exact Hin|]. split; [exact (outcome_pair _ _ Hrun)|].
  exact (main_returns lower_ascii_only unit constructs identity_stub
           sample_state _ sample_line Hin (outcome_pair _ _ Hrun)).
Defined.

Lemma surrogate_cache_not_encodable : ~ encodable_cache surrogate_cache.
Proof.
  intros H. destruct (H [55296] (str "x")) as [Hk _]; [|discriminate Hk].
  unfold surrogate_cache. apply lookup_singleton_eq.
Qed.

(** The cache with a lone surrogate in a key. *)
Lemma failed_save_breaks_load_witness :
  ~ encodable_cache surrogate_cache
  /\ (save_cache script surrogate_cache (fresh [])).1 = Raised UnicodeEncodeError
  /\ load_cache script (save_cache script surrogate_cache (fresh [])).2
     = (Raised JSONDecodeError, (save_cache script surrogate_cache (fresh [])).2).
Proof.
  split; [exact surrogate_cache_not_encodable|].
  exact (failed_save_breaks_load script surrogate_cache (fresh [])
           surrogate_cache_not_encodable).
Defined.

(** The sample file with "as:cat" in the cache and no provider in reach. *)
Lemma process_file_warm_cache_witness :
  let result :=
    process_file lower_ascii_only script constructs scripted
      assamese_input assamese_output (str "assamese") warm_state in
  warm_cache (st_cache warm_state) (get_language_code (str "assamese"))
    (input_lines script assamese_input assamese_output warm_state)
  /\ st_cache result.2 = st_cache warm_state
  /\ st_world result.2 = st_world warm_state
  /\ Forall offline (events_between warm_state result.2).
Proof.
  cbv zeta.
  assert (warm_cache (st_cache warm_state) (get_language_code (str "assamese"))
            (input_lines script assamese_input assamese_output warm_state))
    as Hwarm.
  { intros line data text Hline Hdec Htext.
    assert (line = sample_line) as ->.
    { vm_compute in Hline. by apply list_elem_of_singleton in Hline. }
    assert (data = sample_record) as ->.
    { assert (Json.decode sample_line = Some (JObj sample_record)) as Hs
        by (vm_compute; reflexivity).
      rewrite Hs in Hdec. by injection Hdec. }
    assert (record_texts sample_record = [str "cat"; str "cat"]) as Hts
      by (vm_compute; reflexivity).
    rewrite Hts in Htext. right.
    repeat (apply elem_of_cons in Htext as [->|Htext]);
      [vm_compute; eauto..|by apply elem_of_nil in Htext]. }
  split; [exact Hwarm|].
  exact (process_file_warm_cache lower_ascii_only script constructs scripted
           assamese_input assamese_output (str "assamese") warm_state Hwarm).
Defined.

(** Ten records, then a blank line: the run raises, and the cache it
    flushed after the tenth record is on disk. *)
Lemma process_file_checkpoint_witness :
  let st' :=
    (process_file lower_ascii_only unit constructs identity_stub
       assamese_input assamese_output (str "assamese") ten_records_state).2 in
  assamese_output <> TRANSLATION_CACHE_FILE
  /\ (10 <= length (written (events_between ten_records_state st')))%nat
  /\ (process_file lower_ascii_only unit constructs identity_stub
        assamese_input assamese_output (str "assamese") ten_records_state).1
     = Raised JSONDecodeError
  /\ exists c,
       st_cache ten_records_state ⊆ c /\ c ⊆ st_cache st'
       /\ st_files st' !! TRANSLATION_CACHE_FILE
          = Some (concat (encodable_prefix (Json.iterencode c)))
       /\ (encodable_cache c ->
           load_cache unit st' = (Returned (JObj (JStr <$> c)), st')).
Proof.
  cbv zeta.
  assert (assamese_output <> TRANSLATION_CACHE_FILE) as Hout by discriminate.
  assert (10 <= length (written (events_between ten_records_state
            (process_file lower_ascii_only unit constructs identity_stub
               assamese_input assamese_output (str "assamese")
               ten_records_state).2)))%nat as Hten
    by (apply Nat.leb_le; vm_compute; reflexivity).
  split; [exact Hout|]. split; [exact Hten|].
  split; [vm_compute; reflexivity|].
  exact (process_file_checkpoint lower_ascii_only unit constructs identity_stub
           assamese_input assamese_output (str "assamese") ten_records_state
           Hout Hten).
Defined.
